(** * Eureka: optimal extraction (stage 3) and light-curve models (stage 5)

    A shallow embedding of

    - [eureka/S3_data_reduction/niriss_extraction.py] ([optimal_extraction]),
    - [eureka/S5_lightcurve_fitting/models/StepModel.py],
    - [eureka/S5_lightcurve_fitting/differentiable_models/PyMC3Models.py],
    - [eureka/lib/astropytable.py] ([savetable_S3]),
    - [eureka/S3_data_reduction/niriss.py] ([dirty_mask], [box_extract],
      [fit_bg]),
    - [eureka/lib/clipping.py] ([time_removal]),

    together with the properties the specification states about them and
    further properties of the code.

    Conventions.  A numpy [float64] is a primitive binary64 float, so NaN,
    the infinities, signed zeros and rounding are those of the machine.  A
    numpy array is a list (1-D), a list of rows (2-D) or a list of images
    (3-D); a list of rows cannot record the width of an image with no row,
    so statements that depend on shapes are about images with at least one
    row.  A Python call either returns, raises, or (for the [while] loop of
    the extraction, which is run with fuel) exhausts its fuel. *)

From Stdlib Require Import Floats ZArith Lia Ascii String.
From stdpp Require Import base list strings gmap pretty.

Set Warnings "-inexact-float,-register-all".
Set Default Proof Using "Type".

Local Open Scope float_scope.

(** ** Python outcomes *)

Inductive exn : Type :=
| TypeError | ValueError | IndexError | KeyError | AttributeError
| AssertionError | NameError.

Inductive outcome (A : Type) : Type :=
| Ret (a : A)
| Raise (e : exn) (msg : string)
| OutOfFuel.

Arguments Ret {A} a.
Arguments Raise {A} e msg.
Arguments OutOfFuel {A}.

Definition obind {A B : Type} (f : A → outcome B) (o : outcome A) : outcome B :=
  match o with
  | Ret a => f a
  | Raise e msg => Raise e msg
  | OutOfFuel => OutOfFuel
  end.

#[global] Instance outcome_bind : MBind outcome := @obind.
#[global] Instance outcome_ret : MRet outcome := @Ret.

(** A call that cannot loop: it returns or raises. *)
Inductive result (A : Type) : Type :=
| Ok (a : A)
| Err (e : exn) (msg : string).

Arguments Ok {A} a.
Arguments Err {A} e msg.

Definition lift {A : Type} (r : result A) : outcome A :=
  match r with
  | Ok a => Ret a
  | Err e msg => Raise e msg
  end.

Definition returns {A : Type} (o : outcome A) : Prop := ∃ a, o = Ret a.

Definition raises {A : Type} (o : outcome A) : Prop := ∃ e msg, o = Raise e msg.

(** ** Facts about binary64 arithmetic *)

Module FloatFacts.

(** A product with zero is a zero or NaN, so it exceeds no threshold that
    zero does not exceed. *)
Lemma ltb_mul_zero (t s : float) : (t <? 0) = false → (t <? s * 0) = false.
Proof.
  rewrite !ltb_spec, mul_spec.
  change (Prim2SF 0) with (S754_zero false).
  unfold SF64mul, SFmul, SFltb, SFcompare.
  destruct (Prim2SF s) as [b| b | |b m e]; destruct (Prim2SF t) as [b'|b'| |b' m' e'];
    try done.
Qed.

(** Adding [0.0] changes nothing but the sign of a negative zero. *)
Lemma add_zero_r (x : float) : Prim2SF x ≠ S754_zero true → x + 0 = x.
Proof.
  intros Hx. assert (Prim2SF (x + 0) = Prim2SF x) as Heq.
  { rewrite add_spec. change (Prim2SF 0) with (S754_zero false).
    unfold SF64add, SFadd. destruct (Prim2SF x) as [[]| [] | |b m e]; done. }
  by rewrite <- (SF2Prim_Prim2SF (x + 0)), Heq, SF2Prim_Prim2SF.
Qed.

Lemma SFcompare_swap (x y : spec_float) :
  SFcompare y x = option_map CompOpp (SFcompare x y).
Proof.
  destruct x as [sx|sx| |sx mx ex], y as [sy|sy| |sy my ey]; simpl;
    try reflexivity; try (destruct sx; reflexivity); try (destruct sy; reflexivity);
    try (destruct sx, sy; reflexivity).
  rewrite (Z.compare_antisym ex ey).
  change (PosDef.Pos.compare_cont Eq my mx) with (Pos.compare my mx).
  change (PosDef.Pos.compare_cont Eq mx my) with (Pos.compare mx my).
  rewrite (Pos.compare_antisym mx my).
  destruct sx, sy; simpl; try reflexivity;
    destruct (ex ?= ey)%Z; simpl; try reflexivity;
    destruct (mx ?= my)%positive; reflexivity.
Qed.

(** [a < b] excludes [b <= a]. *)
Lemma ltb_leb_false (a b : float) : (a <? b) = true → (b <=? a) = false.
Proof.
  rewrite ltb_spec, leb_spec. unfold SFltb, SFleb.
  rewrite (SFcompare_swap (Prim2SF a) (Prim2SF b)).
  by destruct (SFcompare (Prim2SF a) (Prim2SF b)) as [[]|].
Qed.









Lemma is_nan_false_zero (u : float) (s : bool) :
  Prim2SF u = S754_zero s → is_nan u = false.
Proof.
  intros Hu. unfold is_nan. rewrite FloatAxioms.eqb_spec, Hu. by destruct s.
Qed.







End FloatFacts.

(** ** numpy arrays of float64 *)

Module NumPy.

Abbreviation vec := (list float).
Abbreviation image := (list (list float)).
Abbreviation cube := (list (list (list float))).

(** The arithmetic a column sum and a normalization need; the code runs
    on binary64 floats. *)
Class Num (F : Type) : Type := {
  num_zero : F;
  num_add : F → F → F;
  num_div : F → F → F;
  num_is_nan : F → bool
}.

#[global] Instance float_num : Num float := {|
  num_zero := 0;
  num_add := PrimFloat.add;
  num_div := PrimFloat.div;
  num_is_nan := PrimFloat.is_nan
|}.

Section Generic.

Context {F : Type} {num : Num F}.

Definition ncols (a : list (list F)) : nat :=
  match a with [] => 0 | r :: _ => length r end.

(** [a[y, x]] *)
Definition pixel (a : list (list F)) (y x : nat) : option F :=
  (a !! y) ≫= (λ r : list F, r !! x).

(** The image has [ny] rows of [nx] values each. *)
Definition rect (ny nx : nat) (a : list (list F)) : Prop :=
  length a = ny ∧ Forall (λ r : list F, length r = nx) a.

Definition rectb (ny nx : nat) (a : list (list F)) : bool :=
  (length a =? ny)%nat && forallb (λ r : list F, (length r =? nx)%nat) a.

Fixpoint zipM {A B C : Type} (f : A → B → outcome C)
    (a : list A) (b : list B) : outcome (list C) :=
  match a, b with
  | x :: a', y :: b' => c ← f x y; r ← zipM f a' b'; Ret (c :: r)
  | _, _ => Ret []
  end.

Fixpoint forM {A C : Type} (f : A → outcome C) (a : list A) : outcome (list C) :=
  match a with
  | x :: a' => c ← f x; r ← forM f a'; Ret (c :: r)
  | [] => Ret []
  end.

(** numpy's broadcasting rule along one axis: equal lengths pair up, a
    length-1 operand is repeated, anything else is a [ValueError]. *)
Definition broadcast {A B C : Type} (f : A → B → outcome C)
    (a : list A) (b : list B) : outcome (list C) :=
  if decide (length a = length b) then zipM f a b
  else match a, b with
       | [x], _ => forM (f x) b
       | _, [y] => forM (λ x, f x y) a
       | _, _ => Raise ValueError "operands could not be broadcast together"
       end.

(** Elementwise binary operation on 1-D arrays. *)
Definition bop1 (op : F → F → F) (a b : list F) : outcome (list F) :=
  broadcast (λ x y, Ret (op x y)) a b.

(** Elementwise binary operation on 2-D arrays; a 1-D operand [v] takes
    part as the one-row image [[v]], as numpy aligns trailing axes. *)
Definition bop2 (op : F → F → F) (a b : list (list F)) : outcome (list (list F)) :=
  broadcast (bop1 op) a b.

(** Elementwise unary operation on a 2-D array. *)
Definition amap (f : F → F) (a : list (list F)) : list (list F) := map (map f) a.

Definition nan_to_zero (x : F) : F := if num_is_nan x then num_zero else x.

(** [np.nansum(a, axis=0)]: NaN counts as zero and the rows are added one
    after the other onto a row of zeros. *)
Definition nansum_axis0 (a : list (list F)) : list F :=
  foldl (zip_with num_add) (replicate (ncols a) num_zero) (map (map nan_to_zero) a).


(** The values of column [x], top to bottom. *)
Definition column (a : list (list F)) (x : nat) : list F :=
  omap (λ r : list F, r !! x) a.

(** NaN-ignoring sum of a 1-D array, accumulated from 0 left to right. *)
Definition nansum (l : list F) : F :=
  foldl num_add num_zero (map nan_to_zero l).

Fixpoint where1 (i : nat) (l : list bool) : list nat :=
  match l with
  | [] => []
  | b :: l' => (if b then [i] else []) ++ where1 (S i) l'
  end.

(** [np.where(flags)] on a 2-D boolean array: the (row, column) indices of
    the true entries in row-major order. *)
Definition np_where (flags : list (list bool)) : list (nat * nat) :=
  mjoin (imap (λ y row, (λ x, (y, x)) <$> where1 0 row) flags).

Definition in_bounds (a : list (list F)) (p : nat * nat) : bool :=
  match a !! p.1 with
  | Some r => (p.2 <? length r)%nat
  | None => false
  end.

Definition put_pixel (v : F) (a : list (list F)) (p : nat * nat) : list (list F) :=
  alter (λ r : list F, <[p.2 := v]> r) p.1 a.

(** [a[ys, xs] = v] with the index arrays of [np_where]: every index must
    lie inside the array. *)
Definition set_pixels (a : list (list F)) (idx : list (nat * nat)) (v : F)
    : outcome (list (list F)) :=
  if forallb (in_bounds a) idx then Ret (foldl (put_pixel v) a idx)
  else Raise IndexError "index is out of bounds".

(** [P/np.nansum(P,axis=0)]: every column divided by its NaN-ignoring sum. *)
Definition normalize_columns (P : list (list F)) : outcome (list (list F)) :=
  bop2 num_div P [nansum_axis0 P].

(** Python's [l[lo:hi]] for non-negative bounds. *)
Definition slice {A : Type} (lo hi : nat) (l : list A) : list A :=
  drop lo (take hi l).

(** [v[x]] and [a[y, x]] as total functions (0 outside the array). *)
Definition get1 (v : list F) (x : nat) : F := default num_zero (v !! x).
Definition get2 (a : list (list F)) (y x : nat) : F := default num_zero (pixel a y x).

(** The array whose entry at [x] (at [(y, x)]) is [g x] ([g y x]). *)
Definition tabulate1 {A : Type} (n : nat) (g : nat → A) : list A := map g (seq 0 n).
Definition tabulate2 {A : Type} (ny nx : nat) (g : nat → nat → A) : list (list A) :=
  tabulate1 ny (λ y, tabulate1 nx (g y)).

(** *** Array lemmas *)

Lemma length_tabulate1 {A : Type} (n : nat) (g : nat → A) :
  length (tabulate1 n g) = n.
Proof. unfold tabulate1. by rewrite length_map, length_seq. Qed.

Lemma lookup_tabulate1 {A : Type} (n : nat) (g : nat → A) (x : nat) :
  x < n → tabulate1 n g !! x = Some (g x).
Proof.
  intros Hx. unfold tabulate1.
  rewrite list_lookup_fmap, lookup_seq_lt by done. done.
Qed.

Lemma map_tabulate1 {A B : Type} (f : A → B) (n : nat) (g : nat → A) :
  map f (tabulate1 n g) = tabulate1 n (λ x, f (g x)).
Proof. unfold tabulate1. apply map_map. Qed.

Lemma tabulate1_const {A : Type} (n : nat) (c : A) :
  tabulate1 n (λ _, c) = replicate n c.
Proof.
  unfold tabulate1. generalize 0%nat. induction n as [|n IH]; intros s; simpl; [done|].
  by rewrite IH.
Qed.

Lemma lookup_tabulate1_ge {A : Type} (n : nat) (g : nat → A) (x : nat) :
  n ≤ x → tabulate1 n g !! x = None.
Proof. intros Hx. apply lookup_ge_None_2. by rewrite length_tabulate1. Qed.

Lemma tabulate1_ext {A : Type} (n : nat) (g h : nat → A) :
  (∀ x, x < n → g x = h x) → tabulate1 n g = tabulate1 n h.
Proof.
  intros Hgh. unfold tabulate1. apply map_ext_in.
  intros x Hx. apply Hgh. apply in_seq in Hx. lia.
Qed.

Lemma tabulate2_ext {A : Type} (ny nx : nat) (g h : nat → nat → A) :
  (∀ y x, y < ny → x < nx → g y x = h y x) → tabulate2 ny nx g = tabulate2 ny nx h.
Proof.
  intros Hgh. apply tabulate1_ext. intros y Hy.
  apply tabulate1_ext. intros x Hx. by apply Hgh.
Qed.

Lemma vec_tabulate (v : (list F)) : v = tabulate1 (length v) (get1 v).
Proof.
  apply list_eq. intros x. destruct (decide (x < length v)) as [Hx|Hx].
  - rewrite lookup_tabulate1 by done. unfold get1.
    destruct (lookup_lt_is_Some_2 v x Hx) as [u Hu]. rewrite Hu. reflexivity.
  - rewrite lookup_tabulate1_ge by lia. apply lookup_ge_None_2. lia.
Qed.

Lemma rect_tabulate2 (ny nx : nat) (g : nat → nat → F) :
  rect ny nx (tabulate2 ny nx g).
Proof.
  split; [apply length_tabulate1|].
  apply Forall_forall. intros r Hr. unfold tabulate2, tabulate1 in Hr.
  apply list_elem_of_fmap in Hr as (y & -> & _). apply length_tabulate1.
Qed.

Lemma length_row_tabulate2 (ny nx : nat) (g : nat → nat → F) (r : (list F)) :
  r ∈ tabulate2 ny nx g → length r = nx.
Proof.
  intros Hr. destruct (rect_tabulate2 ny nx g) as [_ Hrows].
  eapply Forall_forall in Hrows; [exact Hrows|done].
Qed.

Lemma pixel_tabulate2 (ny nx : nat) (g : nat → nat → F) (y x : nat) :
  y < ny → x < nx → pixel (tabulate2 ny nx g) y x = Some (g y x).
Proof.
  intros Hy Hx. unfold pixel, tabulate2.
  rewrite lookup_tabulate1 by done. simpl. by apply lookup_tabulate1.
Qed.

Lemma get2_tabulate2 (ny nx : nat) (g : nat → nat → F) (y x : nat) :
  y < ny → x < nx → get2 (tabulate2 ny nx g) y x = g y x.
Proof. intros Hy Hx. unfold get2. by rewrite pixel_tabulate2. Qed.


Lemma image_tabulate (ny nx : nat) (a : list (list F)) :
  rect ny nx a → a = tabulate2 ny nx (get2 a).
Proof.
  intros [Hlen Hrows]. apply list_eq. intros y.
  destruct (decide (y < ny)) as [Hy|Hy].
  - unfold tabulate2. rewrite lookup_tabulate1 by done.
    destruct (lookup_lt_is_Some_2 a y) as [r Hr]; [lia|]. rewrite Hr. f_equal.
    assert (length r = nx) as Hr'.
    { eapply Forall_forall in Hrows; [exact Hrows|]. by eapply list_elem_of_lookup_2. }
    rewrite (vec_tabulate r) at 1. rewrite Hr'. apply tabulate1_ext.
    intros x _. unfold get1, get2, pixel. by rewrite Hr.
  - unfold tabulate2. rewrite lookup_tabulate1_ge by lia.
    apply lookup_ge_None_2. lia.
Qed.

Lemma rectb_rect (ny nx : nat) (a : list (list F)) : rectb ny nx a = true → rect ny nx a.
Proof.
  unfold rectb, rect. intros [H1 H2]%andb_prop. split.
  - by apply Nat.eqb_eq.
  - apply Forall_forall. intros r Hr.
    rewrite forallb_forall in H2. apply Nat.eqb_eq, H2. by apply list_elem_of_In.
Qed.

Lemma zipM_ret {A B C : Type} (f : A → B → outcome C) (g : A → B → C)
    (a : list A) (b : list B) :
  (∀ x y, x ∈ a → y ∈ b → f x y = Ret (g x y)) →
  zipM f a b = Ret (zip_with g a b).
Proof.
  revert b. induction a as [|x a IH]; intros [|y b] Hf; simpl; try done.
  rewrite Hf by (apply list_elem_of_here). simpl.
  rewrite IH; [done|]. intros x' y' Hx' Hy'. apply Hf; by apply list_elem_of_further.
Qed.

Lemma forM_ret {A C : Type} (f : A → outcome C) (g : A → C) (a : list A) :
  (∀ x, x ∈ a → f x = Ret (g x)) → forM f a = Ret (map g a).
Proof.
  induction a as [|x a IH]; intros Hf; simpl; [done|].
  rewrite Hf by (apply list_elem_of_here). simpl.
  rewrite IH; [done|]. intros x' Hx'. apply Hf. by apply list_elem_of_further.
Qed.

Lemma zip_with_tabulate1 {A B C : Type} (op : A → B → C) (n : nat) (g : nat → A) (h : nat → B) :
  zip_with op (tabulate1 n g) (tabulate1 n h) = tabulate1 n (λ x, op (g x) (h x)).
Proof.
  unfold tabulate1. generalize (seq 0 n). intros l.
  induction l as [|x l IH]; simpl; [done|]. by rewrite IH.
Qed.

Lemma bop1_same (op : F → F → F) (a b : (list F)) :
  length a = length b → bop1 op a b = Ret (zip_with op a b).
Proof.
  intros Hlen. unfold bop1, broadcast. rewrite decide_True by done.
  by apply zipM_ret.
Qed.

Lemma bop1_tabulate (op : F → F → F) (n : nat) (g h : nat → F) :
  bop1 op (tabulate1 n g) (tabulate1 n h) = Ret (tabulate1 n (λ x, op (g x) (h x))).
Proof.
  rewrite bop1_same by (by rewrite !length_tabulate1).
  by rewrite zip_with_tabulate1.
Qed.

Lemma bop2_tabulate (op : F → F → F) (ny nx : nat) (g h : nat → nat → F) :
  bop2 op (tabulate2 ny nx g) (tabulate2 ny nx h)
  = Ret (tabulate2 ny nx (λ y x, op (g y x) (h y x))).
Proof.
  unfold bop2, broadcast.
  rewrite decide_True by (unfold tabulate2; by rewrite !length_tabulate1).
  rewrite (zipM_ret _ (zip_with op)).
  - f_equal. unfold tabulate2. rewrite zip_with_tabulate1.
    apply tabulate1_ext. intros y _. apply zip_with_tabulate1.
  - intros r s Hr Hs. apply bop1_same.
    apply length_row_tabulate2 in Hr, Hs. congruence.
Qed.

Lemma bop2_tabulate_row_r (op : F → F → F) (ny nx : nat)
    (g : nat → nat → F) (h : nat → F) :
  bop2 op (tabulate2 ny nx g) [tabulate1 nx h]
  = Ret (tabulate2 ny nx (λ y x, op (g y x) (h x))).
Proof.
  assert (∀ r, r ∈ tabulate2 ny nx g →
    bop1 op r (tabulate1 nx h) = Ret (zip_with op r (tabulate1 nx h))) as Hrow.
  { intros r Hr. apply bop1_same. apply length_row_tabulate2 in Hr.
    by rewrite length_tabulate1. }
  assert (map (λ r, zip_with op r (tabulate1 nx h)) (tabulate2 ny nx g)
          = tabulate2 ny nx (λ y x, op (g y x) (h x))) as Hmap.
  { unfold tabulate2. rewrite map_tabulate1. apply tabulate1_ext.
    intros y _. apply zip_with_tabulate1. }
  unfold bop2, broadcast. destruct (decide _) as [Hlen|Hlen].
  - rewrite (zipM_ret _ (zip_with op)).
    + f_equal. rewrite <- Hmap.
      unfold tabulate2 in *. rewrite length_tabulate1 in Hlen. simpl in Hlen.
      subst ny. done.
    + intros r s Hr Hs. apply list_elem_of_singleton in Hs as ->. by apply Hrow.
  - destruct (tabulate2 ny nx g) as [|r [|r' a]] eqn:Ha.
    + simpl. rewrite <- Hmap. done.
    + simpl in Hlen. done.
    + rewrite (forM_ret _ (λ r, zip_with op r (tabulate1 nx h))); [by rewrite Hmap|].
      intros r0 Hr0. by apply Hrow.
Qed.

Lemma bop2_tabulate_row_l (op : F → F → F) (ny nx : nat)
    (g : nat → nat → F) (h : nat → F) :
  0 < ny →
  bop2 op [tabulate1 nx h] (tabulate2 ny nx g)
  = Ret (tabulate2 ny nx (λ y x, op (h x) (g y x))).
Proof.
  intros Hny.
  assert (∀ r, r ∈ tabulate2 ny nx g →
    bop1 op (tabulate1 nx h) r = Ret (zip_with op (tabulate1 nx h) r)) as Hrow.
  { intros r Hr. apply bop1_same. apply length_row_tabulate2 in Hr.
    by rewrite length_tabulate1. }
  assert (map (λ r, zip_with op (tabulate1 nx h) r) (tabulate2 ny nx g)
          = tabulate2 ny nx (λ y x, op (h x) (g y x))) as Hmap.
  { unfold tabulate2. rewrite map_tabulate1. apply tabulate1_ext.
    intros y _. apply zip_with_tabulate1. }
  unfold bop2, broadcast. destruct (decide _) as [Hlen|Hlen].
  - rewrite (zipM_ret _ (zip_with op)).
    + f_equal. rewrite <- Hmap.
      destruct (tabulate2 ny nx g) as [|r [|r' a]]; simpl in *; done.
    + intros r s Hr Hs. apply list_elem_of_singleton in Hr as ->. by apply Hrow.
  - rewrite (forM_ret _ (λ r, zip_with op (tabulate1 nx h) r)); [by rewrite Hmap|].
    intros r0 Hr0. by apply Hrow.
Qed.

Lemma amap_tabulate (f : F → F) (ny nx : nat) (g : nat → nat → F) :
  amap f (tabulate2 ny nx g) = tabulate2 ny nx (λ y x, f (g y x)).
Proof.
  unfold amap, tabulate2. rewrite map_tabulate1. apply tabulate1_ext.
  intros y _. apply map_tabulate1.
Qed.

Lemma ncols_tabulate2 {ny nx : nat} (g : nat → nat → F) :
  0 < ny → ncols (tabulate2 ny nx g) = nx.
Proof.
  intros Hny. destruct ny as [|ny]; [lia|].
  unfold tabulate2, tabulate1. simpl. by rewrite length_map, length_seq.
Qed.

Lemma foldl_zip_with_tabulate (nx : nat) (acc : nat → F) (h : nat → nat → F)
    (l : list nat) :
  foldl (zip_with num_add) (tabulate1 nx acc) (map (λ y, tabulate1 nx (h y)) l)
  = tabulate1 nx (λ x, foldl num_add (acc x) (map (λ y, h y x) l)).
Proof.
  revert acc. induction l as [|y l IH]; intros acc; simpl; [done|].
  rewrite zip_with_tabulate1. by rewrite IH.
Qed.

Lemma nansum_axis0_tabulate (ny nx : nat) (g : nat → nat → F) :
  0 < ny →
  nansum_axis0 (tabulate2 ny nx g)
  = tabulate1 nx (λ x, nansum (map (λ y, g y x) (seq 0 ny))).
Proof.
  intros Hny. unfold nansum_axis0. rewrite ncols_tabulate2 by done.
  fold (amap nan_to_zero (tabulate2 ny nx g)). rewrite amap_tabulate.
  rewrite <- (tabulate1_const nx num_zero).
  unfold tabulate2. unfold tabulate1 at 2.
  rewrite foldl_zip_with_tabulate. apply tabulate1_ext. intros x _.
  unfold nansum. by rewrite map_map.
Qed.

Lemma length_nansum_axis0 (ny nx : nat) (a : list (list F)) :
  0 < ny → rect ny nx a → length (nansum_axis0 a) = nx.
Proof.
  intros Hny Ha. rewrite (image_tabulate ny nx a Ha).
  rewrite nansum_axis0_tabulate by done. apply length_tabulate1.
Qed.


Lemma normalize_columns_spec (ny nx : nat) (P : list (list F)) :
  0 < ny → rect ny nx P →
  normalize_columns P
  = Ret (tabulate2 ny nx (λ y x, num_div (get2 P y x) (get1 (nansum_axis0 P) x))).
Proof.
  intros Hny HP. unfold normalize_columns.
  pose proof (length_nansum_axis0 ny nx P Hny HP) as Hlen.
  pose proof (vec_tabulate (nansum_axis0 P)) as Es. rewrite Hlen in Es.
  rewrite Es at 1. rewrite (image_tabulate ny nx P HP) at 1.
  by rewrite bop2_tabulate_row_r.
Qed.

Lemma where1_spec (i j : nat) (l : list bool) :
  j ∈ where1 i l ↔ ∃ k, j = (i + k)%nat ∧ l !! k = Some true.
Proof.
  revert i. induction l as [|b l IH]; intros i; simpl.
  - split; [by intros ?%elem_of_nil|]. by intros (k & _ & ?).
  - rewrite elem_of_app, IH. split.
    + intros [Hj|(k & -> & Hk)].
      * destruct b; [|by apply elem_of_nil in Hj].
        apply list_elem_of_singleton in Hj as ->. exists 0%nat. split; [lia|done].
      * exists (S k). split; [lia|done].
    + intros ([|k] & -> & Hk); simpl in Hk.
      * left. injection Hk as ->. rewrite Nat.add_0_r. apply list_elem_of_here.
      * right. exists k. split; [lia|done].
Qed.

Lemma np_where_tabulate (ny nx : nat) (fl : nat → nat → bool) (p : nat * nat) :
  p ∈ np_where (tabulate2 ny nx fl) ↔ p.1 < ny ∧ p.2 < nx ∧ fl p.1 p.2 = true.
Proof.
  unfold np_where. rewrite list_elem_of_join. split.
  - intros (l & Hp & Hl). apply elem_of_lookup_imap in Hl as (y & row & -> & Hrow).
    apply list_elem_of_fmap in Hp as (x & -> & Hx). simpl.
    apply where1_spec in Hx as (k & -> & Hk). simpl in *.
    assert (y < ny) as Hy.
    { apply lookup_lt_Some in Hrow. unfold tabulate2 in Hrow.
      by rewrite length_tabulate1 in Hrow. }
    unfold tabulate2 in Hrow. rewrite lookup_tabulate1 in Hrow by done.
    injection Hrow as <-.
    assert (k < nx) as Hk'.
    { apply lookup_lt_Some in Hk. by rewrite length_tabulate1 in Hk. }
    rewrite lookup_tabulate1 in Hk by done. by injection Hk as ->.
  - destruct p as [y x]. simpl. intros (Hy & Hx & Hfl).
    exists ((λ x, (y, x)) <$> where1 0 (tabulate1 nx (fl y))). split.
    + apply list_elem_of_fmap. exists x. split; [done|].
      apply where1_spec. exists x. split; [done|].
      rewrite lookup_tabulate1 by done. by rewrite Hfl.
    + apply (elem_of_lookup_imap_2 (λ y row, (λ x, (y, x)) <$> where1 0 row)).
      unfold tabulate2. by rewrite lookup_tabulate1.
Qed.

Lemma rect_ext (ny nx : nat) (a b : list (list F)) :
  rect ny nx a → rect ny nx b →
  (∀ y x, y < ny → x < nx → get2 a y x = get2 b y x) → a = b.
Proof.
  intros Ha Hb Hab. rewrite (image_tabulate ny nx a Ha), (image_tabulate ny nx b Hb).
  by apply tabulate2_ext.
Qed.

Lemma rect_put_pixel (ny nx : nat) (v : F) (a : list (list F)) (p : nat * nat) :
  rect ny nx a → rect ny nx (put_pixel v a p).
Proof.
  intros [Hlen Hrows]. unfold put_pixel. split; [by rewrite length_alter|].
  apply Forall_forall. intros r Hr.
  apply list_elem_of_lookup in Hr as [y Hr].
  rewrite list_lookup_alter in Hr. case_decide as Hy.
  - destruct (a !! p.1) as [r0|] eqn:Hr0; simpl in Hr; [|done]. injection Hr as <-.
    rewrite length_insert.
    eapply Forall_forall in Hrows; [exact Hrows|]. by eapply list_elem_of_lookup_2.
  - eapply Forall_forall in Hrows; [exact Hrows|]. by eapply list_elem_of_lookup_2.
Qed.

Lemma get2_put_pixel (ny nx : nat) (v : F) (a : list (list F)) (p : nat * nat) (y x : nat) :
  rect ny nx a → y < ny → x < nx →
  get2 (put_pixel v a p) y x = if decide ((y, x) = p) then v else get2 a y x.
Proof.
  intros [Hlen Hrows] Hy Hx. destruct p as [y' x']. unfold get2, pixel, put_pixel. simpl.
  destruct (lookup_lt_is_Some_2 a y) as [r Hr]; [lia|].
  assert (length r = nx) as Hlr.
  { eapply Forall_forall in Hrows; [exact Hrows|]. by eapply list_elem_of_lookup_2. }
  rewrite list_lookup_alter. destruct (decide (y' = y)) as [->|Hne].
  - rewrite Hr. simpl. destruct (decide (x' = x)) as [->|Hne].
    + rewrite decide_True by done. by rewrite list_lookup_insert_eq by lia.
    + rewrite decide_False by congruence. by rewrite list_lookup_insert_ne.
  - rewrite decide_False by congruence. by rewrite Hr.
Qed.

Lemma put_pixels_tabulate (ny nx : nat) (v : F) (idx : list (nat * nat)) (a : list (list F)) :
  rect ny nx a →
  foldl (put_pixel v) a idx
  = tabulate2 ny nx (λ y x, if bool_decide ((y, x) ∈ idx) then v else get2 a y x).
Proof.
  revert a. induction idx as [|p idx IH]; intros a Ha; simpl.
  - rewrite (image_tabulate ny nx a Ha) at 1. by apply tabulate2_ext.
  - rewrite IH by (by apply rect_put_pixel). apply tabulate2_ext. intros y x Hy Hx.
    rewrite (get2_put_pixel ny nx) by done.
    destruct (decide ((y, x) = p)) as [<-|Hne].
    + rewrite (bool_decide_eq_true_2 ((y, x) ∈ (y, x) :: idx)) by apply list_elem_of_here.
      by destruct (bool_decide _).
    + destruct (bool_decide ((y, x) ∈ idx)) eqn:Hin.
      * apply bool_decide_eq_true in Hin.
        rewrite bool_decide_eq_true_2; [done|]. by apply list_elem_of_further.
      * apply bool_decide_eq_false in Hin.
        rewrite bool_decide_eq_false_2; [done|].
        intros [?|?]%elem_of_cons; congruence.
Qed.

Lemma set_pixels_where (ny nx : nat) (fl : nat → nat → bool) (v : F) (a : list (list F)) :
  rect ny nx a →
  set_pixels a (np_where (tabulate2 ny nx fl)) v
  = Ret (tabulate2 ny nx (λ y x, if fl y x then v else get2 a y x)).
Proof.
  intros Ha. unfold set_pixels.
  assert (forallb (in_bounds a) (np_where (tabulate2 ny nx fl)) = true) as ->.
  { apply forallb_forall. intros [y x] Hp. apply list_elem_of_In in Hp.
    apply np_where_tabulate in Hp as (Hy & Hx & _). simpl in *.
    destruct Ha as [Hlen Hrows]. unfold in_bounds. simpl.
    destruct (lookup_lt_is_Some_2 a y) as [r Hr]; [lia|]. rewrite Hr.
    assert (length r = nx) as ->.
    { eapply Forall_forall in Hrows; [exact Hrows|]. by eapply list_elem_of_lookup_2. }
    by apply Nat.ltb_lt. }
  f_equal. rewrite (put_pixels_tabulate ny nx) by done.
  apply tabulate2_ext. intros y x Hy Hx.
  destruct (fl y x) eqn:Hfl.
  - rewrite bool_decide_eq_true_2; [done|]. by apply np_where_tabulate.
  - rewrite bool_decide_eq_false_2; [done|].
    intros (_ & _ & ?)%np_where_tabulate. simpl in *. congruence.
Qed.


(** Array operations return or raise: none of them loops. *)
Lemma zipM_halts {A B C : Type} (f : A → B → outcome C) (a : list A) (b : list B) :
  (∀ x y, f x y ≠ OutOfFuel) → zipM f a b ≠ OutOfFuel.
Proof.
  intros Hf. revert b. induction a as [|x a IH]; intros [|y b]; simpl; try done.
  destruct (f x y) as [c|e msg|] eqn:E; simpl; [|done|by apply Hf in E].
  destruct (zipM f a b) as [r|e msg|] eqn:E2; simpl; [done|done|by apply IH in E2].
Qed.

Lemma forM_halts {A C : Type} (f : A → outcome C) (a : list A) :
  (∀ x, f x ≠ OutOfFuel) → forM f a ≠ OutOfFuel.
Proof.
  intros Hf. induction a as [|x a IH]; simpl; [done|].
  destruct (f x) as [c|e msg|] eqn:E; simpl; [|done|by apply Hf in E].
  by destruct (forM f a) as [r|e msg|].
Qed.

Lemma broadcast_halts {A B C : Type} (f : A → B → outcome C) (a : list A) (b : list B) :
  (∀ x y, f x y ≠ OutOfFuel) → broadcast f a b ≠ OutOfFuel.
Proof.
  intros Hf. unfold broadcast. destruct (decide _); [by apply zipM_halts|].
  destruct a as [|x [|x' a]], b as [|y [|y' b]]; try done;
    first [apply forM_halts; intros ?; apply Hf | idtac].
Qed.

Lemma bop1_halts (op : F → F → F) (a b : list F) : bop1 op a b ≠ OutOfFuel.
Proof. by apply broadcast_halts. Qed.

Lemma bop2_halts (op : F → F → F) (a b : list (list F)) : bop2 op a b ≠ OutOfFuel.
Proof. apply broadcast_halts. intros x y. apply bop1_halts. Qed.

(** Shapes that numpy cannot broadcast: lengths that differ and are both
    above 1. *)
Lemma broadcast_mismatch {A B C : Type} (f : A → B → outcome C)
    (a : list A) (b : list B) :
  length a ≠ length b → 1 < length a → 1 < length b →
  broadcast f a b = Raise ValueError "operands could not be broadcast together".
Proof.
  intros Hne Ha Hb. unfold broadcast. rewrite decide_False by done.
  destruct a as [|x [|x' a]], b as [|y [|y' b]]; simpl in *; try lia; done.
Qed.

Lemma bop2_shape_mismatch (op : F → F → F) (h w ny nx : nat) (a b : list (list F)) :
  rect h w a → rect ny nx b →
  (1 < h ∧ h < ny) ∨ (0 < h ∧ h = ny ∧ 1 < w ∧ w < nx) →
  bop2 op a b = Raise ValueError "operands could not be broadcast together".
Proof.
  intros [Hla Hra] [Hlb Hrb] [[H1 H2]|(H0 & -> & H1 & H2)].
  - apply broadcast_mismatch; lia.
  - unfold bop2, broadcast. rewrite decide_True by congruence.
    destruct a as [|r a]; [simpl in *; lia|]. destruct b as [|r' b]; [simpl in *; lia|].
    apply Forall_cons in Hra as [Hr _]. apply Forall_cons in Hrb as [Hr' _].
    cbn [zipM].
    assert (bop1 op r r' = Raise ValueError "operands could not be broadcast together")
      as -> by (apply broadcast_mismatch; lia).
    done.
Qed.



End Generic.

Fixpoint insert_sorted (x : float) (l : vec) : vec :=
  match l with
  | [] => [x]
  | y :: l' => if x <? y then x :: l else y :: insert_sorted x l'
  end.

(** Median of a 1-D array without its NaN: the middle value, or the mean
    of the two middle values; NaN when nothing is left. *)
Definition nanmedian1 (l : vec) : float :=
  let s := foldr insert_sorted [] (filter (λ x, is_nan x = false) l) in
  let n := length s in
  if (n =? 0)%nat then nan
  else if Nat.even n
       then (default nan (s !! (n / 2 - 1)%nat) + default nan (s !! (n / 2)%nat)) / 2
       else default nan (s !! (n / 2)%nat).


(** The median along axis 0 of a stack of fewer than 600 images, which
    numpy takes as a masked median: the NaN are masked, the series of a
    pixel is sorted, and the two middle values (the upper one twice when
    their number is odd) are added and halved, so that a middle value
    above half the largest float gives an infinity; NaN when the whole
    series is NaN. *)
Definition nanmedian_small (l : vec) : float :=
  let s := foldr insert_sorted [] (filter (λ x, is_nan x = false) l) in
  let n := length s in
  if (n =? 0)%nat then nan
  else
    let high := default nan (s !! (n / 2)%nat) in
    let low := if Nat.even n then default nan (s !! (n / 2 - 1)%nat) else high in
    (low + high) / 2.

(** [np.nanmedian(d, axis=0)] on a 3-D array: the masked median for
    fewer than 600 images, the 1-D median of each pixel's series from
    600 images on. *)
Definition nanmedian_axis0 (d : cube) : image :=
  match d with
  | [] => []
  | img0 :: _ =>
      let median1 := if (length d <? 600)%nat then nanmedian_small else nanmedian1 in
      imap (λ y (row : vec),
        imap (λ x (_ : float),
          median1 (map (λ img, default nan (pixel img y x)) d)) row) img0
  end.

(** *** A column that holds one pixel *)




End NumPy.

(** ** niriss_extraction.py *)

Module Extraction.
Import NumPy.

(** What [optimal_extraction] hands back: the two (T, X) arrays, or the
    message of one of its [return('...')] statements. *)
Inductive extraction_result : Type :=
| Spectra (extracted_spectra extracted_error : image)
| Message (msg : string).

(** Step 5 of a pass: a profile, or the message the function returns with. *)
Inductive profile_result : Type :=
| Profile (P : image)
| NoProfile (msg : string).

(** One pass of the [while isnewprofile] loop. *)
Inductive pass_result : Type :=
| NewProfile (M : image)
| Extracted (f var_f : vec)
| Bail (msg : string).

(** One integration: its row of each output array, or the message. *)
Inductive integration_result : Type :=
| Done (f var_f : vec)
| Stop (msg : string).

Definition lower_ascii (c : Ascii.ascii) : Ascii.ascii :=
  let n := Ascii.nat_of_ascii c in
  if (65 <=? n)%nat && (n <=? 90)%nat then Ascii.ascii_of_nat (n + 32) else c.

(** [str.lower] on ASCII text. *)
Fixpoint lower (s : string) : string :=
  match s with
  | EmptyString => EmptyString
  | String c s' => String (lower_ascii c) (lower s')
  end.

Definition getitem {A : Type} (l : list A) (i : nat) : outcome A :=
  match l !! i with
  | Some a => Ret a
  | None => Raise IndexError "index is out of bounds for axis 0"
  end.

Definition square (x : float) : float := x * x.

Definition bool_to_float (b : bool) : float := if b then 1 else 0.

(** [dst[i] = src] for a row of a 2-D array: [src] must have the row's
    length, or length 1. *)
Definition setrow (dst : image) (i : nat) (src : vec) : outcome image :=
  match dst !! i with
  | None => Raise IndexError "index is out of bounds for axis 0"
  | Some row =>
      if decide (length src = length row) then Ret (<[i := src]> dst)
      else match src with
           | [v] => Ret (<[i := replicate (length row) v]> dst)
           | _ => Raise ValueError "could not broadcast input array"
           end
  end.


(** The name [Q] that step 6 divides by.  The module imports [numpy] as
    [np], [tqdm], [scipy.optimize] as [so], [savgol_filter], [interp1d],
    [pyximport] and [niriss_cython], and defines [__all__] and four
    functions; no statement of it binds [Q], [optimal_extraction] has no
    such parameter or local, and it is no builtin.  Reading the name
    raises. *)
Definition global_Q : outcome float := Raise NameError "name 'Q' is not defined".

Section OptimalExtraction.

(** The two fitted builders rest on [scipy.optimize.least_squares] and on
    the compiled [niriss_cython] module; each returns one profile image
    per spectral order, or raises. *)
Variable profile_niriss_gaussian : image → vec → vec → result (image * image).
Variable profile_niriss_moffat : image → vec → vec → result (image * image).

Variable spectrum spectrum_var : image.
Variable sky_bkg : cube.
Variable pos1 pos2 : option vec.
Variable sigma : float.
Variable cr_mask : option (list (list (list bool))).
Variable proftype : string.

(** Step 5.  [profile_niriss_median(data, medprof, sigma=50)] is called
    as [profile_niriss_median(median, sigma=5)], one positional argument
    short. *)
Definition construct_profile (i : nat) (median M : image) : outcome profile_result :=
  let pt := lower proftype in
  if String.eqb pt "median" then
    Raise TypeError
      "profile_niriss_median() missing 1 required positional argument: 'medprof'"
  else if String.eqb pt "gaussian" then
    match pos1, pos2 with
    | Some p1, Some p2 =>
        sky_i ← getitem sky_bkg i;
        a ← bop2 PrimFloat.sub median sky_i;
        b ← bop2 PrimFloat.mul a M;
        r ← lift (profile_niriss_gaussian b p1 p2);
        Ret (Profile r.1)
    | _, _ => Ret (NoProfile "Please pass in `pos1` and `pos2` arguments.")
    end
  else if String.eqb pt "moffat" then
    match pos1, pos2 with
    | Some p1, Some p2 =>
        sky_i ← getitem sky_bkg i;
        a ← bop2 PrimFloat.sub median sky_i;
        b ← bop2 PrimFloat.mul a M;
        r ← lift (profile_niriss_moffat b p1 p2);
        Ret (Profile r.1)
    | _, _ => Ret (NoProfile "Please pass in `pos1` and `pos2` arguments.")
    end
  else Ret (NoProfile "Mask profile type not implemeted.").

(** [P = P/np.nansum(P,axis=0)] *)
Definition normalize_profile (P : image) : outcome image :=
  normalize_columns P.

(** Step 6: [V = spectrum_var[i] + np.abs(sky_bkg[i]+(P*spectrum[i]))/Q].
    Python evaluates the operands from left to right, so the three
    subscripts, the product and the sum come first and can raise on
    their own; then [Q] is read, and that raises. *)
Definition revise_variance (i : nat) (P : image) : outcome image :=
  var_i ← getitem spectrum_var i;
  sky_i ← getitem sky_bkg i;
  spec_i ← getitem spectrum i;
  ps ← bop2 PrimFloat.mul P [spec_i];
  s ← bop2 PrimFloat.add sky_i ps;
  let a := amap abs s in
  Q ← global_Q;
  bop2 PrimFloat.add [var_i] (amap (λ v, v / Q) a).


(** Step 7: [stdevs = np.sqrt((np.abs(D - sky_bkg[i] - spectrum[i])*P)**2.0/V)] *)
Definition standardized_residuals (i : nat) (D P V : image) : outcome image :=
  sky_i ← getitem sky_bkg i;
  d1 ← bop2 PrimFloat.sub D sky_i;
  spec_i ← getitem spectrum i;
  d2 ← bop2 PrimFloat.sub d1 [spec_i];
  d3 ← bop2 PrimFloat.mul (amap abs d2) P;
  d4 ← bop2 PrimFloat.div (amap square d3) V;
  Ret (amap sqrt d4).

(** [np.where((stdevs*M)>sigma)] *)
Definition flagged (stdevs M : image) : outcome (list (nat * nat)) :=
  sM ← bop2 PrimFloat.mul stdevs M;
  Ret (np_where (map (map (λ v, sigma <? v)) sM)).

(** [D*~cr_mask[i]] when a static mask was passed. *)
Definition apply_cr_mask (i : nat) (D : image) : outcome image :=
  match cr_mask with
  | None => Ret D
  | Some cm =>
      cm_i ← getitem cm i;
      bop2 PrimFloat.mul D (map (map (λ b : bool, bool_to_float (negb b))) cm_i)
  end.

(** Step 8: the weighted sums of the [else] branch. *)
Definition weighted_sums (i : nat) (D M P V : image) : outcome (vec * vec) :=
  mp2 ← bop2 PrimFloat.mul M (amap square P);
  w ← bop2 PrimFloat.div mp2 V;
  let denom := nansum_axis0 w in
  mp ← bop2 PrimFloat.mul M P;
  sky_i ← getitem sky_bkg i;
  ds ← bop2 PrimFloat.sub D sky_i;
  n1 ← bop2 PrimFloat.mul mp ds;
  n2 ← bop2 PrimFloat.div n1 V;
  f ← bop1 PrimFloat.div (nansum_axis0 n2) denom;
  mp' ← bop2 PrimFloat.mul M P;
  var_f ← bop1 PrimFloat.div (nansum_axis0 mp') denom;
  Ret (f, var_f).

(** The body of [while isnewprofile==True].  The plots drawn for
    [isplots >= 8] only display arrays and are left out. *)
Definition extraction_pass (i : nat) (D median M : image) : outcome pass_result :=
  pr ← construct_profile i median M;
  match pr with
  | NoProfile msg => Ret (Bail msg)
  | Profile P0 =>
      P ← normalize_profile P0;
      V ← revise_variance i P;
      stdevs ← standardized_residuals i D P V;
      idx ← flagged stdevs M;
      match idx with
      | _ :: _ => M' ← set_pixels M idx 0; Ret (NewProfile M')
      | [] =>
          D' ← apply_cr_mask i D;
          r ← weighted_sums i D' M P V;
          Ret (Extracted r.1 r.2)
      end
  end.

Fixpoint cr_loop (fuel : nat) (i : nat) (D median M : image)
    : outcome integration_result :=
  match fuel with
  | O => OutOfFuel
  | S fuel' =>
      r ← extraction_pass i D median M;
      match r with
      | NewProfile M' => cr_loop fuel' i D median M'
      | Extracted f var_f => Ret (Done f var_f)
      | Bail msg => Ret (Stop msg)
      end
  end.

Definition ones_like (a : image) : image := amap (λ _, 1) a.

Definition clip_negative (a : image) : image :=
  amap (λ v, if v <? 0 then 0 else v) a.

(** The body of [for i in range(len(data))] up to the end of the loop. *)
Definition extract_integration (fuel : nat) (data : cube) (i : nat)
    : outcome integration_result :=
  D ← getitem data i;
  let median := clip_negative (nanmedian_axis0 data) in
  cr_loop fuel i D median (ones_like D).

Fixpoint run_integrations (fuel : nat) (data : cube) (todo : list nat)
    (extracted_spectra extracted_error : image) : outcome extraction_result :=
  match todo with
  | [] => Ret (Spectra extracted_spectra extracted_error)
  | i :: todo' =>
      r ← extract_integration fuel data i;
      match r with
      | Stop msg => Ret (Message msg)
      | Done f var_f =>
          s' ← setrow extracted_spectra i (map (λ v, v + 0) f);
          e' ← setrow extracted_error i (map (λ v, v + 0) var_f);
          run_integrations fuel data todo' s' e'
      end
  end.

(** The quadrant: [(x1, x2, y1, y2)] of the slice. *)
Definition region (quad : Z) (ny nx : nat) : nat * nat * nat * nat :=
  if (quad =? 1)%Z then (1000, nx, 0, 100)%nat
  else if (quad =? 2)%Z then (1000, 1900, 70, ny)%nat
  else if (quad =? 3)%Z then (0, 1000, 0, ny)%nat
  else (0, nx, 0, ny)%nat.

(** [np.ones(data[0].shape)], with [block_extra[80:y2,x1:x1+250]=0] for
    the first quadrant. *)
Definition block_extra (quad : Z) (img0 : image) : image :=
  imap (λ y (row : vec),
    imap (λ x (_ : float),
      if (quad =? 1)%Z && (80 <=? y)%nat && (y <? 100)%nat
         && (1000 <=? x)%nat && (x <? 1250)%nat
      then 0 else 1) row) img0.

(** [np.copy(data*block_extra)[:,y1:y2, x1:x2]] *)
Definition select_region (quad : Z) (img0 : image) (data : cube) : cube :=
  let blk := block_extra quad img0 in
  let '(x1, x2, y1, y2) := region quad (length img0) (ncols img0) in
  map (λ img : image,
         map (slice x1 x2) (slice y1 y2 (zip_with (zip_with PrimFloat.mul) img blk)))
      data.

Definition optimal_extraction (fuel : nat) (data : cube) (quad : Z)
    : outcome extraction_result :=
  match data with
  | [] => Raise IndexError "index 0 is out of bounds for axis 0 with size 0"
  | img0 :: _ =>
      let nt := length data in
      let zeros := replicate nt (replicate (ncols img0) 0) in
      run_integrations fuel (select_region quad img0 data) (seq 0 nt) zeros zeros
  end.

(** *** Per-pixel reading of one pass

    What steps 5, 7 and 8 compute from the arrays they are given, written
    pixel by pixel; [y] runs along the spatial axis and [x] along the
    dispersion axis. *)

Definition getb (c : list (list bool)) (y x : nat) : bool :=
  default false ((c !! y) ≫= (λ r : list bool, r !! x)).

Definition rect_mask (ny nx : nat) (c : list (list bool)) : Prop :=
  length c = ny ∧ Forall (λ r : list bool, length r = nx) c.

Definition profile_at (P0 : image) (y x : nat) : float :=
  get2 P0 y x / get1 (nansum_axis0 P0) x.

Definition residual_at (spec_i : vec) (D sky_i P V : image) (y x : nat) : float :=
  sqrt (square (abs (get2 D y x - get2 sky_i y x - get1 spec_i x) * get2 P y x)
        / get2 V y x).

Definition is_flagged (stdevs M : image) (y x : nat) : bool :=
  sigma <? get2 stdevs y x * get2 M y x.

Definition masked_data_at (cm_i : option (list (list bool))) (D : image) (y x : nat)
    : float :=
  match cm_i with
  | None => get2 D y x
  | Some c => get2 D y x * bool_to_float (negb (getb c y x))
  end.

Definition denom_at (ny : nat) (M P V : image) (x : nat) : float :=
  nansum (map (λ y, get2 M y x * square (get2 P y x) / get2 V y x) (seq 0 ny)).

Definition flux_at (ny : nat) (D sky_i M P V : image) (x : nat) : float :=
  nansum (map (λ y, get2 M y x * get2 P y x * (get2 D y x - get2 sky_i y x)
                    / get2 V y x) (seq 0 ny))
  / denom_at ny M P V x.

Definition var_flux_at (ny : nat) (M P V : image) (x : nat) : float :=
  nansum (map (λ y, get2 M y x * get2 P y x) (seq 0 ny)) / denom_at ny M P V x.

(** *** The array code agrees with the per-pixel reading *)

Ltac tabulate_image a H :=
  match type of H with
  | rect ?ny ?nx a =>
      let E := fresh "E" in
      let g := fresh "g" in
      pose proof (image_tabulate ny nx a H) as E;
      set (g := get2 a) in *; clearbody g; subst a
  end.

Ltac tabulate_vec v H :=
  match type of H with
  | length v = ?nx =>
      let E := fresh "E" in
      let g := fresh "g" in
      pose proof (vec_tabulate v) as E; rewrite H in E;
      set (g := get1 v) in *; clearbody g; subst v
  end.

Lemma getitem_Some {A : Type} (l : list A) (i : nat) (a : A) :
  l !! i = Some a → getitem l i = Ret a.
Proof. intros H. unfold getitem. by rewrite H. Qed.

Lemma normalize_profile_spec (ny nx : nat) (P0 : image) :
  0 < ny → rect ny nx P0 →
  normalize_profile P0 = Ret (tabulate2 ny nx (profile_at P0)).
Proof. intros Hny HP. exact (normalize_columns_spec ny nx P0 Hny HP). Qed.




Lemma standardized_residuals_spec (ny nx i : nat) (spec_i : vec) (sky_i D P V : image) :
  spectrum !! i = Some spec_i → length spec_i = nx →
  sky_bkg !! i = Some sky_i → rect ny nx sky_i →
  rect ny nx D → rect ny nx P → rect ny nx V →
  standardized_residuals i D P V
  = Ret (tabulate2 ny nx (residual_at spec_i D sky_i P V)).
Proof.
  intros Hspec Hls Hsky Hrs HD HP HV. unfold standardized_residuals, residual_at.
  rewrite (getitem_Some _ _ _ Hsky), (getitem_Some _ _ _ Hspec).
  simpl. clear Hsky Hspec.
  tabulate_vec spec_i Hls. tabulate_image sky_i Hrs. tabulate_image D HD.
  tabulate_image P HP. tabulate_image V HV.
  rewrite bop2_tabulate. simpl. rewrite bop2_tabulate_row_r. simpl.
  rewrite amap_tabulate, bop2_tabulate. simpl.
  rewrite amap_tabulate, bop2_tabulate. simpl.
  by rewrite amap_tabulate.
Qed.

Lemma flagged_spec (ny nx : nat) (stdevs M : image) :
  rect ny nx stdevs → rect ny nx M →
  flagged stdevs M = Ret (np_where (tabulate2 ny nx (is_flagged stdevs M))).
Proof.
  intros Hs HM. unfold flagged, is_flagged.
  tabulate_image stdevs Hs. tabulate_image M HM.
  rewrite bop2_tabulate. simpl. do 2 f_equal.
  unfold tabulate2. rewrite map_tabulate1. apply tabulate1_ext.
  intros y _. apply map_tabulate1.
Qed.

Definition static_mask (i : nat) : option (list (list bool)) :=
  cr_mask ≫= (λ cm, cm !! i).

(** The static mask, when one is passed, has an entry of the image's shape
    for integration [i]. *)
Definition static_mask_fits (i ny nx : nat) : Prop :=
  match cr_mask with
  | None => True
  | Some cm => ∃ c, cm !! i = Some c ∧ rect_mask ny nx c
  end.

Lemma mask_tabulate (ny nx : nat) (c : list (list bool)) :
  rect_mask ny nx c → c = tabulate2 ny nx (getb c).
Proof.
  intros [Hlen Hrows]. apply list_eq. intros y.
  destruct (decide (y < ny)) as [Hy|Hy].
  - unfold tabulate2. rewrite lookup_tabulate1 by done.
    destruct (lookup_lt_is_Some_2 c y) as [r Hr]; [lia|]. rewrite Hr. f_equal.
    assert (length r = nx) as Hr'.
    { eapply Forall_forall in Hrows; [exact Hrows|]. by eapply list_elem_of_lookup_2. }
    apply list_eq. intros x. destruct (decide (x < nx)) as [Hx|Hx].
    + rewrite lookup_tabulate1 by done. unfold getb. rewrite Hr. simpl.
      destruct (lookup_lt_is_Some_2 r x) as [b Hb]; [lia|]. rewrite Hb. reflexivity.
    + rewrite lookup_tabulate1_ge by lia. apply lookup_ge_None_2. lia.
  - unfold tabulate2. rewrite lookup_tabulate1_ge by lia.
    apply lookup_ge_None_2. lia.
Qed.

Lemma apply_cr_mask_spec (ny nx i : nat) (D : image) :
  static_mask_fits i ny nx → rect ny nx D →
  apply_cr_mask i D = Ret (tabulate2 ny nx (masked_data_at (static_mask i) D)).
Proof.
  unfold static_mask_fits, static_mask, apply_cr_mask, masked_data_at.
  intros Hfit HD. destruct cr_mask as [cm|]; simpl.
  - destruct Hfit as (c & Hc & Hrc). rewrite Hc. rewrite (getitem_Some _ _ _ Hc). simpl.
    pose proof (mask_tabulate ny nx c Hrc) as Ec.
    set (gc := getb c) in *. clearbody gc. subst c.
    tabulate_image D HD.
    unfold tabulate2 at 2. rewrite map_tabulate1.
    assert (tabulate1 ny (λ y, map (λ b : bool, bool_to_float (negb b)) (tabulate1 nx (gc y)))
            = tabulate2 ny nx (λ y x, bool_to_float (negb (gc y x)))) as ->.
    { apply tabulate1_ext. intros y _.
      apply (map_tabulate1 (λ b : bool, bool_to_float (negb b))). }
    by rewrite bop2_tabulate.
  - f_equal. by apply image_tabulate.
Qed.

Lemma weighted_sums_spec (ny nx i : nat) (sky_i D M P V : image) :
  0 < ny →
  sky_bkg !! i = Some sky_i → rect ny nx sky_i →
  rect ny nx D → rect ny nx M → rect ny nx P → rect ny nx V →
  weighted_sums i D M P V
  = Ret (tabulate1 nx (flux_at ny D sky_i M P V), tabulate1 nx (var_flux_at ny M P V)).
Proof.
  intros Hny Hsky Hrs HD HM HP HV.
  unfold weighted_sums, flux_at, var_flux_at, denom_at.
  rewrite (getitem_Some _ _ _ Hsky). clear Hsky.
  tabulate_image sky_i Hrs. tabulate_image D HD. tabulate_image M HM.
  tabulate_image P HP. tabulate_image V HV.
  rewrite amap_tabulate, bop2_tabulate. simpl. rewrite bop2_tabulate. simpl.
  rewrite bop2_tabulate. simpl. rewrite bop2_tabulate. simpl.
  rewrite bop2_tabulate. simpl. rewrite bop2_tabulate. simpl.
  rewrite !nansum_axis0_tabulate by done.
  rewrite !bop1_tabulate. simpl. done.
Qed.

Lemma rect_ones_like (ny nx : nat) (a : image) : rect ny nx a → rect ny nx (ones_like a).
Proof.
  intros Ha. rewrite (image_tabulate ny nx a Ha). unfold ones_like.
  rewrite amap_tabulate. apply rect_tabulate2.
Qed.

Lemma get2_ones_like (ny nx : nat) (a : image) (y x : nat) :
  rect ny nx a → y < ny → x < nx → get2 (ones_like a) y x = 1.
Proof.
  intros Ha Hy Hx. rewrite (image_tabulate ny nx a Ha). unfold ones_like.
  rewrite amap_tabulate. by rewrite get2_tabulate2.
Qed.

Lemma rect_amap (f : float → float) (ny nx : nat) (a : image) :
  rect ny nx a → rect ny nx (amap f a).
Proof.
  intros Ha. rewrite (image_tabulate ny nx a Ha), amap_tabulate. apply rect_tabulate2.
Qed.

Lemma ncols_rect (ny nx : nat) (a : image) : 0 < ny → rect ny nx a → ncols a = nx.
Proof. intros Hny Ha. rewrite (image_tabulate ny nx a Ha). by apply ncols_tabulate2. Qed.

Lemma rect_nanmedian_axis0 (ny nx : nat) (img0 : image) (rest : cube) :
  rect ny nx img0 → rect ny nx (nanmedian_axis0 (img0 :: rest)).
Proof.
  intros [Hlen Hrows]. unfold nanmedian_axis0. split; [by rewrite length_imap|].
  apply Forall_lookup_2. intros y r Hr. rewrite list_lookup_imap in Hr.
  destruct (img0 !! y) as [row|] eqn:Hrow; [|done]. injection Hr as <-.
  rewrite length_imap. by apply (Forall_lookup_1 _ _ _ _ Hrows Hrow).
Qed.

(** *** The rows of the output arrays *)

Lemma setrow_spec (dst : image) (i : nat) (src : vec) (nx : nat) :
  i < length dst → Forall (λ r : vec, length r = nx) dst → length src = nx →
  setrow dst i src = Ret (<[i := src]> dst).
Proof.
  intros Hi Hrows Hsrc. unfold setrow.
  destruct (lookup_lt_is_Some_2 dst i Hi) as [row Hrow]. rewrite Hrow.
  assert (length row = nx) as ->.
  { eapply Forall_forall in Hrows; [exact Hrows|]. by eapply list_elem_of_lookup_2. }
  by rewrite decide_True.
Qed.

(** *** Configuration errors *)







(** *** The median strategy *)

(** X2.  The documented [median] strategy, in any letter case, never yields a
    profile: on a non-empty series the first pass of the first
    integration raises the [TypeError] of the call that is one argument
    short, whatever the quadrant and the other inputs. *)
Theorem median_strategy_raises (fuel : nat) (img0 : image) (rest : cube) (quad : Z) :
  lower proftype = "median" →
  optimal_extraction (S fuel) (img0 :: rest) quad
  = Raise TypeError
      "profile_niriss_median() missing 1 required positional argument: 'medprof'".
Proof.
  intros Hpt. unfold optimal_extraction, select_region.
  destruct (region quad (length img0) (ncols img0)) as [[[x1 x2] y1] y2].
  simpl. unfold extract_integration. simpl.
  unfold extraction_pass, construct_profile. by rewrite Hpt.
Qed.

(** *** A region that is narrower than the frame *)

(** The shape [(ny', nx')] of the frames after the slice. *)
Definition region_shape (quad : Z) (ny nx : nat) : nat * nat :=
  let '(x1, x2, y1, y2) := region quad ny nx in
  ((y2 `min` ny - y1)%nat, (x2 `min` nx - x1)%nat).

Definition returns_arrays (r : outcome extraction_result) : bool :=
  match r with
  | Ret (Spectra _ _) => true
  | _ => false
  end.

Lemma length_slice {A : Type} (lo hi : nat) (l : list A) :
  length (slice lo hi l) = (hi `min` length l - lo)%nat.
Proof. unfold slice. by rewrite length_drop, length_take. Qed.

Lemma rect_slice (ny nx x1 x2 y1 y2 : nat) (a : image) :
  rect ny nx a →
  rect (y2 `min` ny - y1) (x2 `min` nx - x1) (map (slice x1 x2) (slice y1 y2 a)).
Proof.
  intros [Hlen Hrows]. split.
  - by rewrite length_map, length_slice, Hlen.
  - apply Forall_fmap. change (slice y1 y2 a) with (drop y1 (take y2 a)).
    apply Forall_drop, Forall_take.
    eapply Forall_impl; [exact Hrows|]. intros r Hr. unfold compose. simpl in Hr.
    by rewrite length_slice, Hr.
Qed.

Lemma rect_block_extra (quad : Z) (ny nx : nat) (img0 : image) :
  rect ny nx img0 → rect ny nx (block_extra quad img0).
Proof.
  intros [Hlen Hrows]. unfold block_extra. split; [by rewrite length_imap|].
  apply Forall_lookup_2. intros y r Hr. rewrite list_lookup_imap in Hr.
  destruct (img0 !! y) as [row|] eqn:Hrow; [|done]. injection Hr as <-.
  rewrite length_imap. by apply (Forall_lookup_1 _ _ _ _ Hrows Hrow).
Qed.

Lemma rect_zip_with_mul (ny nx : nat) (a b : image) :
  rect ny nx a → rect ny nx b → rect ny nx (zip_with (zip_with PrimFloat.mul) a b).
Proof.
  intros Ha Hb.
  rewrite (image_tabulate ny nx a Ha), (image_tabulate ny nx b Hb). unfold tabulate2.
  rewrite zip_with_tabulate1.
  rewrite (tabulate1_ext ny _
             (λ y, tabulate1 nx (λ x, get2 a y x * get2 b y x)))
    by (intros y _; apply zip_with_tabulate1).
  apply (rect_tabulate2 ny nx (λ y x, get2 a y x * get2 b y x)).
Qed.

Lemma select_region_rect (quad : Z) (ny nx h w : nat) (img0 : image) (data : cube) :
  0 < ny → rect ny nx img0 → Forall (rect ny nx) data →
  region_shape quad ny nx = (h, w) →
  Forall (rect h w) (select_region quad img0 data).
Proof.
  intros Hny Himg0 Hdata Hshape. unfold select_region.
  rewrite (ncols_rect ny nx) by done.
  unfold region_shape in Hshape. destruct Himg0 as [Hlen Hrows]. rewrite Hlen.
  destruct (region quad ny nx) as [[[x1 x2] y1] y2]. injection Hshape as <- <-.
  apply Forall_fmap. eapply Forall_impl; [exact Hdata|]. intros img Himg. simpl.
  apply rect_slice, rect_zip_with_mul; [done|]. by apply rect_block_extra.
Qed.

(** *** The mask update of step 7

    [y1,x1 = np.where((stdevs*M)>sigma)] and [M[y1,x1] = 0.0]: the
    flagged pixels are cleared and no other pixel changes. *)
Lemma mask_update_spec (ny nx : nat) (stdevs M : image) :
  rect ny nx stdevs → rect ny nx M →
  (idx ← flagged stdevs M; set_pixels M idx 0)
  = Ret (tabulate2 ny nx (λ y x, if is_flagged stdevs M y x then 0 else get2 M y x)).
Proof.
  intros Hs HM. rewrite (flagged_spec ny nx) by done. simpl.
  by rewrite (set_pixels_where ny nx).
Qed.

(** *** Step 6 reads a name that is not bound *)

(** The per-integration inputs that step 6 reads have the shape of the
    frames: [spectrum_var[i]] exists, [spectrum[i]] has [nx] entries and
    [sky_bkg[i]] is an [ny] x [nx] image. *)
Definition operands_fit (ny nx i : nat) : Prop :=
  is_Some (spectrum_var !! i)
  ∧ (∃ spec_i, spectrum !! i = Some spec_i ∧ length spec_i = nx)
  ∧ (∃ sky_i, sky_bkg !! i = Some sky_i ∧ rect ny nx sky_i).

Lemma getitem_halts {A : Type} (l : list A) (i : nat) : getitem l i ≠ OutOfFuel.
Proof. unfold getitem. by destruct (l !! i). Qed.

(** With operands that fit, step 6 gets as far as reading [Q]. *)
Lemma revise_variance_name_error (ny nx i : nat) (P : image) :
  operands_fit ny nx i → rect ny nx P →
  revise_variance i P = Raise NameError "name 'Q' is not defined".
Proof.
  intros ([var_i Hv] & (spec_i & Hs & Hls) & (sky_i & Hk & Hrk)) HP.
  unfold revise_variance.
  rewrite (getitem_Some _ _ _ Hv), (getitem_Some _ _ _ Hk), (getitem_Some _ _ _ Hs).
  simpl. clear Hv Hk Hs.
  tabulate_vec spec_i Hls. tabulate_image sky_i Hrk. tabulate_image P HP.
  rewrite bop2_tabulate_row_r. simpl. rewrite bop2_tabulate. simpl. done.
Qed.

(** Whatever the operands, step 6 raises: no [V] comes out of it. *)
Lemma revise_variance_stops (i : nat) (P : image) :
  ∃ e msg, revise_variance i P = Raise e msg.
Proof.
  unfold revise_variance.
  destruct (getitem spectrum_var i) as [var_i|e msg|] eqn:H1; simpl;
    [|by eauto|by apply getitem_halts in H1].
  destruct (getitem sky_bkg i) as [sky_i|e msg|] eqn:H2; simpl;
    [|by eauto|by apply getitem_halts in H2].
  destruct (getitem spectrum i) as [spec_i|e msg|] eqn:H3; simpl;
    [|by eauto|by apply getitem_halts in H3].
  destruct (bop2 PrimFloat.mul P [spec_i]) as [ps|e msg|] eqn:H4; simpl;
    [|by eauto|by apply bop2_halts in H4].
  destruct (bop2 PrimFloat.add sky_i ps) as [s|e msg|] eqn:H5; simpl;
    [|by eauto|by apply bop2_halts in H5].
  by eauto.
Qed.

Lemma construct_profile_halts (i : nat) (median M : image) :
  construct_profile i median M ≠ OutOfFuel.
Proof.
  unfold construct_profile.
  destruct (String.eqb (lower proftype) "median"); [done|].
  destruct (String.eqb (lower proftype) "gaussian").
  { destruct pos1 as [p1|], pos2 as [p2|]; try done.
    destruct (getitem sky_bkg i) as [sky_i|e msg|] eqn:H1; simpl;
      [|done|by apply getitem_halts in H1].
    destruct (bop2 PrimFloat.sub median sky_i) as [a|e msg|] eqn:H2; simpl;
      [|done|by apply bop2_halts in H2].
    destruct (bop2 PrimFloat.mul a M) as [b|e msg|] eqn:H3; simpl;
      [|done|by apply bop2_halts in H3].
    by destruct (profile_niriss_gaussian b p1 p2). }
  destruct (String.eqb (lower proftype) "moffat"); [|done].
  destruct pos1 as [p1|], pos2 as [p2|]; try done.
  destruct (getitem sky_bkg i) as [sky_i|e msg|] eqn:H1; simpl;
    [|done|by apply getitem_halts in H1].
  destruct (bop2 PrimFloat.sub median sky_i) as [a|e msg|] eqn:H2; simpl;
    [|done|by apply bop2_halts in H2].
  destruct (bop2 PrimFloat.mul a M) as [b|e msg|] eqn:H3; simpl;
    [|done|by apply bop2_halts in H3].
  by destruct (profile_niriss_moffat b p1 p2).
Qed.

(** A pass that ends the loop without a row: it raised, or it came to
    one of the two [return('...')] statements. *)
Definition pass_stops (r : outcome pass_result) : bool :=
  match r with
  | Ret (Bail _) | Raise _ _ => true
  | _ => false
  end.

(** An integration that ends the call. *)
Definition integration_stops (r : outcome integration_result) : bool :=
  match r with
  | Ret (Stop _) | Raise _ _ => true
  | _ => false
  end.

(** No pass hands a mask on to a next pass, and none extracts a row. *)
Lemma extraction_pass_stops (i : nat) (D median M : image) :
  pass_stops (extraction_pass i D median M) = true.
Proof.
  unfold extraction_pass.
  destruct (construct_profile i median M) as [[P0|msg]|e msg|] eqn:Hc; simpl;
    [|done|done|by apply construct_profile_halts in Hc].
  destruct (normalize_profile P0) as [P|e msg|] eqn:Hn; simpl;
    [|done|by apply bop2_halts in Hn].
  by destruct (revise_variance_stops i P) as (e & msg & ->).
Qed.

(** The loop is over with its first pass, whatever fuel it is given. *)
Lemma cr_loop_stops (fuel : nat) (i : nat) (D median M : image) :
  integration_stops (cr_loop (S fuel) i D median M) = true
  ∧ cr_loop (S fuel) i D median M = cr_loop 1 i D median M.
Proof.
  simpl. pose proof (extraction_pass_stops i D median M) as Hstop.
  by destruct (extraction_pass i D median M) as [[M'|f var_f|msg]|e msg|].
Qed.

(** The input of the fitted builders, [(median-sky_bkg[i])*M]. *)
Lemma profile_input_spec (ny nx i : nat) (sky_i median M : image) :
  sky_bkg !! i = Some sky_i → rect ny nx sky_i → rect ny nx median → rect ny nx M →
  (sky ← getitem sky_bkg i;
   a ← bop2 PrimFloat.sub median sky;
   bop2 PrimFloat.mul a M)
  = Ret (tabulate2 ny nx (λ y x, (get2 median y x - get2 sky_i y x) * get2 M y x)).
Proof.
  intros Hsky Hrs Hmed HM. rewrite (getitem_Some _ _ _ Hsky). simpl.
  clear Hsky. tabulate_image sky_i Hrs. tabulate_image median Hmed. tabulate_image M HM.
  rewrite bop2_tabulate. simpl. by rewrite bop2_tabulate.
Qed.

(** A fitted strategy is selected, both trace positions are given, and
    the builder returns profiles of the shape of the image it is
    given. *)
Definition fitted_profile_returns (ny nx : nat) : Prop :=
  ∃ p1 p2, pos1 = Some p1 ∧ pos2 = Some p2
    ∧ ((lower proftype = "gaussian"
        ∧ ∀ img, rect ny nx img →
            ∃ P1 P2, profile_niriss_gaussian img p1 p2 = Ok (P1, P2) ∧ rect ny nx P1)
       ∨ (lower proftype = "moffat"
          ∧ ∀ img, rect ny nx img →
              ∃ P1 P2, profile_niriss_moffat img p1 p2 = Ok (P1, P2) ∧ rect ny nx P1)).

Lemma construct_profile_fitted (ny nx i : nat) (median M : image) :
  fitted_profile_returns ny nx → operands_fit ny nx i →
  rect ny nx median → rect ny nx M →
  ∃ P0, construct_profile i median M = Ret (Profile P0) ∧ rect ny nx P0.
Proof.
  intros (p1 & p2 & Hp1 & Hp2 & Hfit) (_ & _ & (sky_i & Hk & Hrk)) Hmed HM.
  pose proof (profile_input_spec ny nx i sky_i median M Hk Hrk Hmed HM) as Hin.
  rewrite (getitem_Some _ _ _ Hk) in Hin. simpl in Hin.
  set (img := tabulate2 ny nx (λ y x, (get2 median y x - get2 sky_i y x) * get2 M y x))
    in Hin.
  assert (rect ny nx img) as Himg by apply rect_tabulate2.
  unfold construct_profile. rewrite Hp1, Hp2.
  destruct Hfit as [[Hpt Hb]|[Hpt Hb]]; rewrite Hpt; simpl;
    rewrite (getitem_Some _ _ _ Hk); simpl;
    (destruct (bop2 PrimFloat.sub median sky_i) as [a|e msg|]; simpl in *; [|done|done]);
    rewrite Hin; simpl;
    (destruct (Hb img Himg) as (P1 & P2 & -> & HP1));
    simpl; by eauto.
Qed.

(** A pass that gets a profile stops at step 6. *)
Lemma extraction_pass_name_error (ny nx i : nat) (D median M P0 : image) :
  0 < ny → operands_fit ny nx i →
  construct_profile i median M = Ret (Profile P0) → rect ny nx P0 →
  extraction_pass i D median M = Raise NameError "name 'Q' is not defined".
Proof.
  intros Hny Hops Hprof HP0. unfold extraction_pass. rewrite Hprof. simpl.
  rewrite (normalize_profile_spec ny nx) by done. simpl.
  rewrite (revise_variance_name_error ny nx) by (try done; apply rect_tabulate2).
  done.
Qed.

(** C4 on the code.  Step 6 does not compute the revised variance: with
    operands of the frame's shape it evaluates them and then raises
    [NameError] at the name [Q], and with any operands at all it
    raises; so a pass that obtained a profile ends there, before the
    residual test and the weighted sums that were to divide by [V]. *)
Theorem revised_variance_is_never_computed (ny nx i : nat) (D median M P0 : image) :
  0 < ny → operands_fit ny nx i →
  construct_profile i median M = Ret (Profile P0) → rect ny nx P0 →
  ∃ P, normalize_profile P0 = Ret P
    ∧ revise_variance i P = Raise NameError "name 'Q' is not defined"
    ∧ extraction_pass i D median M = Raise NameError "name 'Q' is not defined"
    ∧ ∀ i' P', ∃ e msg, revise_variance i' P' = Raise e msg.
Proof.
  intros Hny Hops Hprof HP0. eexists. split; [by apply (normalize_profile_spec ny nx)|].
  split; [apply (revise_variance_name_error ny nx); [done|apply rect_tabulate2]|].
  split; [by apply (extraction_pass_name_error ny nx i D median M P0)|].
  apply revise_variance_stops.
Qed.

(** C2 on the code.  The loop over the passes never goes round: the
    first pass of an integration whose inputs fit, and for which step 5
    returns a profile, raises [NameError] at step 6, before the residual
    test; so the mask, all good at the start, is never written, no pass
    ends the loop by flagging nothing, and more fuel changes nothing.
    For any inputs at all a pass ends the loop without a new mask and
    without a row. *)
Theorem loop_stops_in_its_first_pass (fuel ny nx i : nat) (D median P0 : image) :
  0 < ny → operands_fit ny nx i → rect ny nx D →
  construct_profile i median (ones_like D) = Ret (Profile P0) → rect ny nx P0 →
  (∀ y x, y < ny → x < nx → get2 (ones_like D) y x = 1)
  ∧ cr_loop (S fuel) i D median (ones_like D)
    = Raise NameError "name 'Q' is not defined"
  ∧ (∀ fuel' i' D' median' M',
       pass_stops (extraction_pass i' D' median' M') = true
       ∧ integration_stops (cr_loop (S fuel') i' D' median' M') = true
       ∧ cr_loop (S fuel') i' D' median' M' = cr_loop 1 i' D' median' M').
Proof.
  intros Hny Hops HD Hprof HP0. split; [|split].
  - intros y x Hy Hx. by apply (get2_ones_like ny nx).
  - simpl. by rewrite (extraction_pass_name_error ny nx i D median (ones_like D) P0).
  - intros fuel' i' D' median' M'. split; [apply extraction_pass_stops|].
    apply cr_loop_stops.
Qed.


(** *** The call as a whole *)

(** X28.  No call of [optimal_extraction] returns the two arrays,
    whatever its arguments: it raises or returns a message (or, in the
    model, is given no fuel). *)
Theorem extraction_returns_no_arrays (fuel : nat) (data : cube) (quad : Z) :
  returns_arrays (optimal_extraction fuel data quad) = false.
Proof.
  unfold optimal_extraction. destruct data as [|img0 rest]; [done|].
  change (seq 0 (length (img0 :: rest))) with (0%nat :: seq 1 (length rest)).
  cbn [run_integrations]. unfold extract_integration.
  destruct (getitem (select_region quad img0 (img0 :: rest)) 0) as [D|e msg|];
    simpl; [|done|done].
  destruct fuel as [|fuel]; [done|].
  destruct (cr_loop_stops fuel 0 D
              (clip_negative (nanmedian_axis0 (select_region quad img0 (img0 :: rest))))
              (ones_like D)) as [Hstop _].
  by destruct (cr_loop (S fuel) 0 D _ (ones_like D)) as [[f var_f|msg]|e msg|].
Qed.

(** C1 on the code.  A call whose frames are rectangular, whose inputs
    for the first integration have the shape of the selected region, and
    whose fitted builder returns a profile, raises [NameError] in the
    first pass of the first integration, for every quadrant and however
    much fuel the loop is given: the weighted sums are not computed and
    nothing is stored or returned. *)
Theorem extraction_raises_name_error (fuel : nat) (quad : Z) (ny nx h w : nat)
    (img0 : image) (rest : cube) :
  0 < ny → Forall (rect ny nx) (img0 :: rest) →
  region_shape quad ny nx = (h, w) → 0 < h →
  operands_fit h w 0 → fitted_profile_returns h w →
  optimal_extraction (S fuel) (img0 :: rest) quad
  = Raise NameError "name 'Q' is not defined".
Proof.
  intros Hny Hdata Hshape Hh Hops Hfit. unfold optimal_extraction.
  assert (rect ny nx img0) as Himg0 by by apply Forall_cons in Hdata as [? _].
  pose proof (select_region_rect quad ny nx h w img0 (img0 :: rest)
                Hny Himg0 Hdata Hshape) as Hsel.
  set (data' := select_region quad img0 (img0 :: rest)) in *.
  assert (∃ D rest', data' = D :: rest') as (D & rest' & HD).
  { unfold data', select_region.
    destruct (region quad (length img0) (ncols img0)) as [[[x1 x2] y1] y2].
    simpl. by eexists _, _. }
  change (seq 0 (length (img0 :: rest))) with (0%nat :: seq 1 (length rest)).
  cbn [run_integrations]. unfold extract_integration. rewrite HD in Hsel |- *.
  apply Forall_cons in Hsel as [HrD _]. cbn [getitem lookup list_lookup mbind outcome_bind obind].
  set (median := clip_negative (nanmedian_axis0 (D :: rest'))).
  assert (rect h w median) as Hmed by by apply rect_amap, rect_nanmedian_axis0.
  destruct (construct_profile_fitted h w 0 median (ones_like D) Hfit Hops Hmed)
    as (P0 & Hprof & HP0); [by apply rect_ones_like|].
  cbn [cr_loop].
  by rewrite (extraction_pass_name_error h w 0 D median (ones_like D) P0).
Qed.

(** X29.  The call cuts the frames to the quadrant and leaves the
    per-integration inputs as they are.  With a fitted strategy, a
    background image of the frame's shape cannot be subtracted from the
    median of a region that is lower, or as high and narrower: the
    first pass raises [ValueError] at [(median-sky_bkg[i])*M], before a
    profile is built. *)
Theorem uncut_background_raises (fuel : nat) (quad : Z) (ny nx h w : nat)
    (img0 : image) (rest : cube) (sky_0 : image) (p1 p2 : vec) :
  0 < ny → Forall (rect ny nx) (img0 :: rest) →
  region_shape quad ny nx = (h, w) →
  sky_bkg !! 0%nat = Some sky_0 → rect ny nx sky_0 →
  pos1 = Some p1 → pos2 = Some p2 →
  lower proftype = "gaussian" ∨ lower proftype = "moffat" →
  (1 < h ∧ h < ny) ∨ (0 < h ∧ h = ny ∧ 1 < w ∧ w < nx) →
  optimal_extraction (S fuel) (img0 :: rest) quad
  = Raise ValueError "operands could not be broadcast together".
Proof.
  intros Hny Hdata Hshape Hsky Hrs Hp1 Hp2 Hpt Hcut. unfold optimal_extraction.
  assert (rect ny nx img0) as Himg0 by by apply Forall_cons in Hdata as [? _].
  pose proof (select_region_rect quad ny nx h w img0 (img0 :: rest)
                Hny Himg0 Hdata Hshape) as Hsel.
  set (data' := select_region quad img0 (img0 :: rest)) in *.
  assert (∃ D rest', data' = D :: rest') as (D & rest' & HD).
  { unfold data', select_region.
    destruct (region quad (length img0) (ncols img0)) as [[[x1 x2] y1] y2].
    simpl. by eexists _, _. }
  change (seq 0 (length (img0 :: rest))) with (0%nat :: seq 1 (length rest)).
  cbn [run_integrations]. unfold extract_integration. rewrite HD in Hsel |- *.
  apply Forall_cons in Hsel as [HrD _].
  cbn [getitem lookup list_lookup mbind outcome_bind obind].
  set (median := clip_negative (nanmedian_axis0 (D :: rest'))).
  assert (rect h w median) as Hmed by by apply rect_amap, rect_nanmedian_axis0.
  assert (construct_profile 0 median (ones_like D)
          = Raise ValueError "operands could not be broadcast together") as Hprof.
  { unfold construct_profile. rewrite Hp1, Hp2.
    destruct Hpt as [-> | ->]; simpl; rewrite (getitem_Some _ _ _ Hsky); simpl;
      by rewrite (bop2_shape_mismatch PrimFloat.sub h w ny nx median sky_0). }
  cbn [cr_loop]. unfold extraction_pass. by rewrite Hprof.
Qed.


End OptimalExtraction.

(** *** Worked inputs *)

(** A stand-in for the fitted builders: the profile of each order is the
    image the builder was given. *)
Definition image_as_profile : image → vec → vec → result (image * image) :=
  λ img _ _, Ok (img, img).

Lemma rect_2_2 (a b c d : float) : rect 2 2 [[a; b]; [c; d]].
Proof. split; [reflexivity|]. repeat constructor. Defined.

(** One 2x2 frame, box spectrum 10 and variance 1 in both columns, no sky. *)
Definition frame : image := [[1; 2]; [3; 40]].

Definition no_sky : cube := [[[0; 0]; [0; 0]]].

Lemma frame_operands_fit : operands_fit [[10; 10]] [[1; 1]] no_sky 2 2 0.
Proof.
  split; [by eexists|]. split.
  - by exists [10; 10].
  - exists [[0; 0]; [0; 0]]. split; [done|apply rect_2_2].
Defined.

Lemma image_as_profile_returns :
  fitted_profile_returns image_as_profile image_as_profile (Some []) (Some [])
    "gaussian" 2 2.
Proof.
  exists [], []. split; [done|]. split; [done|]. left. split; [done|].
  intros img Himg. by exists img, img.
Defined.

Lemma revised_variance_is_never_computed_witness :
  ∃ P, normalize_profile frame = Ret P
    ∧ revise_variance [[10; 10]] [[1; 1]] no_sky 0 P
      = Raise NameError "name 'Q' is not defined"
    ∧ extraction_pass image_as_profile image_as_profile [[10; 10]] [[1; 1]] no_sky
        (Some []) (Some []) 20 None "gaussian" 0 frame frame (ones_like frame)
      = Raise NameError "name 'Q' is not defined"
    ∧ ∀ i' P', ∃ e msg,
        revise_variance [[10; 10]] [[1; 1]] no_sky i' P' = Raise e msg.
Proof.
  apply (revised_variance_is_never_computed image_as_profile image_as_profile
           [[10; 10]] [[1; 1]] no_sky (Some []) (Some []) 20 None "gaussian"
           2 2 0 frame frame (ones_like frame) frame).
  - lia.
  - apply frame_operands_fit.
  - vm_compute. reflexivity.
  - apply rect_2_2.
Defined.

Lemma loop_stops_in_its_first_pass_witness :
  cr_loop image_as_profile image_as_profile [[10; 10]] [[1; 1]] no_sky
    (Some []) (Some []) 20 None "gaussian" 100 0 frame frame (ones_like frame)
  = Raise NameError "name 'Q' is not defined".
Proof.
  refine (proj1 (proj2 (loop_stops_in_its_first_pass image_as_profile image_as_profile
           [[10; 10]] [[1; 1]] no_sky (Some []) (Some []) 20 None "gaussian"
           99 2 2 0 frame frame frame _ _ _ _ _))).
  - lia.
  - apply frame_operands_fit.
  - apply rect_2_2.
  - vm_compute. reflexivity.
  - apply rect_2_2.
Defined.

(** The whole frame ([quad = 4]) of one 2x2 image. *)
Lemma extraction_raises_name_error_witness :
  optimal_extraction image_as_profile image_as_profile [[10; 10]] [[1; 1]] no_sky
    (Some []) (Some []) 20 None "gaussian" 5 [frame] 4
  = Raise NameError "name 'Q' is not defined".
Proof.
  apply (extraction_raises_name_error image_as_profile image_as_profile
           [[10; 10]] [[1; 1]] no_sky (Some []) (Some []) 20 None "gaussian"
           4 4 2 2 2 2 frame []).
  - lia.
  - constructor; [apply rect_2_2|constructor].
  - reflexivity.
  - lia.
  - apply frame_operands_fit.
  - apply image_as_profile_returns.
Defined.

(** The default quadrant, on one 1x1002 frame with the inputs cut to
    the two selected columns: the same error. *)
Lemma first_quadrant_name_error :
  optimal_extraction image_as_profile image_as_profile [[10; 10]] [[1; 1]]
    [[[0; 0]]] (Some []) (Some []) 20 None "gaussian" 5 [[replicate 1002 1]] 1
  = Raise NameError "name 'Q' is not defined".
Proof. vm_compute. reflexivity. Qed.

(** The same frame with every input at the full frame width: the first
    quadrant is as high as the frame and 2 columns wide, the background
    1002. *)
Lemma uncut_background_raises_witness :
  optimal_extraction image_as_profile image_as_profile [replicate 1002 10]
    [replicate 1002 1] [[replicate 1002 0]] (Some []) (Some []) 20 None "gaussian" 5
    [[replicate 1002 1]] 1
  = Raise ValueError "operands could not be broadcast together".
Proof.
  apply (uncut_background_raises image_as_profile image_as_profile [replicate 1002 10]
           [replicate 1002 1] [[replicate 1002 0]] (Some []) (Some []) 20 None "gaussian"
           4 1 1 1002 1 2 [replicate 1002 1] [] [replicate 1002 0] [] []).
  - lia.
  - constructor; [|constructor]. split; [reflexivity|].
    constructor; [vm_compute; reflexivity|constructor].
  - vm_compute. reflexivity.
  - reflexivity.
  - split; [reflexivity|]. constructor; [vm_compute; reflexivity|constructor].
  - reflexivity.
  - reflexivity.
  - by left.
  - right. lia.
Defined.


Lemma median_strategy_raises_witness :
  optimal_extraction image_as_profile image_as_profile [[10; 10]] [[1; 1]]
    no_sky (Some []) (Some []) 20 None "Median" 1 [frame] 1
  = Raise TypeError
      "profile_niriss_median() missing 1 required positional argument: 'medprof'".
Proof.
  apply (median_strategy_raises image_as_profile image_as_profile [[10; 10]] [[1; 1]]
    no_sky (Some []) (Some []) 20 None "Median" 0 frame [] 1).
  reflexivity.
Defined.



(** Nor is a column whose sum is a finite number other than zero within
    a tolerance of 1 afterwards when its entries cancel: the binary64
    sum of this column is 10, and the normalized column sums to 1.125. *)
Lemma cancelling_column_not_normalized :
  nansum_axis0 [[9007199254740992]; [1]; [-9007199254740992]; [10]] = [10]
  ∧ normalize_profile [[9007199254740992]; [1]; [-9007199254740992]; [10]]
    = Ret [[900719925474099.25]; [0.1]; [-900719925474099.25]; [1]]
  ∧ nansum_axis0 [[900719925474099.25]; [0.1]; [-900719925474099.25]; [1]] = [1.125].
Proof. repeat split; vm_compute; reflexivity. Qed.

End Extraction.


(** ** StepModel.py *)

Module StepModel.
Import NumPy.

(** [s.startswith(p)] *)
Fixpoint startswith (p s : string) : bool :=
  match p, s with
  | EmptyString, _ => true
  | String a p', String b s' => Ascii.eqb a b && startswith p' s'
  | String _ _, EmptyString => false
  end.

(** [s[n:]] *)
Fixpoint drop_chars (n : nat) (s : string) : string :=
  match n, s with
  | O, _ => s
  | S n', String _ s' => drop_chars n' s'
  | S _, EmptyString => EmptyString
  end.

Fixpoint split_aux (sep : Ascii.ascii) (s : string) (cur : string) : list string :=
  match s with
  | EmptyString => [cur]
  | String c s' =>
      if Ascii.eqb c sep then cur :: split_aux sep s' EmptyString
      else split_aux sep s' (cur +:+ String c EmptyString)
  end.

(** [s.split('_')] *)
Definition split_underscore (s : string) : list string :=
  split_aux "_"%char s EmptyString.

Definition digit_of (c : Ascii.ascii) : option Z :=
  let n := Ascii.nat_of_ascii c in
  if (48 <=? n)%nat && (n <=? 57)%nat then Some (Z.of_nat (n - 48)) else None.

Fixpoint digits_value (s : string) (acc : Z) : option Z :=
  match s with
  | EmptyString => Some acc
  | String c s' =>
      match digit_of c with
      | Some d => digits_value s' (10 * acc + d)%Z
      | None => None
      end
  end.

(** [int(s)] for a string of decimal digits with an optional sign. *)
Definition int_of_string (s : string) : outcome Z :=
  let bad := Raise ValueError "invalid literal for int() with base 10" in
  match s with
  | EmptyString => bad
  | String c s' =>
      let '(neg, body) :=
        if Ascii.eqb c "-"%char then (true, s')
        else if Ascii.eqb c "+"%char then (false, s')
        else (false, s) in
      match body with
      | EmptyString => bad
      | _ => match digits_value body 0%Z with
             | Some z => Ret (if neg then (- z)%Z else z)
             | None => bad
             end
      end
  end.

(** A numpy index on an axis of length [n]: negative indices count from
    the end. *)
Definition norm_index (n : nat) (z : Z) : outcome nat :=
  if ((0 <=? z) && (z <? Z.of_nat n))%Z then Ret (Z.to_nat z)
  else if ((- Z.of_nat n <=? z) && (z <? 0))%Z then Ret (Z.to_nat (Z.of_nat n + z))
  else Raise IndexError "index is out of bounds".

(** [a[r, c] = v] *)
Definition setitem2 (a : image) (r c : Z) (v : float) : outcome image :=
  r' ← norm_index (length a) r;
  c' ← norm_index (ncols a) c;
  Ret (alter (λ row : vec, <[c' := v]> row) r' a).

(** The model's state: the channel count, the time axis, and the two
    [nchan] x 10 tables; [parameters] lists [parameters.dict] in order,
    each key with the value at position 0 of its entry. *)
Record model : Type := {
  nchan : nat;
  time : option vec;
  parameters : list (string * float);
  keys : list string;
  steps : image;
  steptimes : image
}.

Definition lookup_param (ps : list (string * float)) (key : string) : outcome float :=
  match list_find (λ kv, kv.1 = key) ps with
  | Some (_, kv) => Ret kv.2
  | None => Raise KeyError key
  end.

(** The body of the loop of [_parse_coeffs] for one key. *)
Definition parse_key (ps : list (string * float)) (st : image * image) (key : string)
    : outcome (image * image) :=
  let split_key := split_underscore key in
  let head := default EmptyString (split_key !! 0%nat) in
  chan ← (if decide (length split_key = 1%nat) then Ret 0%Z
          else int_of_string (default EmptyString (split_key !! 1%nat)));
  if (String.length head <? 9)%nat then
    idx ← int_of_string (drop_chars 4 head);
    v ← lookup_param ps key;
    s' ← setitem2 st.1 chan idx v;
    Ret (s', st.2)
  else
    idx ← int_of_string (drop_chars 8 head);
    v ← lookup_param ps key;
    t' ← setitem2 st.2 chan idx v;
    Ret (st.1, t').

Fixpoint parse_keys (ps : list (string * float)) (st : image * image)
    (ks : list string) : outcome (image * image) :=
  match ks with
  | [] => Ret st
  | key :: ks' => st' ← parse_key ps st key; parse_keys ps st' ks'
  end.

(** [_parse_coeffs] *)
Definition _parse_coeffs (m : model) : outcome model :=
  st ← parse_keys (parameters m) (steps m, steptimes m) (keys m);
  Ret {| nchan := nchan m; time := time m; parameters := parameters m;
         keys := keys m; steps := st.1; steptimes := st.2 |}.

(** [__init__], from the parameters and the channel count. *)
Definition init (ps : list (string * float)) (n : nat) : outcome model :=
  _parse_coeffs
    {| nchan := n; time := None; parameters := ps;
       keys := filter (λ key, startswith "step" key = true) (map fst ps);
       steps := replicate n (replicate 10 0);
       steptimes := replicate n (replicate 10 0) |}.

(** [lcfinal[c, self.time >= t] += h] on row [c]. *)
Definition add_step (t : vec) (row : vec) (t0 h : float) : vec :=
  zip_with (λ tk v, if t0 <=? tk then v + h else v) t row.

(** The row of [lcfinal] for one channel. *)
Definition channel_curve (t : vec) (steps_c steptimes_c : vec) : vec :=
  foldl (λ row s, add_step t row (get1 steptimes_c s) (get1 steps_c s))
        (replicate (length t) 1)
        (where1 0 (map (λ h, negb (h =? 0)) steps_c)).

(** [eval]: the time axis is the model's, or the [time] keyword when the
    model has none. *)
Definition eval (m : model) (kw_time : option vec) : outcome vec :=
  match (match time m with Some t => Some t | None => kw_time end) with
  | None => Raise TypeError "Time axis must be a tuple, list, or numpy array."
  | Some t =>
      rows ← forM (λ c,
                s ← Extraction.getitem (steps m) c;
                st ← Extraction.getitem (steptimes m) c;
                Ret (channel_curve t s st))
              (seq 0 (nchan m));
      Ret (concat rows)
  end.

(** *** One step *)

Lemma where1_none (i : nat) (l : list bool) :
  (∀ k, l !! k ≠ Some true) → where1 i l = [].
Proof.
  revert i. induction l as [|b l IH]; intros i Hl; simpl; [done|].
  destruct b; [by destruct (Hl 0%nat)|]. simpl. apply IH.
  intros k. apply (Hl (S k)).
Qed.

Lemma where1_single (i s : nat) (l : list bool) :
  l !! s = Some true → (∀ k, k ≠ s → l !! k ≠ Some true) →
  where1 i l = [(i + s)%nat].
Proof.
  revert i s. induction l as [|b l IH]; intros i s Hs Hl; [done|].
  destruct s as [|s]; simpl in *.
  - injection Hs as ->. simpl. rewrite Nat.add_0_r. f_equal.
    apply where1_none. intros k. apply (Hl (S k)). lia.
  - destruct b; [by destruct (Hl 0%nat)|]. simpl.
    rewrite (IH (S i) s); [f_equal; lia|done|].
    intros k Hk. apply (Hl (S k)). lia.
Qed.

Lemma length_add_step (t row : vec) (t0 h : float) :
  length row = length t → length (add_step t row t0 h) = length t.
Proof. intros Hlen. unfold add_step. rewrite length_zip_with. lia. Qed.

Lemma length_channel_curve (t steps_c steptimes_c : vec) :
  length (channel_curve t steps_c steptimes_c) = length t.
Proof.
  unfold channel_curve. generalize (where1 0 (map (λ h, negb (h =? 0)) steps_c)).
  intros l. assert (length (replicate (length t) 1) = length t) as Hlen
    by apply length_replicate.
  revert Hlen. generalize (replicate (length t) 1).
  induction l as [|s l IH]; intros row Hlen; simpl; [done|].
  apply IH. by apply length_add_step.
Qed.

Lemma lookup_concat_uniform {A : Type} (n : nat) (rows : list (list A))
    (c k : nat) (r : list A) :
  Forall (λ r, length r = n) rows → rows !! c = Some r → k < n →
  concat rows !! (c * n + k)%nat = r !! k.
Proof.
  revert c. induction rows as [|r0 rows IH]; intros c Hall Hc Hk; [done|].
  apply Forall_cons in Hall as [Hr0 Hall]. destruct c as [|c]; simpl in *.
  - injection Hc as ->. rewrite lookup_app_l by lia. done.
  - rewrite lookup_app_r by lia. rewrite <- (IH c Hall Hc Hk). f_equal. lia.
Qed.

(** The time axis [eval] runs on. *)
Definition time_axis (m : model) (kw_time : option vec) : option vec :=
  match time m with Some t => Some t | None => kw_time end.

Lemma eval_rows (m : model) (kw_time : option vec) (t : vec) :
  time_axis m kw_time = Some t →
  rect (nchan m) 10 (steps m) → rect (nchan m) 10 (steptimes m) →
  eval m kw_time
  = Ret (concat (map (λ c, channel_curve t (default [] (steps m !! c))
                                           (default [] (steptimes m !! c)))
                     (seq 0 (nchan m)))).
Proof.
  intros Ht [Hs _] [Hst _]. unfold eval. fold (time_axis m kw_time). rewrite Ht.
  rewrite (forM_ret _ (λ c, channel_curve t (default [] (steps m !! c))
                                            (default [] (steptimes m !! c)))); [done|].
  intros c Hc. apply elem_of_seq in Hc.
  destruct (lookup_lt_is_Some_2 (steps m) c) as [sc Hsc]; [lia|].
  destruct (lookup_lt_is_Some_2 (steptimes m) c) as [stc Hstc]; [lia|].
  rewrite (Extraction.getitem_Some _ _ _ Hsc), (Extraction.getitem_Some _ _ _ Hstc).
  simpl. by rewrite Hsc, Hstc.
Qed.

(** C8.  When the row of [steps] for channel [c] has exactly one
    non-zero entry, of height 0.05 and with step time [t0], the part of
    the flattened output that belongs to channel [c] is exactly 1.0 at
    every sample before [t0] and exactly 1.05 at every sample from [t0]
    on; this holds for each such channel. *)
Theorem single_step_curve (m : model) (kw_time : option vec) (t : vec)
    (c s : nat) (t0 : float) :
  time_axis m kw_time = Some t →
  rect (nchan m) 10 (steps m) → rect (nchan m) 10 (steptimes m) →
  c < nchan m → s < 10 →
  get2 (steps m) c s = 0.05 → get2 (steptimes m) c s = t0 →
  (∀ s', s' < 10 → s' ≠ s → (get2 (steps m) c s' =? 0) = true) →
  ∃ out, eval m kw_time = Ret out
    ∧ length out = (nchan m * length t)%nat
    ∧ ∀ k tk, t !! k = Some tk →
        ((tk <? t0) = true → out !! (c * length t + k)%nat = Some 1)
        ∧ ((t0 <=? tk) = true → out !! (c * length t + k)%nat = Some 1.05).
Proof.
  intros Ht Hs Hst Hc Hsl Hh Ht0 Hone.
  eexists. split; [by apply eval_rows|].
  set (rows := map _ (seq 0 (nchan m))).
  assert (Forall (λ r : vec, length r = length t) rows) as Hrows.
  { apply Forall_forall. intros r Hr. apply list_elem_of_fmap in Hr as (c' & -> & _).
    apply length_channel_curve. }
  split.
  { rewrite length_concat.
    rewrite (sum_list_fmap_same (length t)).
    - unfold rows. by rewrite !length_map, length_seq.
    - exact Hrows. }
  intros k tk Htk.
  destruct (lookup_lt_is_Some_2 (steps m) c) as [sc Hsc]; [destruct Hs; lia|].
  destruct (lookup_lt_is_Some_2 (steptimes m) c) as [stc Hstc]; [destruct Hst; lia|].
  assert (rows !! c = Some (channel_curve t sc stc)) as Hrow.
  { unfold rows. rewrite list_lookup_fmap, lookup_seq_lt by done. simpl.
    by rewrite Hsc, Hstc. }
  assert (k < length t) as Hk by (by eapply lookup_lt_Some).
  rewrite (lookup_concat_uniform (length t) rows c k _ Hrows Hrow Hk).
  assert (length sc = 10%nat) as Hlsc.
  { destruct Hs as [_ Hall]. eapply Forall_forall in Hall; [exact Hall|].
    by eapply list_elem_of_lookup_2. }
  assert (∀ j, get2 (steps m) c j = get1 sc j) as Hg2.
  { intros j. unfold get2, get1, pixel. by rewrite Hsc. }
  assert (get2 (steptimes m) c s = get1 stc s) as Hg2t.
  { unfold get2, get1, pixel. by rewrite Hstc. }
  assert (where1 0 (map (λ h, negb (h =? 0)) sc) = [s]) as Hwhere.
  { apply (where1_single 0 s).
    - rewrite list_lookup_fmap.
      destruct (lookup_lt_is_Some_2 sc s) as [h Hhs]; [lia|]. rewrite Hhs. simpl.
      assert (h = 0.05) as ->.
      { rewrite <- Hh, Hg2. unfold get1. by rewrite Hhs. }
      reflexivity.
    - intros j Hj. rewrite list_lookup_fmap.
      destruct (sc !! j) as [h|] eqn:Hhj; [|done]. simpl.
      assert (j < 10) as Hj10 by (apply lookup_lt_Some in Hhj; lia).
      specialize (Hone j Hj10 Hj). rewrite Hg2 in Hone. unfold get1 in Hone.
      rewrite Hhj in Hone. simpl in Hone. by rewrite Hone. }
  unfold channel_curve. rewrite Hwhere. simpl.
  rewrite <- Hg2t, <- Hg2, Ht0, Hh. unfold add_step.
  rewrite lookup_zip_with, Htk. simpl.
  rewrite lookup_replicate_2 by done. simpl.
  split; intros Hcmp.
  - by rewrite (FloatFacts.ltb_leb_false _ _ Hcmp).
  - by rewrite Hcmp.
Qed.

(** Two channels, each with one step of 0.05: at t = 3 and at t = 5. *)
Definition two_channels : list (string * float) :=
  [("step0", 0.05); ("steptime0", 3); ("step0_1", 0.05); ("steptime0_1", 5); ("c0", 1)].

Definition two_channel_model : model :=
  match init two_channels 2 with
  | Ret m => m
  | _ => {| nchan := 0; time := None; parameters := []; keys := [];
            steps := []; steptimes := [] |}
  end.

Lemma single_step_curve_witness :
  ∃ out, eval two_channel_model (Some [1; 3; 5; 7]) = Ret out
    ∧ length out = (nchan two_channel_model * length [1; 3; 5; 7])%nat
    ∧ ∀ k tk, [1; 3; 5; 7] !! k = Some tk →
        ((tk <? 5) = true → out !! (1 * length [1; 3; 5; 7] + k)%nat = Some 1)
        ∧ ((5 <=? tk) = true → out !! (1 * length [1; 3; 5; 7] + k)%nat = Some 1.05).
Proof.
  apply (single_step_curve two_channel_model (Some [1; 3; 5; 7]) [1; 3; 5; 7] 1 0 5).
  - reflexivity.
  - split; [reflexivity|]. repeat constructor.
  - split; [reflexivity|]. repeat constructor.
  - vm_compute. lia.
  - lia.
  - reflexivity.
  - reflexivity.
  - intros s' Hs' Hne.
    do 10 (destruct s' as [|s']; [first [done | reflexivity]|]). lia.
Defined.

(** *** Several steps *)

(** One sample of a channel: from 1.0, the heights of the non-zero steps
    whose step time is not after the sample's time, added in the order
    of the step numbers. *)
Definition sample_value (tk : float) (steps_c steptimes_c : vec) : float :=
  foldl (λ v s, if get1 steptimes_c s <=? tk then v + get1 steps_c s else v) 1
        (where1 0 (map (λ h, negb (h =? 0)) steps_c)).

Lemma lookup_foldl_add_step (t steps_c steptimes_c : vec) (l : list nat) (row : vec)
    (v : float) (k : nat) (tk : float) :
  t !! k = Some tk → row !! k = Some v →
  foldl (λ row s, add_step t row (get1 steptimes_c s) (get1 steps_c s)) row l !! k
  = Some (foldl (λ v s, if get1 steptimes_c s <=? tk then v + get1 steps_c s else v)
            v l).
Proof.
  intros Htk. revert row v. induction l as [|s l IH]; intros row v Hrow; simpl; [done|].
  apply IH. unfold add_step. rewrite lookup_zip_with, Htk, Hrow. done.
Qed.

Lemma lookup_channel_curve (t steps_c steptimes_c : vec) (k : nat) (tk : float) :
  t !! k = Some tk →
  channel_curve t steps_c steptimes_c !! k = Some (sample_value tk steps_c steptimes_c).
Proof.
  intros Htk. unfold channel_curve, sample_value.
  apply lookup_foldl_add_step; [done|].
  apply lookup_replicate_2. by eapply lookup_lt_Some.
Qed.

(** X4.  [eval] on a model with well-formed tables: the output has
    [nchan * len(time)] entries, channel after channel, and the sample
    [k] of channel [c] is 1.0 plus the steps of that channel that have
    started, NaN step times never starting and zero heights being
    skipped. *)
Theorem eval_adds_started_steps (m : model) (kw_time : option vec) (t : vec)
    (c k : nat) (tk : float) (steps_c steptimes_c : vec) :
  time_axis m kw_time = Some t →
  rect (nchan m) 10 (steps m) → rect (nchan m) 10 (steptimes m) →
  steps m !! c = Some steps_c → steptimes m !! c = Some steptimes_c →
  t !! k = Some tk →
  ∃ out, eval m kw_time = Ret out
    ∧ length out = (nchan m * length t)%nat
    ∧ out !! (c * length t + k)%nat = Some (sample_value tk steps_c steptimes_c).
Proof.
  intros Ht Hs Hst Hsc Hstc Htk.
  eexists. split; [by apply eval_rows|].
  set (rows := map _ (seq 0 (nchan m))).
  assert (Forall (λ r : vec, length r = length t) rows) as Hrows.
  { apply Forall_forall. intros r Hr. apply list_elem_of_fmap in Hr as (c' & -> & _).
    apply length_channel_curve. }
  split.
  { rewrite length_concat, (sum_list_fmap_same (length t)) by exact Hrows.
    unfold rows. by rewrite !length_map, length_seq. }
  assert (c < nchan m) as Hc.
  { destruct Hs as [<- _]. by eapply lookup_lt_Some. }
  assert (rows !! c = Some (channel_curve t steps_c steptimes_c)) as Hrow.
  { unfold rows. rewrite list_lookup_fmap, lookup_seq_lt by done. simpl.
    by rewrite Hsc, Hstc. }
  assert (k < length t) as Hk by (by eapply lookup_lt_Some).
  rewrite (lookup_concat_uniform (length t) rows c k _ Hrows Hrow Hk).
  by apply lookup_channel_curve.
Qed.

(** *** Keys and channels *)

Lemma append_cons (c : Ascii.ascii) (s1 s2 : string) :
  String c s1 +:+ s2 = String c (s1 +:+ s2).
Proof. reflexivity. Qed.

Lemma append_empty_l (s : string) : "" +:+ s = s.
Proof. reflexivity. Qed.

Lemma append_empty_r (s : string) : s +:+ "" = s.
Proof. induction s as [|c s IH]; [done|]. by rewrite append_cons, IH. Qed.

Lemma append_assoc_l (s1 s2 s3 : string) : (s1 +:+ s2) +:+ s3 = s1 +:+ s2 +:+ s3.
Proof. induction s1 as [|c s1 IH]; [done|]. by rewrite !append_cons, IH. Qed.

Lemma digit_of_pretty_N_char (x : N) :
  (x < 10)%N → digit_of (pretty_N_char x) = Some (Z.of_N x).
Proof.
  intros Hx. destruct x as [|q]; [done|].
  do 4 (destruct q as [q|q|]; try done; try lia).
Qed.

Lemma digit_is_no_sign (c : Ascii.ascii) (d : Z) :
  digit_of c = Some d →
  Ascii.eqb c "_" = false ∧ Ascii.eqb c "-" = false ∧ Ascii.eqb c "+" = false.
Proof.
  destruct c as [[] [] [] [] [] [] [] []]; vm_compute; intros Hd;
    first [discriminate Hd | done].
Qed.

Lemma digits_value_pretty_go (x : N) (s : string) :
  digits_value (pretty_N_go x s) 0%Z = digits_value s (Z.of_N x).
Proof.
  revert s. induction (N.lt_wf_0 x) as [x _ IH]. intros s.
  assert (x = 0 ∨ 0 < x)%N as [->|Hx] by lia; [by rewrite pretty_N_go_0|].
  rewrite pretty_N_go_step by done. rewrite IH by (by apply N.div_lt).
  simpl. rewrite digit_of_pretty_N_char by (apply N.mod_lt; lia). f_equal.
  rewrite (N.div_mod x 10) at 3 by lia. lia.
Qed.

(** The decimal digits of [str(c)] have the value [c]. *)
Lemma digits_value_pretty (c : nat) :
  digits_value (pretty c) 0%Z = Some (Z.of_nat c).
Proof.
  unfold pretty, pretty_nat, pretty, pretty_N.
  destruct (decide (N.of_nat c = 0%N)) as [Hc|Hc].
  - simpl. f_equal. lia.
  - rewrite digits_value_pretty_go. simpl. f_equal. lia.
Qed.

Lemma pretty_nonempty (c : nat) : pretty c ≠ "".
Proof.
  intros Hc. pose proof (digits_value_pretty c) as Hv. rewrite Hc in Hv.
  unfold pretty, pretty_nat, pretty, pretty_N in Hc.
  destruct (decide (N.of_nat c = 0%N)) as [H0|H0]; [done|].
  simpl in Hv. injection Hv as Hv. lia.
Qed.

Lemma int_of_string_digits (s : string) (z : Z) :
  s ≠ "" → digits_value s 0%Z = Some z → int_of_string s = Ret z.
Proof.
  destruct s as [|c s]; [done|]. intros _ Hv. unfold int_of_string.
  assert (∃ d, digit_of c = Some d) as [d Hd].
  { simpl in Hv. destruct (digit_of c) as [d|]; [by exists d|done]. }
  destruct (digit_is_no_sign c d Hd) as (_ & -> & ->). by rewrite Hv.
Qed.

(** Round trip: [int(str(c)) == c]. *)
Lemma int_of_string_pretty (c : nat) : int_of_string (pretty c) = Ret (Z.of_nat c).
Proof.
  apply int_of_string_digits; [apply pretty_nonempty|apply digits_value_pretty].
Qed.

Lemma split_aux_digits (s1 rest cur : string) (acc z : Z) :
  digits_value s1 acc = Some z →
  split_aux "_" (s1 +:+ rest) cur = split_aux "_" rest (cur +:+ s1).
Proof.
  revert cur acc. induction s1 as [|c s1 IH]; intros cur acc Hv.
  - by rewrite append_empty_l, append_empty_r.
  - simpl in Hv. destruct (digit_of c) as [d|] eqn:Hd; [|done].
    rewrite append_cons. simpl.
    destruct (digit_is_no_sign c d Hd) as (-> & _ & _).
    rewrite (IH _ _ Hv). by rewrite append_assoc_l, append_cons, append_empty_l.
Qed.

Lemma split_aux_pretty (c : nat) (cur : string) :
  split_aux "_" (pretty c) cur = [cur +:+ pretty c].
Proof.
  rewrite <- (append_empty_r (pretty c)) at 1.
  by rewrite (split_aux_digits _ _ _ _ _ (digits_value_pretty c)).
Qed.

(** The name of a parameter for channel [c]: the bare name for channel
    0, and the name, an underscore and the channel number otherwise. *)
Definition channel_key (name : string) (c : nat) : string :=
  if decide (c = 0%nat) then name else name +:+ "_" +:+ pretty c.

Lemma length_pretty_digit (d : nat) : d < 10 → String.length (pretty d) = 1%nat.
Proof. intros Hd. do 10 (destruct d as [|d]; [reflexivity|]). lia. Qed.

(** What [_parse_coeffs] reads off the key of step or step time number
    [d] for channel [c]: the channel and the number. *)
Lemma split_step_key (name : string) (d c : nat) :
  name = "step" ∨ name = "steptime" →
  let key := channel_key (name +:+ pretty d) c in
  (if decide (length (split_underscore key) = 1%nat) then Ret 0%Z
   else int_of_string (default EmptyString (split_underscore key !! 1%nat)))
  = Ret (Z.of_nat c)
  ∧ default EmptyString (split_underscore key !! 0%nat) = name +:+ pretty d.
Proof.
  intros Hname key.
  assert (∀ rest, split_aux "_" ((name +:+ pretty d) +:+ rest) ""
                  = split_aux "_" rest (name +:+ pretty d)) as Hsplit.
  { intros rest. rewrite append_assoc_l.
    destruct Hname as [-> | ->]; rewrite !append_cons, append_empty_l; simpl;
      by rewrite (split_aux_digits _ _ _ _ _ (digits_value_pretty d)). }
  unfold key, channel_key, split_underscore.
  destruct (decide (c = 0%nat)) as [->|Hc].
  - pose proof (Hsplit "") as Hs0. rewrite append_empty_r in Hs0.
    rewrite Hs0. simpl. done.
  - rewrite Hsplit, append_cons, append_empty_l. simpl.
    rewrite split_aux_pretty, append_empty_l. simpl.
    split; [|done]. apply int_of_string_pretty.
Qed.

Lemma norm_index_in_range (n i : nat) : i < n → norm_index n (Z.of_nat i) = Ret i.
Proof.
  intros Hi. unfold norm_index.
  assert ((0 <=? Z.of_nat i)%Z && (Z.of_nat i <? Z.of_nat n)%Z = true) as ->.
  { apply andb_true_iff. split; [apply Z.leb_le|apply Z.ltb_lt]; lia. }
  by rewrite Nat2Z.id.
Qed.

Lemma norm_index_above (n i : nat) :
  n ≤ i → norm_index n (Z.of_nat i) = Raise IndexError "index is out of bounds".
Proof.
  intros Hi. unfold norm_index.
  assert ((0 <=? Z.of_nat i)%Z && (Z.of_nat i <? Z.of_nat n)%Z = false) as ->.
  { apply andb_false_iff. right. apply Z.ltb_ge. lia. }
  assert ((- Z.of_nat n <=? Z.of_nat i)%Z && (Z.of_nat i <? 0)%Z = false) as ->.
  { apply andb_false_iff. right. apply Z.ltb_ge. lia. }
  done.
Qed.

Lemma setitem2_in_range (n w : nat) (a : image) (r c : nat) (v : float) :
  rect n w a → r < n → c < w →
  setitem2 a (Z.of_nat r) (Z.of_nat c) v = Ret (put_pixel v a (r, c)).
Proof.
  intros Ha Hr Hc. unfold setitem2. destruct Ha as [Hlen Hrows].
  rewrite Hlen, (norm_index_in_range n r Hr). simpl.
  assert (ncols a = w) as ->.
  { destruct a as [|row a]; [simpl in Hlen; lia|]. simpl.
    by apply Forall_cons in Hrows as [? _]. }
  by rewrite (norm_index_in_range w c Hc).
Qed.

(** X5.  The parameter of step number [d] for channel [c], named [step<d>]
    for channel 0 and [step<d>_<c>] otherwise, is written to
    [steps[c, d]]; nothing else in the two tables changes. *)
Theorem step_key_sets_its_entry (ps : list (string * float)) (n d c : nat)
    (st : image * image) (v : float) :
  d < 10 → c < n → rect n 10 st.1 →
  lookup_param ps (channel_key ("step" +:+ pretty d) c) = Ret v →
  ∃ steps', parse_key ps st (channel_key ("step" +:+ pretty d) c) = Ret (steps', st.2)
    ∧ rect n 10 steps'
    ∧ ∀ c' d', c' < n → d' < 10 →
        get2 steps' c' d' = if decide ((c', d') = (c, d)) then v else get2 st.1 c' d'.
Proof.
  intros Hd Hc Hrect Hv. exists (put_pixel v st.1 (c, d)).
  destruct (split_step_key "step" d c (or_introl eq_refl)) as [Hchan Hhead].
  split; [|split].
  - unfold parse_key. rewrite Hchan, Hhead. simpl.
    rewrite !append_empty_l, (length_pretty_digit d Hd). simpl.
    rewrite int_of_string_pretty. simpl. rewrite Hv. simpl.
    by rewrite (setitem2_in_range n 10).
  - by apply rect_put_pixel.
  - intros c' d' Hc' Hd'. by apply (get2_put_pixel n 10).
Qed.

(** X6.  The same for a step time: [steptime<d>] and [steptime<d>_<c>] are
    written to [steptimes[c, d]]. *)
Theorem steptime_key_sets_its_entry (ps : list (string * float)) (n d c : nat)
    (st : image * image) (v : float) :
  d < 10 → c < n → rect n 10 st.2 →
  lookup_param ps (channel_key ("steptime" +:+ pretty d) c) = Ret v →
  ∃ steptimes',
    parse_key ps st (channel_key ("steptime" +:+ pretty d) c) = Ret (st.1, steptimes')
    ∧ rect n 10 steptimes'
    ∧ ∀ c' d', c' < n → d' < 10 →
        get2 steptimes' c' d'
        = if decide ((c', d') = (c, d)) then v else get2 st.2 c' d'.
Proof.
  intros Hd Hc Hrect Hv. exists (put_pixel v st.2 (c, d)).
  destruct (split_step_key "steptime" d c (or_intror eq_refl)) as [Hchan Hhead].
  split; [|split].
  - unfold parse_key. rewrite Hchan, Hhead. simpl.
    rewrite !append_empty_l, (length_pretty_digit d Hd). simpl.
    rewrite int_of_string_pretty. simpl. rewrite Hv. simpl.
    by rewrite (setitem2_in_range n 10).
  - by apply rect_put_pixel.
  - intros c' d' Hc' Hd'. by apply (get2_put_pixel n 10).
Qed.

(** X7.  A key that names a channel the model does not have makes
    [_parse_coeffs] raise [IndexError]: the tables have [nchan] rows. *)
Theorem channel_out_of_range_raises (ps : list (string * float)) (n d c : nat)
    (st : image * image) (v : float) :
  d < 10 → n ≤ c → length st.1 = n →
  lookup_param ps (channel_key ("step" +:+ pretty d) c) = Ret v →
  parse_key ps st (channel_key ("step" +:+ pretty d) c)
  = Raise IndexError "index is out of bounds".
Proof.
  intros Hd Hc Hlen Hv.
  destruct (split_step_key "step" d c (or_introl eq_refl)) as [Hchan Hhead].
  unfold parse_key. rewrite Hchan, Hhead. simpl.
  rewrite !append_empty_l, (length_pretty_digit d Hd). simpl.
  rewrite int_of_string_pretty. simpl. rewrite Hv. simpl.
  unfold setitem2. by rewrite Hlen, (norm_index_above n c Hc).
Qed.

(** *** Parameters from the keyword dictionaries *)

(** [s.isdigit()] on ASCII text: not empty, and decimal digits only. *)
Definition isdigit (s : string) : bool :=
  match s with
  | EmptyString => false
  | _ => bool_decide (is_Some (digits_value s 0%Z))
  end.

(** [d[k] = v] on a dictionary kept as the list of its items: the value
    of a key that is present is replaced in place, a new key goes to the
    end. *)
Definition dict_set {A : Type} (d : list (string * A)) (k : string) (v : A)
    : list (string * A) :=
  if existsb (String.eqb k) (map fst d)
  then map (λ kv, if String.eqb k kv.1 then (k, v) else kv) d
  else d ++ [(k, v)].

(** [d.update(other)] *)
Definition dict_update {A : Type} (d other : list (string * A)) : list (string * A) :=
  foldl (λ d kv, dict_set d kv.1 kv.2) d other.

(** The [params] that [__init__] builds when no [parameters] are
    passed, from the items of [steps_dict] and of [steptimes_dict]. *)
Definition params_from_kwargs {A : Type} (steps_dict steptimes_dict : list (string * A))
    : list (string * A) :=
  let params :=
    filter (λ kv, startswith "step" kv.1 && isdigit (drop_chars 4 kv.1) = true)
           steps_dict in
  dict_update params
    (filter (λ kv, startswith "steptime" kv.1 && isdigit (drop_chars 9 kv.1) = true)
            steptimes_dict).

Lemma existsb_dict_set {A : Type} (d : list (string * A)) (k k' : string) (v : A) :
  existsb (String.eqb k') (map fst (dict_set d k v))
  = existsb (String.eqb k') (map fst d) || String.eqb k' k.
Proof.
  unfold dict_set. destruct (existsb (String.eqb k) (map fst d)) eqn:Hk.
  - assert (existsb (String.eqb k')
              (map fst (map (λ kv, if String.eqb k kv.1 then (k, v) else kv) d))
            = existsb (String.eqb k') (map fst d)) as ->.
    { clear Hk. induction d as [|[k0 v0] d IH]; simpl; [done|]. rewrite IH. f_equal.
      destruct (String.eqb k k0) eqn:Hk0; [|done]. simpl.
      apply String.eqb_eq in Hk0. by subst. }
    destruct (String.eqb k' k) eqn:Hk'; [|by rewrite orb_false_r].
    apply String.eqb_eq in Hk'. subst. by rewrite Hk.
  - rewrite map_app, existsb_app. simpl. by rewrite orb_false_r.
Qed.

Lemma existsb_dict_update {A : Type} (d other : list (string * A)) (k : string) :
  existsb (String.eqb k) (map fst (dict_update d other))
  = existsb (String.eqb k) (map fst d) || existsb (String.eqb k) (map fst other).
Proof.
  unfold dict_update. revert d. induction other as [|[k0 v0] other IH]; intros d; simpl.
  - by rewrite orb_false_r.
  - rewrite IH, existsb_dict_set. simpl. by rewrite orb_assoc.
Qed.

Lemma existsb_filter_false {A : Type} (P : string * A → Prop) `{∀ kv, Decision (P kv)}
    (d : list (string * A)) (k : string) :
  (∀ v, ¬ P (k, v)) → existsb (String.eqb k) (map fst (filter P d)) = false.
Proof.
  intros Hk. induction d as [|[k0 v0] d IH]; [done|].
  rewrite filter_cons. destruct (decide (P (k0, v0))) as [HP|HP]; [|done].
  simpl. rewrite IH, orb_false_r. apply String.eqb_neq. intros <-. by apply (Hk v0).
Qed.

(** X8.  A step time given in [steptimes_dict] under a name with a single
    character after [steptime], as in [steptime0], never reaches the
    parameters: the test looks at [key[9:]], which is empty for such a
    name, whatever [steps_dict] holds. *)
Theorem one_digit_steptime_is_dropped {A : Type}
    (steps_dict steptimes_dict : list (string * A)) (c : Ascii.ascii) :
  existsb (String.eqb ("steptime" +:+ String c ""))
    (map fst (params_from_kwargs steps_dict steptimes_dict))
  = false.
Proof.
  unfold params_from_kwargs. rewrite existsb_dict_update.
  rewrite !existsb_filter_false; [done| |]; intros v; vm_compute; discriminate.
Qed.

(** *** Worked keys *)

Definition zero_tables (n : nat) : image * image :=
  (replicate n (replicate 10 0), replicate n (replicate 10 0)).

Lemma rect_zero_table (n : nat) : rect n 10 (replicate n (replicate 10 0)).
Proof.
  split; [apply length_replicate|]. apply Forall_replicate. reflexivity.
Qed.

(** One channel with two steps: 0.05 from t = 3 and 0.1 from t = 5. *)
Definition two_steps : list (string * float) :=
  [("step0", 0.05); ("steptime0", 3); ("step1", 0.1); ("steptime1", 5)].

Definition two_step_model : model :=
  match init two_steps 1 with
  | Ret m => m
  | _ => {| nchan := 0; time := None; parameters := []; keys := [];
            steps := []; steptimes := [] |}
  end.

Lemma eval_adds_started_steps_witness :
  ∃ out, eval two_step_model (Some [1; 3; 5; 7]) = Ret out
    ∧ length out = (nchan two_step_model * length [1; 3; 5; 7])%nat
    ∧ out !! (0 * length [1; 3; 5; 7] + 3)%nat
      = Some (sample_value 7 [0.05; 0.1; 0; 0; 0; 0; 0; 0; 0; 0]
                             [3; 5; 0; 0; 0; 0; 0; 0; 0; 0]).
Proof.
  apply (eval_adds_started_steps two_step_model (Some [1; 3; 5; 7]) [1; 3; 5; 7]
           0 3 7).
  - reflexivity.
  - split; [reflexivity|]. repeat constructor.
  - split; [reflexivity|]. repeat constructor.
  - reflexivity.
  - reflexivity.
  - reflexivity.
Defined.

Lemma step_key_sets_its_entry_witness :
  ∃ steps', parse_key [("step3_1", 0.05)] (zero_tables 2) "step3_1"
            = Ret (steps', (zero_tables 2).2)
    ∧ rect 2 10 steps'
    ∧ ∀ c' d', c' < 2 → d' < 10 →
        get2 steps' c' d'
        = if decide ((c', d') = (1%nat, 3%nat)) then 0.05
          else get2 (zero_tables 2).1 c' d'.
Proof.
  apply (step_key_sets_its_entry [("step3_1", 0.05)] 2 3 1 (zero_tables 2) 0.05).
  - lia.
  - lia.
  - apply rect_zero_table.
  - reflexivity.
Defined.

Lemma steptime_key_sets_its_entry_witness :
  ∃ steptimes', parse_key [("steptime3", 5)] (zero_tables 2) "steptime3"
                = Ret ((zero_tables 2).1, steptimes')
    ∧ rect 2 10 steptimes'
    ∧ ∀ c' d', c' < 2 → d' < 10 →
        get2 steptimes' c' d'
        = if decide ((c', d') = (0%nat, 3%nat)) then 5
          else get2 (zero_tables 2).2 c' d'.
Proof.
  apply (steptime_key_sets_its_entry [("steptime3", 5)] 2 3 0 (zero_tables 2) 5).
  - lia.
  - lia.
  - apply rect_zero_table.
  - reflexivity.
Defined.

Lemma channel_out_of_range_raises_witness :
  parse_key [("step0_2", 0.05)] (zero_tables 2) "step0_2"
  = Raise IndexError "index is out of bounds".
Proof.
  apply (channel_out_of_range_raises [("step0_2", 0.05)] 2 0 2 (zero_tables 2) 0.05).
  - lia.
  - lia.
  - reflexivity.
  - reflexivity.
Defined.

End StepModel.

(** ** PyMC3Models.py *)

Module PyMC3Models.
Import NumPy.

(** Modelled from the spec: a [Parameter] of [lib/readEPF.py], which is
    not among the sources.  Section 3 of the specification gives it a
    value, a prior family with its hyperparameters and a binding kind;
    PyMC3Models.py reads [name], [value], [ptype], [prior], [priorpar1]
    and [priorpar2]. *)
Record Param : Type := {
  p_name : string;
  p_value : float;
  p_ptype : string;
  p_priorpar1 : float;
  p_priorpar2 : float;
  p_prior : string
}.

Definition with_value (v : float) (p : Param) : Param :=
  {| p_name := p_name p; p_value := v; p_ptype := p_ptype p;
     p_priorpar1 := p_priorpar1 p; p_priorpar2 := p_priorpar2 p;
     p_prior := p_prior p |}.

(** An item of an entry of [Parameters.dict]. *)
Inductive pyval : Type :=
| PyFloat (v : float)
| PyStr (s : string)
| PyNone.

(** Modelled from the spec: the [Parameters] registry of
    [lib/readEPF.py].  It is looked up by name in two ways that
    [update] keeps apart (its comment: the dict and Parameter are
    separate): [dict], from a name to a list whose item 0 is the value,
    and one [Parameter] attribute per name. *)
Record Parameters : Type := {
  dict : gmap string (list pyval);
  attributes : gmap string Param
}.

(** Registries are shared by reference: models hold a location. *)
Abbreviation store := (gmap nat Parameters).

(** A variable of the PyMC3 model, as [__init__] creates it. *)
Inductive rv : Type :=
| Const (v : float)
| Uniform (name : string) (lower upper testval : float)
| BoundedNormal_0 (name : string) (mu sd testval : float)
| BoundedNormal_90 (name : string) (mu sd testval : float)
| Normal (name : string) (mu sd testval : float)
| ExpUniform (name : string) (lower upper testval : float).

(** The attributes of a model object that the modelled methods touch.
    [fit] is the [fit_class] object: the current value of each parameter
    as evaluation reads it. *)
Record attrs : Type := {
  a_name : string;
  a_time : option vec;
  a_freenames : option (list string);
  a_parameters : option nat;
  a_paramtitles : option (list string);
  a_modeltype : option string;
  a_nchan : nat;
  a_fit : gmap string float
}.

Definition set_time_attr (t : option vec) (a : attrs) : attrs :=
  {| a_name := a_name a; a_time := t; a_freenames := a_freenames a;
     a_parameters := a_parameters a; a_paramtitles := a_paramtitles a;
     a_modeltype := a_modeltype a; a_nchan := a_nchan a; a_fit := a_fit a |}.

Definition set_fit_attr (f : gmap string float) (a : attrs) : attrs :=
  {| a_name := a_name a; a_time := a_time a; a_freenames := a_freenames a;
     a_parameters := a_parameters a; a_paramtitles := a_paramtitles a;
     a_modeltype := a_modeltype a; a_nchan := a_nchan a; a_fit := f |}.

(** The [eval] of a component class: it reads the object's attributes,
    the registries, the channel and the [time] keyword, and returns the
    flux or raises. *)
Definition evaluator : Type :=
  attrs → store → option nat → option vec → result vec.

(** A model object: a component of some subclass, or a composite that
    owns its components in evaluation order. *)
Inductive model : Type :=
| Component (a : attrs) (ev : evaluator)
| Composite (a : attrs) (issetup : bool) (pm : gmap string rv) (components : list model).

Definition attrs_of (m : model) : attrs :=
  match m with
  | Component a _ => a
  | Composite a _ _ _ => a
  end.

(** The component objects below a model, a component being its own. *)
Fixpoint leaves (m : model) : list attrs :=
  match m with
  | Component a _ => [a]
  | Composite _ _ _ cs => mjoin (map leaves cs)
  end.

(** Every model object below a model, itself included. *)
Fixpoint objects (m : model) : list attrs :=
  match m with
  | Component a _ => [a]
  | Composite a _ _ cs => a :: mjoin (map objects cs)
  end.

(** *** The time axis *)

(** [self.time = time_array] with a tuple, list or array: the composite's
    setter also assigns the array to every component. *)
Fixpoint set_time (t : vec) (m : model) : model :=
  match m with
  | Component a ev => Component (set_time_attr (Some t) a) ev
  | Composite a s pm cs => Composite (set_time_attr (Some t) a) s pm (map (set_time t) cs)
  end.

Definition not_an_array : string := "Time axis must be a tuple, list, or numpy array.".

(** The setter with any Python value: [None] stands for every value that
    is not a tuple, list or array. *)
Definition assign_time (t : option vec) (m : model) : outcome model :=
  match t with
  | Some t => Ret (set_time t m)
  | None => Raise TypeError not_an_array
  end.

(** *** Evaluation *)

(** [flux *= x]: [x] must have the length of [flux], or length 1. *)
Definition imul (flux x : vec) : outcome vec :=
  if decide (length x = length flux) then Ret (zip_with PrimFloat.mul flux x)
  else match x with
       | [v] => Ret (map (λ f, f * v) flux)
       | _ => Raise ValueError "non-broadcastable output operand"
       end.

(** What the caller did to an object's time axis just before evaluating
    it: nothing, assigned it (which a composite passes on to all its
    components), or assigned it only where none was set. *)
Inductive time_mode : Type :=
| Keep
| Force (t : vec)
| IfUnset (t : vec).

Definition time_after (mode : time_mode) (a : attrs) : option vec :=
  match mode with
  | Keep => a_time a
  | Force t => Some t
  | IfUnset t => match a_time a with Some t' => Some t' | None => Some t end
  end.

(** Whether the mode assigned the time axis of the object itself. *)
Definition assigned (mode : time_mode) (a : attrs) : option vec :=
  match mode with
  | Keep => None
  | Force t => Some t
  | IfUnset t => match a_time a with Some _ => None | None => Some t end
  end.

Section Eval.

Variable sigma : store.
Variable channel : option nat.
Variable kw_time : option vec.

(** [assign] without evaluation: what the mode does to an object. *)
Definition apply_mode (mode : time_mode) (m : model) : model :=
  match assigned mode (attrs_of m) with
  | Some t => set_time t m
  | None => m
  end.

(** The [for component in self.components] loop of [eval], given what
    one component contributes: nothing (a GP component) or its flux. *)
Fixpoint eval_components (ev1 : model → outcome (option vec) * model)
    (cs : list model) (flux : vec) : outcome vec * list model :=
  match cs with
  | [] => (Ret flux, [])
  | c :: cs' =>
      let '(r, c') := ev1 c in
      match r with
      | Ret None =>
          let '(r', cs'') := eval_components ev1 cs' flux in (r', c' :: cs'')
      | Ret (Some x) =>
          match imul flux x with
          | Ret flux' =>
              let '(r', cs'') := eval_components ev1 cs' flux' in (r', c' :: cs'')
          | Raise e msg => (Raise e msg, c' :: cs')
          | OutOfFuel => (OutOfFuel, c' :: cs')
          end
      | Raise e msg => (Raise e msg, c' :: cs')
      | OutOfFuel => (OutOfFuel, c' :: cs')
      end
  end.

Definition is_gp (m : model) : bool :=
  match a_modeltype (attrs_of m) with
  | Some ty => String.eqb ty "GP"
  | None => false
  end.

(** [eval] of an object whose time axis the caller has just treated as
    [mode] says; it returns the flux and the object as the call leaves
    it.  For a composite this is [CompositePyMC3Model.eval]. *)
Fixpoint eval_in (mode : time_mode) (m : model) : outcome vec * model :=
  match m with
  | Component a ev =>
      let a' := set_time_attr (time_after mode a) a in
      (lift (ev a' sigma channel kw_time), Component a' ev)
  | Composite a s pm cs =>
      let a1 := set_time_attr (time_after mode a) a in
      let run (t : vec) (a2 : attrs) (child : time_mode) :=
        let '(r, cs') :=
          eval_components
            (λ c, if is_gp c then (Ret None, apply_mode child c)
                  else let '(r, c') := eval_in child c in
                       (match r with
                        | Ret x => Ret (Some x)
                        | Raise e msg => Raise e msg
                        | OutOfFuel => OutOfFuel
                        end, c'))
            cs (replicate (length t * a_nchan a2) 1) in
        (r, Composite a2 s pm cs') in
      match a_time a1, assigned mode a with
      | Some _, Some t => run t a1 (Force t)
      | Some t, None => run t a1 (IfUnset t)
      | None, _ =>
          match kw_time with
          | Some t => run t (set_time_attr (Some t) a1) (Force t)
          | None => (Raise TypeError not_an_array, Composite a1 s pm cs)
          end
      end
  end.

Definition eval (m : model) : outcome vec * model := eval_in Keep m.

(** [interp]: evaluate on [new_time], then put the old time axis back. *)
Definition interp (new_time : option vec) (m : model) : outcome vec * model :=
  let old_time := a_time (attrs_of m) in
  match assign_time new_time m with
  | Ret m1 =>
      let '(r, m2) := eval m1 in
      match r with
      | Ret interp_flux =>
          match assign_time old_time m2 with
          | Ret m3 => (Ret interp_flux, m3)
          | Raise e msg => (Raise e msg, m2)
          | OutOfFuel => (OutOfFuel, m2)
          end
      | Raise e msg => (Raise e msg, m2)
      | OutOfFuel => (OutOfFuel, m2)
      end
  | Raise e msg => (Raise e msg, m)
  | OutOfFuel => (OutOfFuel, m)
  end.

End Eval.

(** *** Construction *)

(** The keyword arguments the modelled constructors are called with;
    a field left out keeps the default of [PyMC3Model.__init__]. *)
Record kwargs : Type := {
  k_name : option string;
  k_time : option vec;
  k_freenames : option (list string);
  k_parameters : option nat;
  k_paramtitles : option (list string);
  k_modeltype : option string;
  k_nchan : option nat
}.

Definition no_attribute (name : string) : string :=
  "object has no attribute '" +:+ name +:+ "'".

(** [getattr(self.parameters, name)] *)
Definition get_parameter (sigma : store) (ps : option nat) (name : string)
    : outcome Param :=
  match ps ≫= (λ loc, sigma !! loc) with
  | None => Raise AttributeError (no_attribute name)
  | Some reg =>
      match attributes reg !! name with
      | Some p => Ret p
      | None => Raise AttributeError (no_attribute name)
      end
  end.

(** [self.fit = fit_class()] filled with the value of every parameter
    named in [self.parameters.dict]. *)
Definition initial_fit (sigma : store) (ps : option nat) : outcome (gmap string float) :=
  match ps ≫= (λ loc, sigma !! loc) with
  | None => Raise AttributeError (no_attribute "dict")
  | Some reg =>
      match list_find (λ key, attributes reg !! key = None) (elements (dom (dict reg))) with
      | Some (_, key) => Raise AttributeError (no_attribute key)
      | None =>
          Ret (filter (λ kv, kv.1 ∈ dom (dict reg)) (p_value <$> attributes reg))
      end
  end.

(** [PyMC3Model.__init__] with its keyword arguments. *)
Definition base_init (kw : kwargs) (sigma : store) : outcome attrs :=
  fit ← initial_fit sigma (k_parameters kw);
  Ret {| a_name := default "New PyMC3Model" (k_name kw);
         a_time := k_time kw;
         a_freenames := k_freenames kw;
         a_parameters := k_parameters kw;
         a_paramtitles := k_paramtitles kw;
         a_modeltype := k_modeltype kw;
         a_nchan := default 1%nat (k_nchan kw);
         a_fit := fit |}.

Definition recognized_ptypes : list string :=
  ["independent"; "fixed"; "free"; "shared"; "white_free"; "white_fixed"].

Definition not_recognized (p : Param) : string :=
  "ptype " +:+ p_ptype p +:+ " for parameter " +:+ p_name p +:+ " is not recognized.".

Definition bounded_at_zero : list string :=
  ["rp"; "per"; "ecc"; "scatter_mult"; "scatter_ppm"; "c0"; "r1"; "r4"; "r7"; "r10"].

(** The variable the prior family of [param] calls for, if it is one of
    [U], [N] and [LU]. *)
Definition prior_variable (parname parname_temp : string) (param : Param) : option rv :=
  if String.eqb (p_prior param) "U" then
    Some (Uniform parname_temp (p_priorpar1 param) (p_priorpar2 param) (p_value param))
  else if String.eqb (p_prior param) "N" then
    if bool_decide (parname ∈ bounded_at_zero) then
      Some (BoundedNormal_0 parname_temp (p_priorpar1 param) (p_priorpar2 param)
              (p_value param))
    else if String.eqb parname "inc" then
      Some (BoundedNormal_90 parname_temp (p_priorpar1 param) (p_priorpar2 param)
              (p_value param))
    else
      Some (Normal parname_temp (p_priorpar1 param) (p_priorpar2 param) (p_value param))
  else if String.eqb (p_prior param) "LU" then
    Some (ExpUniform parname_temp (p_priorpar1 param) (p_priorpar2 param) (p_value param))
  else None.

(** The [for c in range(self.nchan)] loop for one parameter. *)
Fixpoint bind_channels (parname : string) (param : Param) (chans : list nat)
    (pm : gmap string rv) : outcome (gmap string rv) :=
  match chans with
  | [] => Ret pm
  | c :: chans' =>
      let parname_temp :=
        if decide (c ≠ 0%nat) then parname +:+ "_" +:+ pretty c else parname in
      if String.eqb (p_ptype param) "free" || bool_decide (c = 0%nat) then
        bind_channels parname param chans'
          (match prior_variable parname parname_temp param with
           | Some v => <[parname_temp := v]> pm
           | None => pm
           end)
      else
        match pm !! parname with
        | Some v => bind_channels parname param chans' (<[parname_temp := v]> pm)
        | None => Raise AttributeError (no_attribute parname)
        end
  end.

(** The [for parname in self.paramtitles] loop. *)
Fixpoint bind_parameters (sigma : store) (a : attrs) (titles : list string)
    (pm : gmap string rv) : outcome (gmap string rv) :=
  match titles with
  | [] => Ret pm
  | parname :: titles' =>
      param ← get_parameter sigma (a_parameters a) parname;
      if bool_decide (p_ptype param ∈ ["independent"; "fixed"]) then
        bind_parameters sigma a titles' (<[parname := Const (p_value param)]> pm)
      else if negb (bool_decide (p_ptype param ∈ ["free"; "shared"; "white_free";
                                                   "white_fixed"])) then
        Raise ValueError (not_recognized param)
      else
        pm' ← bind_channels parname param (seq 0 (a_nchan a)) pm;
        bind_parameters sigma a titles' pm'
  end.

Definition incompatible_mass : string :=
  "The input Ms, per, and a values are incompatible and imply a negative "
  +:+ "planetary mass. As a result, the starry model is going to crash. "
  +:+ "You should likely reduce your Ms value.".

Section Construction.

(** The solar radius, the gravitational constant and the solar mass of
    [astropy.constants], and Python's [**] on floats. *)
Variables R_sun G M_sun : float.
Variable power : float → float → float.

Definition pi : float := 3.141592653589793.

(** The planetary mass that [Ms], [per] and [a] imply. *)
Definition implied_planet_mass (a_ Rs per Ms : float) : float :=
  let a := a_ * Rs * R_sun in
  let p := per * (24 * 3600) in
  power ((2 * pi * power a (3 / 2)) / p) 2 / G / M_sun - Ms.

(** The check that Ms, per and a are compatible. *)
Definition mass_check (sigma : store) (a : attrs) : outcome unit :=
  pa ← get_parameter sigma (a_parameters a) "a";
  pRs ← get_parameter sigma (a_parameters a) "Rs";
  pper ← get_parameter sigma (a_parameters a) "per";
  pMs ← get_parameter sigma (a_parameters a) "Ms";
  if implied_planet_mass (p_value pa) (p_value pRs) (p_value pper) (p_value pMs) <=? 0
  then Raise AssertionError incompatible_mass
  else Ret ().

(** [CompositePyMC3Model.__init__(components, **kwargs)].  The setter
    that a [time] keyword goes through finds no component yet, so the
    components keep their own time axes. *)
Definition composite_init (components : list model) (kw : kwargs) (sigma : store)
    : outcome model :=
  a ← base_init kw sigma;
  _ ← mass_check sigma a;
  titles ← match a_paramtitles a with
           | Some titles => Ret titles
           | None => Raise TypeError "'NoneType' object is not iterable"
           end;
  pm ← bind_parameters sigma a titles ∅;
  Ret (Composite a false pm components).

(** Modelled from the spec: [Parameters.__add__] of [lib/readEPF.py],
    which is not among the sources; section 4.4 has the parameter set of
    [A * B] be the union of both. *)
Definition parameters_add (p q : Parameters) : Parameters :=
  {| dict := dict p ∪ dict q; attributes := attributes p ∪ attributes q |}.

Definition fresh_loc (sigma : store) : nat :=
  S (foldr Nat.max 0%nat (elements (dom sigma))).

(** [__mul__].  [list.append] returns [None], so [paramtitles=None] is
    what the composite is constructed with. *)
Definition mul (A B : model) (sigma : store) : outcome model :=
  match a_parameters (attrs_of A) ≫= (λ loc, sigma !! loc),
        a_parameters (attrs_of B) ≫= (λ loc, sigma !! loc) with
  | Some p, Some q =>
      let parameters := fresh_loc sigma in
      let sigma' := <[parameters := parameters_add p q]> sigma in
      match a_paramtitles (attrs_of A) with
      | None => Raise AttributeError "'NoneType' object has no attribute 'append'"
      | Some _ =>
          let paramtitles : option (list string) := None in
          composite_init [A; B]
            {| k_name := None; k_time := None; k_freenames := None;
               k_parameters := Some parameters; k_paramtitles := paramtitles;
               k_modeltype := None; k_nchan := None |}
            sigma'
      end
  | _, _ => Raise TypeError "unsupported operand type(s) for +"
  end.

End Construction.

(** *** Rebinding the free parameters *)

(** [self.parameters.dict[arg][0] = val] and then
    [getattr(self.parameters, arg).value = val], on the registry object
    itself: the outcome comes with the registry as the two statements
    leave it, so when the second raises the first has been done. *)
Definition rebind_one (reg : Parameters) (val : float) (arg : string)
    : outcome unit * Parameters :=
  match dict reg !! arg with
  | None => (Raise KeyError arg, reg)
  | Some [] => (Raise IndexError "list assignment index out of range", reg)
  | Some (_ :: items) =>
      match attributes reg !! arg with
      | None =>
          (Raise AttributeError (no_attribute arg),
           {| dict := <[arg := PyFloat val :: items]> (dict reg);
              attributes := attributes reg |})
      | Some p =>
          (Ret (),
           {| dict := <[arg := PyFloat val :: items]> (dict reg);
              attributes := <[arg := with_value val p]> (attributes reg) |})
      end
  end.

(** The first loop of [update], over [zip(newparams, self.freenames)]; a
    pair that raises ends it, the pairs before it staying rebound. *)
Fixpoint rebind (reg : Parameters) (pairs : list (float * string))
    : outcome unit * Parameters :=
  match pairs with
  | [] => (Ret (), reg)
  | (val, arg) :: pairs' =>
      let '(r, reg') := rebind_one reg val arg in
      match r with
      | Ret _ => rebind reg' pairs'
      | _ => (r, reg')
      end
  end.

(** The second loop: [setattr(self.fit, key, val)]. *)
Definition refit (fit : gmap string float) (pairs : list (float * string))
    : gmap string float :=
  foldl (λ f p, <[p.2 := p.1]> f) fit pairs.

(** [PyMC3Model.update] on a component.  The registry is shared by
    reference, so what the first loop did to it is in the store also
    when the loop raised; the cache is written by the second loop, which
    is then not reached. *)
Definition update_component (a : attrs) (newparams : vec) (sigma : store)
    : outcome unit * attrs * store :=
  match a_freenames a with
  | None => (Raise TypeError "'NoneType' object is not iterable", a, sigma)
  | Some names =>
      let pairs := zip newparams names in
      match pairs with
      | [] => (Ret (), a, sigma)
      | _ :: _ =>
          match a_parameters a with
          | None => (Raise AttributeError (no_attribute "dict"), a, sigma)
          | Some loc =>
              match sigma !! loc with
              | None => (Raise AttributeError (no_attribute "dict"), a, sigma)
              | Some reg =>
                  let '(r, reg') := rebind reg pairs in
                  match r with
                  | Ret _ =>
                      (Ret (), set_fit_attr (refit (a_fit a) pairs) a,
                       <[loc := reg']> sigma)
                  | _ => (r, a, <[loc := reg']> sigma)
                  end
              end
          end
      end
  end.

(** The loop of [CompositePyMC3Model.update]. *)
Fixpoint update_components (upd : model → store → outcome unit * model * store)
    (cs : list model) (sigma : store) : outcome unit * list model * store :=
  match cs with
  | [] => (Ret (), [], sigma)
  | c :: cs' =>
      let '(r, c', sigma1) := upd c sigma in
      match r with
      | Ret _ =>
          let '(r', cs'', sigma2) := update_components upd cs' sigma1 in
          (r', c' :: cs'', sigma2)
      | _ => (r, c' :: cs', sigma1)
      end
  end.

(** [update]: a component rebinds, a composite has each component do so. *)
Fixpoint update (newparams : vec) (m : model) (sigma : store)
    : outcome unit * model * store :=
  match m with
  | Component a ev =>
      let '(r, a', sigma') := update_component a newparams sigma in
      (r, Component a' ev, sigma')
  | Composite a s pm cs =>
      let '(r, cs', sigma') := update_components (update newparams) cs sigma in
      (r, Composite a s pm cs', sigma')
  end.

(** *** Multiplying two models *)

Lemma base_init_paramtitles (kw : kwargs) (sigma : store) (a : attrs) :
  base_init kw sigma = Ret a →
  a_paramtitles a = k_paramtitles kw ∧ a_parameters a = k_parameters kw
  ∧ a_nchan a = default 1%nat (k_nchan kw) ∧ a_time a = k_time kw.
Proof.
  unfold base_init. destruct (initial_fit sigma (k_parameters kw)); simpl; [|done|done].
  by intros [= <-].
Qed.

Lemma base_init_total (kw : kwargs) (sigma : store) : base_init kw sigma ≠ OutOfFuel.
Proof.
  unfold base_init, initial_fit.
  destruct (k_parameters kw ≫= _) as [reg|]; simpl; [|done].
  by destruct (list_find _ _) as [[]|].
Qed.

Lemma get_parameter_total (sigma : store) (ps : option nat) (name : string) :
  get_parameter sigma ps name ≠ OutOfFuel.
Proof.
  unfold get_parameter. destruct (ps ≫= _) as [reg|]; [|done].
  by destruct (attributes reg !! name).
Qed.

Lemma mass_check_total (R_sun G M_sun : float) (power : float → float → float)
    (sigma : store) (a : attrs) :
  mass_check R_sun G M_sun power sigma a ≠ OutOfFuel.
Proof.
  unfold mass_check.
  destruct (get_parameter sigma (a_parameters a) "a") as [pa| |] eqn:Ha; simpl; [|done|].
  2:{ by apply get_parameter_total in Ha. }
  destruct (get_parameter sigma (a_parameters a) "Rs") as [pr| |] eqn:Hr; simpl; [|done|].
  2:{ by apply get_parameter_total in Hr. }
  destruct (get_parameter sigma (a_parameters a) "per") as [pp| |] eqn:Hp; simpl; [|done|].
  2:{ by apply get_parameter_total in Hp. }
  destruct (get_parameter sigma (a_parameters a) "Ms") as [pm| |] eqn:Hm; simpl; [|done|].
  2:{ by apply get_parameter_total in Hm. }
  by destruct (_ <=? _).
Qed.

(** C3 on the code: [A * B] builds no composite.  [__mul__] hands
    [paramtitles=None] to the constructor (the value of [list.append]),
    and the constructor, when it gets that far, iterates over it; so the
    product of two models raises, whatever the two models are. *)
Theorem mul_raises (R_sun G M_sun : float) (power : float → float → float)
    (A B : model) (sigma : store) :
  raises (mul R_sun G M_sun power A B sigma).
Proof.
  unfold raises, mul.
  destruct (a_parameters (attrs_of A) ≫= _) as [p|]; [|by eauto].
  destruct (a_parameters (attrs_of B) ≫= _) as [q|]; [|by eauto].
  destruct (a_paramtitles (attrs_of A)) as [titles|]; [|by eauto].
  unfold composite_init.
  destruct (base_init _ _) as [a| |] eqn:Ha; simpl; [|by eauto|].
  2:{ by apply base_init_total in Ha. }
  apply base_init_paramtitles in Ha as (Ht & _). simpl in Ht.
  destruct (mass_check _ _ _ _ _ a) as [[]| |] eqn:Hm; simpl; [|by eauto|].
  2:{ by apply mass_check_total in Hm. }
  rewrite Ht. simpl. by eauto.
Qed.

(** *** Binding kinds at construction *)

Definition latent_ptypes : list string := ["free"; "shared"; "white_free"; "white_fixed"].

(** A parameter the constructor binds without raising: held constant, or
    latent with one of the three prior families. *)
Definition binds_cleanly (q : Param) : Prop :=
  p_ptype q ∈ ["independent"; "fixed"]
  ∨ (p_ptype q ∈ latent_ptypes ∧ p_prior q ∈ ["U"; "N"; "LU"]).

Lemma prior_variable_known (parname parname_temp : string) (q : Param) :
  p_prior q ∈ ["U"; "N"; "LU"] → is_Some (prior_variable parname parname_temp q).
Proof.
  intros Hq. unfold prior_variable.
  apply elem_of_cons in Hq as [Hq|Hq]; [rewrite Hq; simpl; by eexists|].
  apply elem_of_cons in Hq as [Hq|Hq].
  { rewrite Hq. simpl. destruct (bool_decide _); [by eexists|].
    destruct (String.eqb _ _); by eexists. }
  apply elem_of_cons in Hq as [Hq|Hq]; [rewrite Hq; simpl; by eexists|].
  by apply elem_of_nil in Hq.
Qed.

Lemma bind_channels_returns (parname : string) (q : Param) (chans : list nat)
    (pm : gmap string rv) :
  p_prior q ∈ ["U"; "N"; "LU"] →
  is_Some (pm !! parname) ∨ (∃ rest, chans = 0%nat :: rest) ∨ chans = [] →
  ∃ pm', bind_channels parname q chans pm = Ret pm'.
Proof.
  intros Hq. revert pm. induction chans as [|c chans IH]; intros pm Hpm; simpl.
  - by eexists.
  - destruct (String.eqb (p_ptype q) "free" || bool_decide (c = 0%nat)) eqn:Hc.
    + destruct (prior_variable_known parname
                  (if decide (c ≠ 0%nat) then parname +:+ "_" +:+ pretty c else parname)
                  q Hq) as [v ->].
      apply IH. left. apply lookup_insert_is_Some'.
      destruct Hpm as [Hw|[(rest & [= -> ->])|?]]; [by right|by left|done].
    + destruct Hpm as [[w Hw]|[(rest & [= -> ->])|?]]; [| |done].
      * rewrite Hw. apply IH. left. apply lookup_insert_is_Some'. right. by eauto.
      * apply orb_false_iff in Hc as [_ Hc]. by rewrite bool_decide_eq_true_2 in Hc.
Qed.

Lemma get_parameter_Some (sigma : store) (loc : nat) (reg : Parameters)
    (name : string) (q : Param) :
  sigma !! loc = Some reg → attributes reg !! name = Some q →
  get_parameter sigma (Some loc) name = Ret q.
Proof. intros Hs Hq. unfold get_parameter. simpl. by rewrite Hs, Hq. Qed.

Lemma bind_parameters_returns (sigma : store) (a : attrs) (loc : nat) (reg : Parameters)
    (titles : list string) (pm : gmap string rv) :
  a_parameters a = Some loc → sigma !! loc = Some reg →
  (∀ n, n ∈ titles → ∃ q, attributes reg !! n = Some q ∧ binds_cleanly q) →
  ∃ pm', bind_parameters sigma a titles pm = Ret pm'.
Proof.
  intros Ha Hs. revert pm. induction titles as [|n titles IH]; intros pm Hall; simpl.
  - by eexists.
  - destruct (Hall n (list_elem_of_here _ _)) as (q & Hq & Hclean).
    rewrite Ha, (get_parameter_Some _ _ _ _ _ Hs Hq). simpl.
    assert (∀ n', n' ∈ titles → ∃ q', attributes reg !! n' = Some q' ∧ binds_cleanly q')
      as Hall' by (intros n' Hn'; apply Hall; by apply list_elem_of_further).
    destruct Hclean as [Hfix|[Hlat Hprior]].
    + rewrite bool_decide_eq_true_2 by done. by apply IH.
    + destruct (bool_decide (p_ptype q ∈ ["independent"; "fixed"])); [by apply IH|].
      fold latent_ptypes. rewrite (bool_decide_eq_true_2 _ Hlat). simpl.
      destruct (bind_channels_returns n q (seq 0 (a_nchan a)) pm Hprior) as [pm' ->].
      { right. destruct (a_nchan a); [by right|left; by eexists]. }
      simpl. by apply IH.
Qed.

Lemma bind_channels_no_value_error (parname : string) (q : Param) (chans : list nat)
    (pm : gmap string rv) (msg : string) :
  bind_channels parname q chans pm ≠ Raise ValueError msg.
Proof.
  revert pm. induction chans as [|c chans IH]; intros pm; simpl; [done|].
  destruct (_ || _); [apply IH|]. destruct (pm !! parname); [apply IH|done].
Qed.

Lemma get_parameter_no_value_error (sigma : store) (ps : option nat) (name msg : string) :
  get_parameter sigma ps name ≠ Raise ValueError msg.
Proof.
  unfold get_parameter. destruct (ps ≫= _) as [reg|]; [|done].
  by destruct (attributes reg !! name).
Qed.

Lemma bind_parameters_no_value_error (sigma : store) (a : attrs)
    (titles : list string) (pm : gmap string rv) (msg : string) :
  (∀ n q, n ∈ titles → get_parameter sigma (a_parameters a) n = Ret q →
          p_ptype q ∈ recognized_ptypes) →
  bind_parameters sigma a titles pm ≠ Raise ValueError msg.
Proof.
  revert pm. induction titles as [|n titles IH]; intros pm Hall; simpl; [done|].
  assert (∀ n' q, n' ∈ titles → get_parameter sigma (a_parameters a) n' = Ret q →
            p_ptype q ∈ recognized_ptypes) as Hall'
    by (intros n' q' Hn'; apply Hall; by apply list_elem_of_further).
  destruct (get_parameter sigma (a_parameters a) n) as [q| |] eqn:Hq; simpl.
  - specialize (Hall n q (list_elem_of_here _ _) Hq).
    destruct (bool_decide (p_ptype q ∈ ["independent"; "fixed"])) eqn:Hfix; [by apply IH|].
    apply bool_decide_eq_false in Hfix.
    rewrite bool_decide_eq_true_2.
    2:{ unfold recognized_ptypes in Hall.
        apply elem_of_cons in Hall as [Heq|Hall];
          [destruct Hfix; rewrite Heq; apply list_elem_of_here|].
        apply elem_of_cons in Hall as [Heq|Hall]; [|done].
        destruct Hfix; rewrite Heq. apply list_elem_of_further, list_elem_of_here. }
    simpl. destruct (bind_channels n q _ pm) as [pm'| |] eqn:Hb; simpl; [by apply IH| |done].
    intros [= -> ->]. by apply bind_channels_no_value_error in Hb.
  - intros [= -> ->]. by apply get_parameter_no_value_error in Hq.
  - done.
Qed.

Lemma bind_parameters_app (sigma : store) (a : attrs) (pre rest : list string)
    (pm : gmap string rv) :
  bind_parameters sigma a (pre ++ rest) pm
  = pm' ← bind_parameters sigma a pre pm; bind_parameters sigma a rest pm'.
Proof.
  revert pm. induction pre as [|n pre IH]; intros pm; simpl; [done|].
  destruct (get_parameter sigma (a_parameters a) n) as [q| |]; simpl; [|done|done].
  destruct (bool_decide _); [apply IH|]. destruct (negb _); [done|].
  destruct (bind_channels n q _ pm); simpl; [apply IH|done|done].
Qed.

Lemma initial_fit_returns (sigma : store) (loc : nat) (reg : Parameters) :
  sigma !! loc = Some reg →
  (∀ key, key ∈ dom (dict reg) → is_Some (attributes reg !! key)) →
  ∃ fit, initial_fit sigma (Some loc) = Ret fit.
Proof.
  intros Hs Hall. unfold initial_fit. simpl. rewrite Hs.
  destruct (list_find _ _) as [[k key]|] eqn:Hfind; [|by eexists].
  apply list_find_Some in Hfind as (Hk & Hnone & _).
  apply list_elem_of_lookup_2, elem_of_elements, Hall in Hk as [q Hq]. congruence.
Qed.

Section BindingKinds.

Variables R_sun G M_sun : float.
Variable power : float → float → float.
Variable components : list model.
Variable kw : kwargs.
Variable sigma : store.
Variable titles : list string.

(** C9, as the code has it.  When construction gets as far as binding
    the parameters, the first parameter of [paramtitles] whose ptype is
    not recognized stops it with a [ValueError] that names the parameter
    and its ptype; no model is returned, so nothing can be evaluated.
    Construction gets that far when the registry is complete, the check
    of Ms, per and a passes, and the parameters listed before bind
    without raising.  Parameters of a recognized ptype never raise a
    [ValueError]. *)
Theorem unrecognized_ptype_raises :
  k_paramtitles kw = Some titles →
  (∀ loc reg pre name post p,
     k_parameters kw = Some loc → sigma !! loc = Some reg →
     (∀ key, key ∈ dom (dict reg) → is_Some (attributes reg !! key)) →
     (∀ a, a_parameters a = Some loc → mass_check R_sun G M_sun power sigma a = Ret ()) →
     titles = pre ++ name :: post →
     (∀ n, n ∈ pre → ∃ q, attributes reg !! n = Some q ∧ binds_cleanly q) →
     attributes reg !! name = Some p → p_ptype p ∉ recognized_ptypes →
     composite_init R_sun G M_sun power components kw sigma
     = Raise ValueError (not_recognized p))
  ∧ ((∀ n q, n ∈ titles → get_parameter sigma (k_parameters kw) n = Ret q →
             p_ptype q ∈ recognized_ptypes) →
     ∀ msg, composite_init R_sun G M_sun power components kw sigma
            ≠ Raise ValueError msg).
Proof.
  intros Htitles. split.
  - intros loc reg pre name post p Hloc Hreg Hfit Hmass -> Hpre Hp Hbad.
    unfold composite_init, base_init. rewrite Hloc.
    destruct (initial_fit_returns sigma loc reg Hreg Hfit) as [fit ->]. simpl.
    rewrite Hmass by done. simpl. rewrite Htitles. simpl.
    rewrite bind_parameters_app.
    destruct (bind_parameters_returns sigma
                {| a_name := default "New PyMC3Model" (k_name kw); a_time := k_time kw;
                   a_freenames := k_freenames kw; a_parameters := Some loc;
                   a_paramtitles := Some (pre ++ name :: post);
                   a_modeltype := k_modeltype kw;
                   a_nchan := default 1%nat (k_nchan kw); a_fit := fit |}
                loc reg pre ∅ eq_refl Hreg Hpre) as [pm' ->].
    simpl. rewrite (get_parameter_Some _ _ _ _ _ Hreg Hp). simpl.
    rewrite bool_decide_eq_false_2.
    2:{ intros Hin. apply Hbad. unfold recognized_ptypes.
        apply elem_of_cons in Hin as [->|Hin]; [apply list_elem_of_here|].
        apply elem_of_cons in Hin as [->|Hin]; [|by apply elem_of_nil in Hin].
        apply list_elem_of_further, list_elem_of_here. }
    rewrite bool_decide_eq_false_2; [done|].
    intros Hin. apply Hbad. unfold recognized_ptypes.
    by do 2 apply list_elem_of_further.
  - intros Hall msg. unfold composite_init.
    destruct (base_init kw sigma) as [a| |] eqn:Ha; simpl; [| |done].
    2:{ unfold base_init, initial_fit in Ha.
        destruct (k_parameters kw ≫= _) as [reg|]; simpl in Ha; [|congruence].
        destruct (list_find _ _) as [[]|]; simpl in Ha; congruence. }
    apply base_init_paramtitles in Ha as (Ht & Hp & _).
    destruct (mass_check _ _ _ _ sigma a) as [[]| |] eqn:Hm; simpl; [| |done].
    2:{ unfold mass_check in Hm. intros [= -> ->].
        repeat (match type of Hm with
                | context [get_parameter ?s ?l ?n] =>
                    let H := fresh in
                    destruct (get_parameter s l n) eqn:H; simpl in Hm;
                    [| by (injection Hm as -> ->; apply get_parameter_no_value_error in H)
                     | done]
                end).
        by destruct (_ <=? _). }
    rewrite Ht, Htitles. simpl.
    destruct (bind_parameters sigma a titles ∅) as [pm| |] eqn:Hb; simpl; [done| |done].
    intros [= -> ->]. apply bind_parameters_no_value_error in Hb; [done|].
    rewrite Hp. exact Hall.
Qed.

End BindingKinds.

(** *** Induction on model objects *)

Lemma model_induction (P : model → Prop) :
  (∀ a ev, P (Component a ev)) →
  (∀ a s pm cs, Forall P cs → P (Composite a s pm cs)) →
  ∀ m, P m.
Proof.
  intros Hleaf Hnode. fix IH 1. intros [a ev|a s pm cs]; [apply Hleaf|].
  apply Hnode. induction cs as [|c cs IHcs]; constructor; [apply IH|apply IHcs].
Qed.

(** *** interp *)

Lemma set_time_attr_same (a : attrs) : set_time_attr (a_time a) a = a.
Proof. by destruct a. Qed.

Lemma set_time_set_time (t t' : vec) (m : model) :
  set_time t (set_time t' m) = set_time t m.
Proof.
  induction m as [a ev|a s pm cs IH] using model_induction; simpl; [done|].
  f_equal. rewrite map_map. apply map_ext_in. intros c Hc.
  eapply Forall_forall in IH; [exact IH|]. by apply list_elem_of_In.
Qed.

Lemma objects_set_time (t : vec) (m : model) :
  Forall (λ a, a_time a = Some t) (objects (set_time t m)).
Proof.
  induction m as [a ev|a s pm cs IH] using model_induction; simpl.
  - by repeat constructor.
  - constructor; [done|]. apply Forall_forall. intros b Hb.
    apply list_elem_of_join in Hb as (l & Hb & Hl).
    apply list_elem_of_fmap in Hl as (c' & -> & Hc').
    apply list_elem_of_fmap in Hc' as (c & -> & Hc).
    eapply Forall_forall in IH; [|exact Hc].
    eapply Forall_forall in IH; [exact IH|exact Hb].
Qed.

Lemma set_time_consistent (t : vec) (m : model) :
  Forall (λ a, a_time a = Some t) (objects m) → set_time t m = m.
Proof.
  induction m as [a ev|a s pm cs IH] using model_induction; simpl; intros Hall.
  - apply Forall_cons in Hall as [Ha _]. rewrite <- Ha. by rewrite set_time_attr_same.
  - apply Forall_cons in Hall as [Ha Hall]. rewrite <- Ha, set_time_attr_same. f_equal.
    rewrite <- (map_id cs) at 2. apply map_ext_in. intros c Hc.
    apply list_elem_of_In in Hc.
    eapply Forall_forall in IH; [|exact Hc]. apply IH.
    apply Forall_forall. intros b Hb. eapply Forall_forall in Hall; [exact Hall|].
    apply list_elem_of_join. exists (objects c). split; [done|].
    by apply list_elem_of_fmap_2.
Qed.

Section Interp.

Variable sigma : store.
Variable channel : option nat.
Variable kw_time : option vec.

Lemma eval_components_unchanged (ev1 : model → outcome (option vec) * model)
    (cs : list model) (flux : vec) :
  Forall (λ c, (ev1 c).2 = c) cs → (eval_components ev1 cs flux).2 = cs.
Proof.
  revert flux. induction cs as [|c cs IH]; intros flux Hall; simpl; [done|].
  apply Forall_cons in Hall as [Hc Hall].
  destruct (ev1 c) as [r c'] eqn:Hev. simpl in Hc. subst c'.
  destruct r as [[x|]| |]; simpl; try done.
  - destruct (imul flux x) as [flux'| |]; simpl; try done.
    specialize (IH flux' Hall). destruct (eval_components ev1 cs flux'). simpl in *.
    by subst.
  - specialize (IH flux Hall). destruct (eval_components ev1 cs flux). simpl in *.
    by subst.
Qed.

(** Evaluation assigns a time axis only where none is set. *)
Lemma eval_in_unchanged (mode : time_mode) (m : model) :
  Forall (λ a, is_Some (a_time a)) (objects m) →
  assigned mode (attrs_of m) = None →
  (eval_in sigma channel kw_time mode m).2 = m.
Proof.
  revert mode. induction m as [a ev|a s pm cs IH] using model_induction;
    intros mode Hall Hmode; simpl in *.
  - apply Forall_cons in Hall as [[t Ht] _].
    assert (time_after mode a = a_time a) as ->.
    { destruct mode; simpl in *; [done|done|by rewrite Ht]. }
    by rewrite set_time_attr_same.
  - apply Forall_cons in Hall as [[t Ht] Hall].
    assert (time_after mode a = a_time a) as ->.
    { destruct mode; simpl in *; [done|done|by rewrite Ht]. }
    rewrite set_time_attr_same, Hmode, Ht.
    match goal with
    | |- (let '(r, cs') := eval_components ?ev1 cs ?flux in _).2 = _ =>
        pose proof (eval_components_unchanged ev1 cs flux) as Hcs;
        destruct (eval_components ev1 cs flux) as [r cs']
    end.
    simpl in *. f_equal. apply Hcs. clear Hcs.
    apply Forall_forall. intros c Hc.
    assert (Forall (λ a, is_Some (a_time a)) (objects c)) as Hobj.
    { apply Forall_forall. intros b Hb. eapply Forall_forall in Hall; [exact Hall|].
      apply list_elem_of_join. exists (objects c). split; [done|].
      by apply list_elem_of_fmap_2. }
    assert (assigned (IfUnset t) (attrs_of c) = None) as Hnone.
    { assert (is_Some (a_time (attrs_of c))) as [t' Ht'].
      { eapply Forall_forall in Hobj; [exact Hobj|]. destruct c; apply list_elem_of_here. }
      simpl. by rewrite Ht'. }
    destruct (is_gp c).
    + simpl. unfold apply_mode. by rewrite Hnone.
    + eapply Forall_forall in IH; [|exact Hc]. specialize (IH (IfUnset t) Hobj Hnone).
      destruct (eval_in sigma channel kw_time (IfUnset t) c). simpl in *. done.
Qed.

(** C10, as the code has it.  On a model whose time axis is set, interp
    with a valid [new_time] returns the flux that [eval] gives on the
    model with [new_time] assigned, and leaves the model with its old
    time axis assigned again: the model's own time is what it was, and
    every object below a composite has the composite's old time axis,
    so a model whose objects all shared that axis is left as it was.
    When [eval] raises, the time axis is not put back. *)
Theorem interp_restores_time (m : model) (t_old t_new : vec) :
  a_time (attrs_of m) = Some t_old →
  interp sigma channel kw_time (Some t_new) m
  = match (eval sigma channel kw_time (set_time t_new m)).1 with
    | Ret flux => (Ret flux, set_time t_old m)
    | Raise e msg => (Raise e msg, set_time t_new m)
    | OutOfFuel => (OutOfFuel, set_time t_new m)
    end
  ∧ a_time (attrs_of (set_time t_old m)) = a_time (attrs_of m)
  ∧ Forall (λ a, a_time a = Some t_old) (objects (set_time t_old m))
  ∧ (Forall (λ a, a_time a = Some t_old) (objects m) → set_time t_old m = m).
Proof.
  intros Hold. split; [|split; [|split]].
  - unfold interp, eval. simpl. rewrite Hold.
    pose proof (eval_in_unchanged Keep (set_time t_new m)) as Hsame.
    destruct (eval_in sigma channel kw_time Keep (set_time t_new m)) as [r m2].
    simpl in *. rewrite Hsame; [|by eapply Forall_impl; [apply objects_set_time|]; simpl;
                                  intros ? ->; eauto|done].
    destruct r; [|done|done]. by rewrite set_time_set_time.
  - rewrite Hold. by destruct m.
  - apply objects_set_time.
  - apply set_time_consistent.
Qed.

End Interp.

(** A component class for the examples: flat flux on the object's time
    axis. *)
Definition flat_flux : evaluator :=
  λ a _ _ _,
    match a_time a with
    | Some t => Ok (replicate (length t * a_nchan a) 1)
    | None => Err TypeError "object of type 'NoneType' has no len()"
    end.

Definition bare (t : option vec) : attrs :=
  {| a_name := "New PyMC3Model"; a_time := t; a_freenames := None;
     a_parameters := None; a_paramtitles := None; a_modeltype := Some "systematic";
     a_nchan := 1; a_fit := ∅ |}.

(** A composite on the time axis [0, 1] that owns one component whose
    own time axis is [5]. *)
Definition diverged : model :=
  Composite (bare (Some [0; 1])) false ∅ [Component (bare (Some [5])) flat_flux].

Lemma interp_restores_time_witness :
  interp ∅ None None (Some [2; 3]) (Component (bare (Some [0; 1])) flat_flux)
  = (Ret [1; 1], Component (bare (Some [0; 1])) flat_flux).
Proof.
  exact (proj1 (interp_restores_time ∅ None None (Component (bare (Some [0; 1])) flat_flux)
                  [0; 1] [2; 3] eq_refl)).
Defined.

(** The C10 claim taken literally fails for a component that does not
    share the composite's time axis: interp returns, and the component
    is left with the composite's old axis, not with its own. *)
Lemma interp_overwrites_component_time :
  (interp ∅ None None (Some [2; 3]) diverged).1 = Ret [1; 1]
  ∧ map a_time (leaves diverged) = [Some [5]]
  ∧ map a_time (leaves (interp ∅ None None (Some [2; 3]) diverged).2) = [Some [0; 1]].
Proof. repeat split; vm_compute; reflexivity. Qed.

(** And on a model whose time axis is unset, interp evaluates and then
    raises when it assigns [None] back; the new axis stays. *)
Lemma interp_unset_time_raises :
  interp ∅ None None (Some [2; 3]) (Component (bare None) flat_flux)
  = (Raise TypeError not_an_array, Component (bare (Some [2; 3])) flat_flux).
Proof. vm_compute. reflexivity. Qed.

(** *** update *)

(** The value that [update] binds to each name: the one paired with its
    last occurrence in [freenames]. *)
Definition bound_values (newparams : vec) (freenames : list string) : gmap string float :=
  refit ∅ (zip newparams freenames).

(** The two readings of a registry. *)
Definition dict_value (reg : Parameters) (name : string) : option float :=
  match dict reg !! name with
  | Some (PyFloat v :: _) => Some v
  | _ => None
  end.

Definition attribute_value (reg : Parameters) (name : string) : option float :=
  p_value <$> attributes reg !! name.

(** The name has an entry in [dict], with an item 0, and an attribute. *)
Definition registered (reg : Parameters) (name : string) : Prop :=
  (∃ item items, dict reg !! name = Some (item :: items))
  ∧ is_Some (attributes reg !! name).

Lemma refit_mono (f g : gmap string float) (pairs : list (float * string)) :
  f ⊆ g → refit f pairs ⊆ refit g pairs.
Proof.
  revert f g. induction pairs as [|p pairs IH]; intros f g Hfg; simpl; [done|].
  apply IH. by apply insert_mono.
Qed.

Lemma refit_bound (fit : gmap string float) (pairs : list (float * string))
    (name : string) (v : float) :
  refit ∅ pairs !! name = Some v → refit fit pairs !! name = Some v.
Proof.
  intros Hv. eapply lookup_weaken; [exact Hv|]. apply refit_mono, map_empty_subseteq.
Qed.

Lemma rebind_one_returns (reg : Parameters) (v : float) (n : string) :
  registered reg n →
  ∃ reg', rebind_one reg v n = (Ret (), reg')
    ∧ (∀ k, registered reg k → registered reg' k)
    ∧ dict_value reg' n = Some v ∧ attribute_value reg' n = Some v
    ∧ (∀ k, k ≠ n → dict_value reg' k = dict_value reg k
                    ∧ attribute_value reg' k = attribute_value reg k).
Proof.
  intros [(item & items & Hd) [q Hq]]. unfold rebind_one. rewrite Hd, Hq.
  eexists. split; [done|]. split; [|split; [|split]].
  - intros k [(item' & items' & Hd') [q' Hq']]. unfold registered. simpl.
    destruct (decide (n = k)) as [->|Hne].
    + rewrite !lookup_insert_eq. by eauto.
    + rewrite !lookup_insert_ne by done. by eauto.
  - unfold dict_value. simpl. by rewrite lookup_insert_eq.
  - unfold attribute_value. simpl. by rewrite lookup_insert_eq.
  - intros k Hk. unfold dict_value, attribute_value. simpl.
    by rewrite !lookup_insert_ne by done.
Qed.

Lemma rebind_returns (reg : Parameters) (pairs : list (float * string))
    (acc : gmap string float) :
  (∀ p, p ∈ pairs → registered reg p.2) →
  (∀ name v, acc !! name = Some v →
     dict_value reg name = Some v ∧ attribute_value reg name = Some v) →
  ∃ reg', rebind reg pairs = (Ret (), reg')
    ∧ (∀ k, registered reg k → registered reg' k)
    ∧ (∀ name v, refit acc pairs !! name = Some v →
         dict_value reg' name = Some v ∧ attribute_value reg' name = Some v).
Proof.
  revert reg acc. induction pairs as [|[val arg] pairs IH]; intros reg acc Hreg Hacc; simpl.
  - by eexists.
  - destruct (rebind_one_returns reg val arg) as (reg1 & -> & Hkeep & Hd & Ha & Hother).
    { apply (Hreg (val, arg)), list_elem_of_here. }
    simpl. destruct (IH reg1 (<[arg := val]> acc)) as (reg' & -> & Hkeep' & Hbound).
    + intros p Hp. apply Hkeep, Hreg. by apply list_elem_of_further.
    + intros name v Hv. destruct (decide (arg = name)) as [<-|Hne].
      * rewrite lookup_insert_eq in Hv. by injection Hv as <-.
      * rewrite lookup_insert_ne in Hv by done.
        destruct (Hother name) as [-> ->]; [done|]. by apply Hacc.
    + eexists. split; [done|]. split; [|done]. intros k Hk. by apply Hkeep', Hkeep.
Qed.

Section Update.

Variable newparams : vec.
Variable freenames : list string.

(** The registry at [loc] knows every name that is about to be bound. *)
Definition knows (sigma : store) (loc : nat) : Prop :=
  ∃ reg, sigma !! loc = Some reg
    ∧ ∀ p, p ∈ zip newparams freenames → registered reg p.2.

(** Both readings of the registry at [loc] give the bound values. *)
Definition rebound (sigma : store) (loc : nat) : Prop :=
  ∃ reg, sigma !! loc = Some reg
    ∧ ∀ name v, bound_values newparams freenames !! name = Some v →
        dict_value reg name = Some v ∧ attribute_value reg name = Some v.

(** The component matches names by the caller's list and reads a
    registry that knows them. *)
Definition ready (sigma : store) (a : attrs) : Prop :=
  a_freenames a = Some freenames ∧ ∃ loc, a_parameters a = Some loc ∧ knows sigma loc.

(** The component's cache and its registry give the bound values. *)
Definition consistent (sigma : store) (a : attrs) : Prop :=
  ∀ name v, bound_values newparams freenames !! name = Some v →
    a_fit a !! name = Some v
    ∧ ∃ loc reg, a_parameters a = Some loc ∧ sigma !! loc = Some reg
        ∧ dict_value reg name = Some v ∧ attribute_value reg name = Some v.

(** What a later update of another component leaves of [consistent]. *)
Definition settled (sigma : store) (a : attrs) : Prop :=
  (∀ name v, bound_values newparams freenames !! name = Some v →
     a_fit a !! name = Some v)
  ∧ ∃ loc, a_parameters a = Some loc ∧ rebound sigma loc.

Lemma settled_consistent (sigma : store) (a : attrs) :
  settled sigma a → consistent sigma a.
Proof.
  intros [Hfit (loc & Hloc & reg & Hreg & Hb)] name v Hv.
  split; [by apply Hfit|]. exists loc, reg. destruct (Hb name v Hv). by eauto.
Qed.

Lemma update_component_spec (a : attrs) (sigma : store) :
  ready sigma a →
  ∃ a' sigma', update_component a newparams sigma = (Ret (), a', sigma')
    ∧ (∀ loc, knows sigma loc → knows sigma' loc)
    ∧ (∀ loc, rebound sigma loc → rebound sigma' loc)
    ∧ settled sigma' a'.
Proof.
  intros [Hnames (loc & Hloc & reg & Hreg & Hknown)].
  unfold update_component. rewrite Hnames.
  destruct (zip newparams freenames) as [|p pairs] eqn:Hpairs.
  { exists a, sigma. split; [done|]. split; [done|]. split; [done|].
    split.
    - intros name v Hv. unfold bound_values in Hv. rewrite Hpairs in Hv. done.
    - exists loc. split; [done|]. exists reg. split; [done|].
      intros name v Hv. unfold bound_values in Hv. rewrite Hpairs in Hv. done. }
  rewrite Hloc, Hreg.
  destruct (rebind_returns reg (p :: pairs) ∅) as (reg' & -> & Hkeep & Hbound);
    [done|done|].
  eexists _, _. split; [done|]. split; [|split; [|split]].
  - intros loc' (reg0 & Hreg0 & Hk0). destruct (decide (loc = loc')) as [<-|Hne].
    + exists reg'. rewrite lookup_insert_eq. split; [done|].
      intros q Hq. apply Hkeep. rewrite Hreg in Hreg0. injection Hreg0 as <-.
      by apply Hk0.
    + exists reg0. by rewrite lookup_insert_ne.
  - intros loc' (reg0 & Hreg0 & Hb0). destruct (decide (loc = loc')) as [<-|Hne].
    + exists reg'. rewrite lookup_insert_eq. split; [done|].
      intros name v Hv. apply Hbound. unfold bound_values in Hv. by rewrite Hpairs in Hv.
    + exists reg0. rewrite lookup_insert_ne by done. split; [done|exact Hb0].
  - intros name v Hv. apply (refit_bound (a_fit a) (p :: pairs)).
    unfold bound_values in Hv. by rewrite Hpairs in Hv.
  - exists loc. split; [done|]. exists reg'. rewrite lookup_insert_eq. split; [done|].
    intros name v Hv. apply Hbound. unfold bound_values in Hv. by rewrite Hpairs in Hv.
Qed.

(** The evaluators of the components, in order. *)
Fixpoint evaluators (m : model) : list evaluator :=
  match m with
  | Component _ ev => [ev]
  | Composite _ _ _ cs => mjoin (map evaluators cs)
  end.

Lemma settled_mono (sigma sigma' : store) (a : attrs) :
  (∀ loc, rebound sigma loc → rebound sigma' loc) → settled sigma a → settled sigma' a.
Proof. intros Hmono [Hfit (loc & Hloc & Hb)]. split; [done|]. by eauto. Qed.

Lemma ready_mono (sigma sigma' : store) (a : attrs) :
  (∀ loc, knows sigma loc → knows sigma' loc) → ready sigma a → ready sigma' a.
Proof. intros Hmono [Hn (loc & Hloc & Hk)]. split; [done|]. by eauto. Qed.

Lemma update_spec (m : model) (sigma : store) :
  Forall (ready sigma) (leaves m) →
  ∃ m' sigma', update newparams m sigma = (Ret (), m', sigma')
    ∧ (∀ loc, knows sigma loc → knows sigma' loc)
    ∧ (∀ loc, rebound sigma loc → rebound sigma' loc)
    ∧ Forall (settled sigma') (leaves m')
    ∧ evaluators m' = evaluators m.
Proof.
  revert sigma. induction m as [a ev|a s pm cs IH] using model_induction;
    intros sigma Hready; simpl in *.
  - apply Forall_cons in Hready as [Ha _].
    destruct (update_component_spec a sigma Ha) as (a' & sigma' & -> & Hk & Hb & Hs).
    eexists _, _. split; [done|]. split; [done|]. split; [done|].
    split; [|done]. by constructor.
  - assert (∃ cs' sigma',
      update_components (update newparams) cs sigma = (Ret (), cs', sigma')
      ∧ (∀ loc, knows sigma loc → knows sigma' loc)
      ∧ (∀ loc, rebound sigma loc → rebound sigma' loc)
      ∧ Forall (settled sigma') (mjoin (map leaves cs'))
      ∧ mjoin (map evaluators cs') = mjoin (map evaluators cs)) as Hcs.
    { clear a s pm. revert sigma Hready.
      induction cs as [|c cs IHcs]; intros sigma Hready; simpl in *.
      - eexists _, _. split; [done|]. by repeat split.
      - apply Forall_cons in IH as [IHc IH]. apply Forall_app in Hready as [Hc Hrest].
        destruct (IHc sigma Hc) as (c' & sigma1 & -> & Hk1 & Hb1 & Hs1 & He1).
        destruct (IHcs IH sigma1) as (cs' & sigma2 & -> & Hk2 & Hb2 & Hs2 & He2).
        { eapply Forall_impl; [exact Hrest|]. intros b. by apply ready_mono. }
        eexists _, _. split; [done|]. split; [by eauto|]. split; [by eauto|].
        split.
        + simpl. apply Forall_app. split; [|done].
          eapply Forall_impl; [exact Hs1|]. intros b. by apply settled_mono.
        + simpl. by rewrite He1, He2. }
    destruct Hcs as (cs' & sigma' & -> & Hk & Hb & Hs & He).
    eexists _, _. split; [done|]. by repeat split.
Qed.

(** C7, as the code has it.  [update] pairs the new values with
    [freenames] by position, each component with its own list;
    when every component matches names by the one list and reads a registry
    in which those names are registered, the call returns, and after it,
    for every component (the model itself, or each component below a
    composite) and every name that was paired, the component's cache
    [fit], item 0 of the registry's [dict] entry and the value of the
    registry's [Parameter] all hold the value paired with the name (with
    its last occurrence, should the list repeat a name).  The components
    keep their evaluators, so a later [eval] reads these values. *)
Theorem update_keeps_views_consistent (m : model) (sigma : store) :
  Forall (ready sigma) (leaves m) →
  ∃ m' sigma', update newparams m sigma = (Ret (), m', sigma')
    ∧ Forall (consistent sigma') (leaves m')
    ∧ evaluators m' = evaluators m
    ∧ (NoDup freenames → ∀ i name v,
         freenames !! i = Some name → newparams !! i = Some v →
         bound_values newparams freenames !! name = Some v).
Proof.
  intros Hready.
  destruct (update_spec m sigma Hready) as (m' & sigma' & Hup & _ & _ & Hs & He).
  exists m', sigma'. split; [done|]. split; [|split; [done|]].
  - eapply Forall_impl; [exact Hs|]. intros a. apply settled_consistent.
  - clear. unfold bound_values. intros Hnodup.
    assert (∀ (acc : gmap string float) i name v,
      freenames !! i = Some name → newparams !! i = Some v →
      refit acc (zip newparams freenames) !! name = Some v) as Hgen.
    { revert newparams. induction Hnodup as [|n names Hn Hnodup IH];
        intros vals acc i name v Hname Hv; [done|].
      destruct vals as [|v0 vals]; [done|]. destruct i as [|i]; simpl in *.
      - injection Hname as ->. injection Hv as ->.
        assert (∀ (pairs : list (float * string)) (f : gmap string float),
          name ∉ pairs.*2 → refit f pairs !! name = f !! name) as Hskip.
        { induction pairs as [|p pairs IHp]; intros f Hnot; simpl; [done|].
          rewrite IHp.
          - apply lookup_insert_ne. intros Heq. apply Hnot. simpl. rewrite Heq.
            apply list_elem_of_here.
          - intros Hin. apply Hnot. simpl. by apply list_elem_of_further. }
        rewrite Hskip; [by rewrite lookup_insert_eq|].
        intros Hin. apply Hn.
        apply list_elem_of_fmap in Hin as ([v' n'] & -> & Hin). simpl.
        apply list_elem_of_lookup in Hin as [k Hk].
        apply lookup_zip_with_Some in Hk as (? & ? & [= <- <-] & _ & Hk).
        by eapply list_elem_of_lookup_2.
      - by eapply IH. }
    intros i name v. apply Hgen.
Qed.

End Update.

(** *** A worked registry *)

(** The entry of [Parameters.dict] for a parameter. *)
Definition dict_entry (q : Param) : list pyval :=
  [PyFloat (p_value q); PyStr (p_ptype q); PyFloat (p_priorpar1 q);
   PyFloat (p_priorpar2 q); PyStr (p_prior q)].

(** The registry that holds the given parameters under their names. *)
Definition registry_of (qs : list Param) : Parameters :=
  let named : gmap string Param := list_to_map ((λ q, (p_name q, q)) <$> qs) in
  {| dict := dict_entry <$> named; attributes := named |}.

Lemma registry_of_complete (qs : list Param) (key : string) :
  key ∈ dom (dict (registry_of qs)) → is_Some (attributes (registry_of qs) !! key).
Proof. simpl. rewrite dom_fmap. by intros ?%elem_of_dom. Qed.

Definition fixed_param (name : string) (v : float) : Param :=
  {| p_name := name; p_value := v; p_ptype := "fixed"; p_priorpar1 := 0;
     p_priorpar2 := 0; p_prior := EmptyString |}.

Definition free_param (name : string) (v lo hi : float) : Param :=
  {| p_name := name; p_value := v; p_ptype := "free"; p_priorpar1 := lo;
     p_priorpar2 := hi; p_prior := "U" |}.

Definition odd_param : Param :=
  {| p_name := "foo"; p_value := 1; p_ptype := "bogus"; p_priorpar1 := 0;
     p_priorpar2 := 1; p_prior := "U" |}.

(** A hot Jupiter around a solar-mass star, and the same with [a = 0],
    which implies a planetary mass of [-Ms]. *)
Definition system (a : float) : store :=
  {[ 0%nat := registry_of [fixed_param "a" a; fixed_param "Rs" 1; fixed_param "per" 3;
                           fixed_param "Ms" 1; free_param "rp" 0.1 0 1; odd_param] ]}.

Definition system_titles : list string := ["a"; "Rs"; "per"; "Ms"; "rp"; "foo"].

Definition system_kwargs : kwargs :=
  {| k_name := None; k_time := None; k_freenames := Some ["rp"];
     k_parameters := Some 0%nat; k_paramtitles := Some system_titles;
     k_modeltype := None; k_nchan := Some 2%nat |}.

(** [**] at the two exponents the mass check uses: the square, and the
    power 3/2 as [x * sqrt x], which is exact at 0 and within rounding
    of the library's power elsewhere. *)
Definition power_of (x y : float) : float :=
  if y =? 2 then x * x else x * sqrt x.

Definition solar_radius : float := 695700000.
Definition gravitation : float := 6.6743e-11.
Definition solar_mass : float := 1.988409870698051e30.

Lemma unrecognized_ptype_raises_witness :
  composite_init solar_radius gravitation solar_mass power_of [] system_kwargs (system 10)
  = Raise ValueError "ptype bogus for parameter foo is not recognized.".
Proof.
  refine (proj1 (unrecognized_ptype_raises solar_radius gravitation solar_mass power_of
                   [] system_kwargs (system 10) system_titles eq_refl)
            0%nat _ ["a"; "Rs"; "per"; "Ms"; "rp"] "foo" [] odd_param
            eq_refl eq_refl _ _ eq_refl _ eq_refl _).
  - apply registry_of_complete.
  - intros a Ha. unfold mass_check. rewrite Ha. vm_compute. reflexivity.
  - intros n Hn.
    repeat (apply elem_of_cons in Hn as [->|Hn];
            [eexists; split; [vm_compute; reflexivity|]|]).
    + left. apply list_elem_of_further, list_elem_of_here.
    + left. apply list_elem_of_further, list_elem_of_here.
    + left. apply list_elem_of_further, list_elem_of_here.
    + left. apply list_elem_of_further, list_elem_of_here.
    + right. split; apply list_elem_of_here.
    + by apply elem_of_nil in Hn.
  - unfold recognized_ptypes. simpl. intros Hin.
    repeat (apply elem_of_cons in Hin as [Hin|Hin]; [discriminate|]).
    by apply elem_of_nil in Hin.
Defined.

(** The C9 claim taken literally fails when the masses are incompatible
    too: the same model with [a = 0] lists the parameter [foo] of ptype
    [bogus], yet construction stops at the mass check, with an error
    that names neither. *)
Lemma mass_check_comes_first :
  composite_init solar_radius gravitation solar_mass power_of [] system_kwargs (system 0)
  = Raise AssertionError incompatible_mass
  ∧ get_parameter (system 0) (Some 0%nat) "foo" = Ret odd_param.
Proof. split; vm_compute; reflexivity. Qed.

(** Multiplying two components of that system, for C3. *)
Definition planet : model :=
  Component {| a_name := "transit"; a_time := Some [0; 1]; a_freenames := Some ["rp"];
               a_parameters := Some 0%nat; a_paramtitles := Some system_titles;
               a_modeltype := Some "physical"; a_nchan := 1; a_fit := ∅ |} flat_flux.

Definition ramp : model :=
  Component {| a_name := "ramp"; a_time := Some [0; 1]; a_freenames := Some ["rp"];
               a_parameters := Some 0%nat; a_paramtitles := Some system_titles;
               a_modeltype := Some "systematic"; a_nchan := 1; a_fit := ∅ |} flat_flux.

Lemma planet_times_ramp :
  mul solar_radius gravitation solar_mass power_of planet ramp (system 10)
  = Raise TypeError "'NoneType' object is not iterable".
Proof. vm_compute. reflexivity. Qed.

(** The two components under one composite, all on the registry of the
    system. *)
Definition light_curve : model :=
  Composite {| a_name := "composite"; a_time := Some [0; 1]; a_freenames := Some ["rp"];
               a_parameters := Some 0%nat; a_paramtitles := Some system_titles;
               a_modeltype := None; a_nchan := 1; a_fit := {[ "rp" := 0.1 ]} |}
            false ∅ [planet; ramp].

Lemma system_knows_rp : knows [0.2] ["rp"] (system 10) 0.
Proof.
  eexists. split; [reflexivity|]. intros p Hp.
  apply list_elem_of_singleton in Hp as ->. split.
  - eexists _, _. vm_compute. reflexivity.
  - eexists. vm_compute. reflexivity.
Defined.

Lemma update_keeps_views_consistent_witness :
  ∃ m' sigma', update [0.2] light_curve (system 10) = (Ret (), m', sigma')
    ∧ Forall (consistent [0.2] ["rp"] sigma') (leaves m')
    ∧ evaluators m' = evaluators light_curve
    ∧ (NoDup ["rp"] → ∀ i name v,
         ["rp"] !! i = Some name → [0.2] !! i = Some v →
         bound_values [0.2] ["rp"] !! name = Some v).
Proof.
  apply (update_keeps_views_consistent [0.2] ["rp"] light_curve (system 10)).
  repeat constructor; simpl; eexists; (split; [reflexivity|apply system_knows_rp]).
Defined.

(** A composite's [update] is the loop over its components: the
    composite's own attributes, its [fit] object among them, are not
    rebound.  [eval] does not read them. *)
Lemma update_composite_own_attrs (newparams : vec) (a : attrs) (s : bool)
    (pm : gmap string rv) (cs : list model) (sigma : store) :
  attrs_of (update newparams (Composite a s pm cs) sigma).1.2 = a.
Proof.
  simpl. by destruct (update_components (update newparams) cs sigma) as [[r cs'] sigma'].
Qed.

(** A registry with two free parameters, and a composite whose two
    components match names by lists of their own: the transit by [rp],
    the ramp by [c0].  The composite lists both. *)
Definition two_free : store :=
  {[ 0%nat := registry_of [free_param "rp" 0.1 0 1; free_param "c0" 1 0 5] ]}.

Definition ramp_c0 : model :=
  Component {| a_name := "ramp"; a_time := Some [0; 1]; a_freenames := Some ["c0"];
               a_parameters := Some 0%nat; a_paramtitles := Some ["rp"; "c0"];
               a_modeltype := Some "systematic"; a_nchan := 1;
               a_fit := {[ "c0" := 1 ]} |} flat_flux.

Definition own_lists : model :=
  Composite {| a_name := "composite"; a_time := Some [0; 1];
               a_freenames := Some ["rp"; "c0"]; a_parameters := Some 0%nat;
               a_paramtitles := Some ["rp"; "c0"]; a_modeltype := None; a_nchan := 1;
               a_fit := {[ "rp" := 0.1; "c0" := 1 ]} |}
            false ∅ [planet; ramp_c0].

(** The C7 claim taken literally fails on that composite.  The values
    [0.2, 3] matched by position to its list [rp, c0] give [c0 = 3]; the
    call returns, and the registry and the ramp's cache hold
    [c0 = 0.2], since each component pairs the values with its own
    list from the start.  The composite's own cache is not written: it
    still holds [rp = 0.1]. *)
Lemma update_misbinds_own_lists :
  (update [0.2; 3] own_lists two_free).1.1 = Ret ()
  ∧ bound_values [0.2; 3] ["rp"; "c0"] !! "c0" = Some 3
  ∧ ((update [0.2; 3] own_lists two_free).2 !! 0%nat)
      ≫= (λ reg, dict_value reg "c0") = Some 0.2
  ∧ ((update [0.2; 3] own_lists two_free).2 !! 0%nat)
      ≫= (λ reg, attribute_value reg "c0") = Some 0.2
  ∧ map (λ a, a_fit a !! "c0") (leaves (update [0.2; 3] own_lists two_free).1.2)
    = [None; Some 0.2]
  ∧ a_fit (attrs_of (update [0.2; 3] own_lists two_free).1.2) !! "rp" = Some 0.1.
Proof. repeat split; vm_compute; reflexivity. Qed.

(** *** The composite's flux as a product *)

(** The elementwise product of the fluxes, taken in order from ones. *)
Definition product_flux (n : nat) (fluxes : list vec) : vec :=
  foldl (zip_with PrimFloat.mul) (replicate n 1) fluxes.

Section Product.

Variable sigma : store.
Variable channel : option nat.
Variable kw_time : option vec.

(** The flux of each component that is not a GP, on the composite's
    time axis [t]. *)
Definition component_fluxes (t : vec) (cs : list model) : list vec :=
  omap (λ c, if is_gp c then None
             else match (eval_in sigma channel kw_time (IfUnset t) c).1 with
                  | Ret x => Some x
                  | _ => None
                  end) cs.

Lemma imul_same_length (flux x : vec) :
  length x = length flux → imul flux x = Ret (zip_with PrimFloat.mul flux x).
Proof. intros Hlen. unfold imul. by rewrite decide_True. Qed.

(** X9.  The first half of C3: a composite whose time axis is set, and whose
    components that are not GPs each return a flux of length
    [len(time) * nchan], evaluates to the elementwise product of these
    fluxes, of that same length. *)
Lemma composite_eval_is_product (a : attrs) (s : bool) (pm : gmap string rv)
    (cs : list model) (t : vec) :
  a_time a = Some t →
  Forall (λ c, is_gp c = false →
            ∃ x, (eval_in sigma channel kw_time (IfUnset t) c).1 = Ret x
                 ∧ length x = (length t * a_nchan a)%nat) cs →
  (eval sigma channel kw_time (Composite a s pm cs)).1
  = Ret (product_flux (length t * a_nchan a) (component_fluxes t cs))
  ∧ length (product_flux (length t * a_nchan a) (component_fluxes t cs))
    = (length t * a_nchan a)%nat.
Proof.
  intros Ht Hcs. unfold eval, product_flux. simpl. rewrite Ht.
  set (n := (length t * a_nchan a)%nat) in *.
  set (ev1 := λ c : model,
         if is_gp c then (Ret None, apply_mode (IfUnset t) c)
         else let '(r, c') := eval_in sigma channel kw_time (IfUnset t) c in
              (match r with
               | Ret x => Ret (Some x)
               | Raise e msg => Raise e msg
               | OutOfFuel => OutOfFuel
               end, c')).
  assert (∀ flux, length flux = n →
            (eval_components ev1 cs flux).1
            = Ret (foldl (zip_with PrimFloat.mul) flux (component_fluxes t cs))
            ∧ length (foldl (zip_with PrimFloat.mul) flux (component_fluxes t cs)) = n)
    as Hloop.
  { clearbody n. induction cs as [|c cs IH]; intros flux Hlen; simpl; [done|].
    apply Forall_cons in Hcs as [Hc Hcs]. unfold ev1 at 1. destruct (is_gp c) eqn:Hgp.
    - specialize (IH Hcs flux Hlen).
      destruct (eval_components ev1 cs flux) as [r cs']. simpl in *. done.
    - destruct (Hc eq_refl) as (x & Hx & Hlx).
      destruct (eval_in sigma channel kw_time (IfUnset t) c) as [r c']. simpl in *.
      subst r. rewrite imul_same_length by lia.
      assert (length (zip_with PrimFloat.mul flux x) = n) as Hlen'
        by (rewrite length_zip_with; lia).
      specialize (IH Hcs _ Hlen').
      destruct (eval_components ev1 cs (zip_with PrimFloat.mul flux x)) as [r cs'].
      simpl in *. done. }
  destruct (Hloop (replicate n 1) (length_replicate n 1)) as [Hr Hl].
  fold ev1. destruct (eval_components ev1 cs (replicate n 1)) as [r cs']. simpl in *.
  done.
Qed.

End Product.

(** *** The variables of a latent parameter *)

(** The name of the variable of [parname] for channel [c]: the bare name
    for channel 0, and [parname_c] otherwise. *)
Definition channel_name (parname : string) (c : nat) : string :=
  if decide (c ≠ 0%nat) then parname +:+ "_" +:+ pretty c else parname.

Lemma channel_name_inj (parname : string) (c c' : nat) :
  channel_name parname c = channel_name parname c' → c = c'.
Proof.
  assert (∀ k : nat, parname +:+ "_" +:+ pretty k ≠ parname) as Hne.
  { intros k Hk.
    assert (parname +:+ "_" +:+ pretty k = parname +:+ "") as Hk'
      by by rewrite StepModel.append_empty_r.
    apply (inj (String.append parname)) in Hk'. discriminate Hk'. }
  unfold channel_name.
  destruct (decide (c ≠ 0%nat)) as [Hc|Hc], (decide (c' ≠ 0%nat)) as [Hc'|Hc'];
    intros Heq.
  - apply (inj (String.append parname)) in Heq.
    apply (inj (String.append "_")) in Heq. by apply (inj pretty) in Heq.
  - by destruct (Hne c).
  - by destruct (Hne c').
  - lia.
Qed.

Lemma prior_variable_any_name (parname k k' : string) (param : Param) :
  is_Some (prior_variable parname k param) → is_Some (prior_variable parname k' param).
Proof.
  unfold prior_variable. intros Hk.
  destruct (String.eqb (p_prior param) "U"); [by eexists|].
  destruct (String.eqb (p_prior param) "N").
  { destruct (bool_decide _); [by eexists|]. destruct (String.eqb _ _); by eexists. }
  destruct (String.eqb (p_prior param) "LU"); [by eexists|done].
Qed.

(** The channels after channel 0 of a parameter that is not free. *)
Lemma bind_aliases (parname : string) (param : Param) (v0 : rv) (chans : list nat)
    (pm : gmap string rv) :
  String.eqb (p_ptype param) "free" = false →
  (∀ c, c ∈ chans → c ≠ 0%nat) → pm !! parname = Some v0 →
  ∃ pm', bind_channels parname param chans pm = Ret pm'
    ∧ pm' !! parname = Some v0
    ∧ (∀ c, c ∈ chans → pm' !! channel_name parname c = Some v0)
    ∧ (∀ k, (∀ c, c ∈ chans → k ≠ channel_name parname c) → pm' !! k = pm !! k).
Proof.
  intros Hfree. revert pm. induction chans as [|c chans IH]; intros pm Hchans Hpm; simpl.
  - exists pm. split; [done|]. split; [done|]. split; [|done].
    by intros c ?%elem_of_nil.
  - fold (channel_name parname c). rewrite Hfree.
    rewrite bool_decide_eq_false_2 by (apply Hchans, list_elem_of_here). simpl.
    rewrite Hpm.
    destruct (IH (<[channel_name parname c := v0]> pm)) as (pm' & Hrun & Hp & Hin & Hout).
    { intros c' Hc'. by apply Hchans, list_elem_of_further. }
    { destruct (decide (channel_name parname c = parname)) as [->|Hne].
      - by rewrite lookup_insert_eq.
      - by rewrite lookup_insert_ne. }
    exists pm'. split; [done|]. split; [done|]. split.
    + intros c' Hc'. apply elem_of_cons in Hc' as [->|Hc']; [|by apply Hin].
      destruct (decide (c ∈ chans)) as [Hc|Hc]; [by apply Hin|].
      rewrite Hout; [by rewrite lookup_insert_eq|].
      intros c' Hc' Heq. apply channel_name_inj in Heq. by subst.
    + intros k Hk. rewrite Hout.
      * apply lookup_insert_ne. intros Heq.
        by apply (Hk c (list_elem_of_here _ _)).
      * intros c' Hc'. by apply Hk, list_elem_of_further.
Qed.

(** X11.  A parameter that is latent and not free (shared, white_free or
    white_fixed) has one variable: the one made for channel 0 from its
    prior.  The name of every further channel is bound to that same
    variable, and no other name is bound. *)
Theorem shared_channels_share_variable (parname : string) (param : Param) (n : nat)
    (pm : gmap string rv) (v0 : rv) :
  String.eqb (p_ptype param) "free" = false →
  prior_variable parname parname param = Some v0 →
  ∃ pm', bind_channels parname param (seq 0 (S n)) pm = Ret pm'
    ∧ (∀ c, c ≤ n → pm' !! channel_name parname c = Some v0)
    ∧ (∀ k, (∀ c, c ≤ n → k ≠ channel_name parname c) → pm' !! k = pm !! k).
Proof.
  intros Hfree Hv0. simpl. rewrite Hfree, Hv0. simpl.
  destruct (bind_aliases parname param v0 (seq 1 n) (<[parname := v0]> pm) Hfree)
    as (pm' & Hrun & Hp & Hin & Hout).
  { intros c Hc%elem_of_seq. lia. }
  { by rewrite lookup_insert_eq. }
  exists pm'. split; [done|]. split.
  - intros c Hc. destruct c as [|c]; [exact Hp|]. apply Hin, elem_of_seq. lia.
  - intros k Hk. rewrite Hout.
    + apply lookup_insert_ne. intros Heq. by apply (Hk 0%nat ltac:(lia)).
    + intros c Hc%elem_of_seq. apply Hk. lia.
Qed.

Lemma bind_free (parname : string) (param : Param) (chans : list nat)
    (pm : gmap string rv) :
  String.eqb (p_ptype param) "free" = true →
  is_Some (prior_variable parname parname param) → NoDup chans →
  ∃ pm', bind_channels parname param chans pm = Ret pm'
    ∧ (∀ c, c ∈ chans →
         pm' !! channel_name parname c
         = prior_variable parname (channel_name parname c) param)
    ∧ (∀ k, (∀ c, c ∈ chans → k ≠ channel_name parname c) → pm' !! k = pm !! k).
Proof.
  intros Hfree Hprior Hnodup. revert pm.
  induction Hnodup as [|c chans Hc Hnodup IH]; intros pm; simpl.
  - exists pm. split; [done|]. split; [|done]. by intros c ?%elem_of_nil.
  - fold (channel_name parname c). rewrite Hfree. simpl.
    destruct (prior_variable_any_name parname parname (channel_name parname c) param
                Hprior) as [v Hv].
    rewrite Hv.
    destruct (IH (<[channel_name parname c := v]> pm)) as (pm' & Hrun & Hin & Hout).
    exists pm'. split; [done|]. split.
    + intros c' Hc'. apply elem_of_cons in Hc' as [->|Hc']; [|by apply Hin].
      rewrite Hout; [by rewrite lookup_insert_eq|].
      intros c' Hc' Heq. apply channel_name_inj in Heq. by subst.
    + intros k Hk. rewrite Hout.
      * apply lookup_insert_ne. intros Heq.
        by apply (Hk c (list_elem_of_here _ _)).
      * intros c' Hc'. by apply Hk, list_elem_of_further.
Qed.

(** X12.  A free parameter has one variable per channel, each made from the
    same prior under the channel's own name; no other name is bound. *)
Theorem free_channels_own_variables (parname : string) (param : Param) (n : nat)
    (pm : gmap string rv) :
  String.eqb (p_ptype param) "free" = true →
  is_Some (prior_variable parname parname param) →
  ∃ pm', bind_channels parname param (seq 0 n) pm = Ret pm'
    ∧ (∀ c, c < n →
         pm' !! channel_name parname c
         = prior_variable parname (channel_name parname c) param)
    ∧ (∀ k, (∀ c, c < n → k ≠ channel_name parname c) → pm' !! k = pm !! k).
Proof.
  intros Hfree Hprior.
  destruct (bind_free parname param (seq 0 n) pm Hfree Hprior (NoDup_seq 0 n))
    as (pm' & Hrun & Hin & Hout).
  exists pm'. split; [done|]. split.
  - intros c Hc. apply Hin, elem_of_seq. lia.
  - intros k Hk. apply Hout. intros c Hc%elem_of_seq. apply Hk. lia.
Qed.

(** X13.  A prior family other than U, N and LU creates no variable, and
    nothing is raised for that.  With two channels or more, a parameter
    that is not free then fails on channel 1, which looks up the
    variable of channel 0: [AttributeError]. *)
Theorem unknown_prior_shared_raises (parname : string) (param : Param) (n : nat)
    (pm : gmap string rv) :
  String.eqb (p_ptype param) "free" = false →
  prior_variable parname parname param = None →
  pm !! parname = None →
  bind_channels parname param (seq 0 (S (S n))) pm
  = Raise AttributeError (no_attribute parname).
Proof. intros Hfree Hprior Hpm. simpl. by rewrite Hfree, Hprior, Hpm. Qed.

(** *** What update leaves alone *)

(** All of a [Parameter] but its value. *)
Definition kind_of (p : Param) : string * string * string * float * float :=
  (p_name p, p_ptype p, p_prior p, p_priorpar1 p, p_priorpar2 p).

(** The names that [update] pairs with a value on a component:
    [zip(newparams, self.freenames)] stops at the shorter of the two. *)
Definition paired_names (newparams : vec) (a : attrs) : list string :=
  match a_freenames a with
  | Some names => (zip newparams names).*2
  | None => []
  end.

(** From [reg] to [reg'] only values moved, and only under the names in
    [touched]: every parameter keeps its name, binding kind and prior,
    every [dict] entry keeps its items after item 0, and the names that
    are not in [touched] keep their entry and their [Parameter]. *)
Definition keeps (touched : list string) (reg reg' : Parameters) : Prop :=
  ∀ name,
    kind_of <$> attributes reg' !! name = kind_of <$> attributes reg !! name
    ∧ tail <$> dict reg' !! name = tail <$> dict reg !! name
    ∧ (name ∉ touched →
       dict reg' !! name = dict reg !! name
       ∧ attributes reg' !! name = attributes reg !! name).

Lemma keeps_refl (touched : list string) (reg : Parameters) : keeps touched reg reg.
Proof. by intros name. Qed.

Lemma keeps_trans (t1 t2 : list string) (r1 r2 r3 : Parameters) :
  keeps t1 r1 r2 → keeps t2 r2 r3 → keeps (t1 ++ t2) r1 r3.
Proof.
  intros H12 H23 name. destruct (H12 name) as (Hk1 & Hd1 & Ho1).
  destruct (H23 name) as (Hk2 & Hd2 & Ho2).
  split; [by rewrite Hk2|]. split; [by rewrite Hd2|].
  intros Hname. apply not_elem_of_app in Hname as [Hn1 Hn2].
  destruct (Ho1 Hn1) as [<- <-]. by apply Ho2.
Qed.

Lemma rebind_one_keeps (reg reg' : Parameters) (val : float) (arg : string) :
  rebind_one reg val arg = (Ret (), reg') → keeps [arg] reg reg'.
Proof.
  unfold rebind_one. destruct (dict reg !! arg) as [[|item items]|] eqn:Hd; [done| |done].
  destruct (attributes reg !! arg) as [q|] eqn:Hq; [|done].
  intros [= <-] name. simpl. destruct (decide (arg = name)) as [<-|Hne].
  - rewrite !lookup_insert_eq, Hd, Hq. simpl. split; [done|]. split; [done|].
    intros Hname. destruct Hname. apply list_elem_of_here.
  - by rewrite !lookup_insert_ne.
Qed.

Lemma rebind_keeps (reg reg' : Parameters) (pairs : list (float * string)) :
  rebind reg pairs = (Ret (), reg') → keeps pairs.*2 reg reg'.
Proof.
  revert reg. induction pairs as [|[val arg] pairs IH]; intros reg; simpl.
  - intros [= <-]. apply keeps_refl.
  - destruct (rebind_one reg val arg) as [[[]| |] reg1] eqn:H1; simpl; [|done|done].
    intros Hrest. apply (keeps_trans [arg] _ reg reg1 reg').
    + by apply (rebind_one_keeps reg reg1 val arg).
    + by apply IH.
Qed.

Lemma refit_other (pairs : list (float * string)) (fit : gmap string float)
    (name : string) :
  name ∉ pairs.*2 → refit fit pairs !! name = fit !! name.
Proof.
  revert fit. induction pairs as [|p pairs IH]; intros fit Hname; simpl; [done|].
  simpl in Hname. apply not_elem_of_cons in Hname as [Hne Hname].
  rewrite IH by done. by apply lookup_insert_ne.
Qed.

(** The same for every registry of the store; none is added or
    dropped. *)
Definition store_keeps (touched : list string) (sigma sigma' : store) : Prop :=
  ∀ loc, option_Forall2 (keeps touched) (sigma !! loc) (sigma' !! loc).

Lemma store_keeps_refl (touched : list string) (sigma : store) :
  store_keeps touched sigma sigma.
Proof.
  intros loc. destruct (sigma !! loc); constructor. apply keeps_refl.
Qed.

Lemma store_keeps_trans (t1 t2 : list string) (s1 s2 s3 : store) :
  store_keeps t1 s1 s2 → store_keeps t2 s2 s3 → store_keeps (t1 ++ t2) s1 s3.
Proof.
  intros H12 H23 loc. specialize (H12 loc). specialize (H23 loc).
  destruct H12 as [r1 r2 H12|]; inversion H23 as [? r3 H23'|]; subst; constructor.
  by eapply keeps_trans.
Qed.

(** Whose cache entry for [name] is the same in both. *)
Definition fit_kept (newparams : vec) (a a' : attrs) : Prop :=
  ∀ name, name ∉ paired_names newparams a → a_fit a' !! name = a_fit a !! name.

Lemma update_component_frame (newparams : vec) (a a' : attrs) (sigma sigma' : store) :
  update_component a newparams sigma = (Ret (), a', sigma') →
  store_keeps (paired_names newparams a) sigma sigma' ∧ fit_kept newparams a a'.
Proof.
  unfold update_component, fit_kept, paired_names.
  destruct (a_freenames a) as [names|]; [|done].
  destruct (zip newparams names) as [|p pairs] eqn:Hpairs.
  { intros [= <- <-]. split; [apply store_keeps_refl|done]. }
  destruct (a_parameters a) as [loc|]; [|done].
  destruct (sigma !! loc) as [reg|] eqn:Hreg; [|done].
  destruct (rebind reg (p :: pairs)) as [[[]| |] reg'] eqn:Hrebind; [|done|done].
  intros [= <- <-]. split.
  - intros loc'. destruct (decide (loc = loc')) as [<-|Hne].
    + rewrite lookup_insert_eq, Hreg. constructor. by apply rebind_keeps.
    + rewrite lookup_insert_ne by done. destruct (sigma !! loc'); constructor.
      apply keeps_refl.
  - intros name Hname. exact (refit_other (p :: pairs) (a_fit a) name Hname).
Qed.

(** X14.  [update] rebinds values and nothing else.  When it returns, every
    registry of the store is still there, every parameter has the name,
    binding kind and prior it had, every [dict] entry has the items it
    had after item 0, and a name that no component pairs with a value
    has its entry and its [Parameter] as before; each component's cache
    is as before under the names that this component does not pair. *)
Theorem update_rebinds_values_only (newparams : vec) (m m' : model)
    (sigma sigma' : store) :
  update newparams m sigma = (Ret (), m', sigma') →
  store_keeps (mjoin (map (paired_names newparams) (leaves m))) sigma sigma'
  ∧ Forall2 (fit_kept newparams) (leaves m) (leaves m').
Proof.
  revert m' sigma sigma'. induction m as [a ev|a s pm cs IH] using model_induction;
    intros m' sigma sigma'; simpl.
  - destruct (update_component a newparams sigma) as [[r a'] sigma1] eqn:Hup.
    intros [= -> <- <-]. destruct (update_component_frame _ _ _ _ _ Hup) as [Hs Hf].
    simpl. rewrite app_nil_r. split; [done|]. by repeat constructor.
  - destruct (update_components (update newparams) cs sigma) as [[r cs'] sigma1] eqn:Hup.
    intros [= -> <- <-]. simpl. clear a s pm.
    revert cs' sigma sigma1 Hup.
    induction cs as [|c cs IHcs]; intros cs' sigma sigma1 Hup; simpl in *.
    + injection Hup as <- <-. split; [apply store_keeps_refl|constructor].
    + apply Forall_cons in IH as [IHc IH].
      destruct (update newparams c sigma) as [[r c'] sigma2] eqn:Hc.
      destruct r as [[]| |]; [|done|done].
      destruct (update_components (update newparams) cs sigma2)
        as [[r' cs''] sigma3] eqn:Hcs.
      injection Hup as -> <- <-.
      destruct (IHc _ _ _ Hc) as [Hs1 Hf1].
      destruct (IHcs IH _ _ _ Hcs) as [Hs2 Hf2].
      simpl. rewrite map_app, join_app. split.
      * by eapply store_keeps_trans.
      * by apply Forall2_app.
Qed.

(** *** An update that fails half way *)

(** X27.  A second name that the registry's [dict] does not hold stops the
    first loop of [update] with [KeyError].  The first name is by then
    rebound in the registry, in both its readings, while the cache,
    which the second loop writes, is as it was: after the failed call
    the registry and the cache disagree. *)
Theorem failed_update_splits_views (a : attrs) (sigma : store) (loc : nat)
    (reg : Parameters) (v1 v2 : float) (n1 n2 : string) (vals : vec)
    (names : list string) :
  a_freenames a = Some (n1 :: n2 :: names) → a_parameters a = Some loc →
  sigma !! loc = Some reg → registered reg n1 → dict reg !! n2 = None →
  ∃ reg', update_component a (v1 :: v2 :: vals) sigma
          = (Raise KeyError n2, a, <[loc := reg']> sigma)
    ∧ dict_value reg' n1 = Some v1 ∧ attribute_value reg' n1 = Some v1.
Proof.
  intros Hnames Hloc Hreg [(item & items & Hitem) [q Hq]] Hn2.
  assert (n1 ≠ n2) as Hne by (intros ->; congruence).
  unfold update_component. rewrite Hnames, Hloc, Hreg. simpl.
  unfold rebind_one at 1. rewrite Hitem, Hq.
  unfold rebind_one. simpl. rewrite lookup_insert_ne by done. rewrite Hn2.
  eexists. split; [reflexivity|]. split.
  - unfold dict_value. simpl. by rewrite lookup_insert_eq.
  - unfold attribute_value. simpl. by rewrite lookup_insert_eq.
Qed.

Lemma failed_update_splits_views_witness :
  ∃ reg', update_component (attrs_of own_lists) [0.2; 3] (system 10)
          = (Raise KeyError "c0", attrs_of own_lists, <[0%nat := reg']> (system 10))
    ∧ dict_value reg' "rp" = Some 0.2 ∧ attribute_value reg' "rp" = Some 0.2.
Proof.
  eapply (failed_update_splits_views (attrs_of own_lists) (system 10) 0 _ 0.2 3
            "rp" "c0" [] []).
  - reflexivity.
  - reflexivity.
  - reflexivity.
  - split; [eexists _, _|eexists]; vm_compute; reflexivity.
  - vm_compute. reflexivity.
Defined.

(** *** The systematics alone *)

Definition is_systematic (m : model) : bool :=
  match a_modeltype (attrs_of m) with
  | Some ty => String.eqb ty "systematic"
  | None => false
  end.

Definition components_of (m : model) : list model :=
  match m with
  | Component _ _ => []
  | Composite _ _ _ cs => cs
  end.

Section Systematics.

Variable sigma : store.
Variable channel : option nat.
Variable kw_time : option vec.

(** [CompositePyMC3Model.syseval]: the loop of [eval] over the
    components of model type [systematic] only; the other components
    are neither evaluated nor given a time axis by the loop.  The base
    class has no such method. *)
Definition syseval (m : model) : outcome vec * model :=
  match m with
  | Component a ev => (Raise AttributeError (no_attribute "syseval"), m)
  | Composite a s pm cs =>
      let run (t : vec) (a2 : attrs) (cs0 : list model) :=
        let '(r, cs') :=
          eval_components
            (λ c, if is_systematic c
                  then let '(r, c') := eval_in sigma channel kw_time (IfUnset t) c in
                       (match r with
                        | Ret x => Ret (Some x)
                        | Raise e msg => Raise e msg
                        | OutOfFuel => OutOfFuel
                        end, c')
                  else (Ret None, c))
            cs0 (replicate (length t * a_nchan a2) 1) in
        (r, Composite a2 s pm cs') in
      match a_time a with
      | Some t => run t a cs
      | None =>
          match kw_time with
          | Some t => run t (set_time_attr (Some t) a) (map (set_time t) cs)
          | None => (Raise TypeError not_an_array, m)
          end
      end
  end.

(** The flux of each systematic component on the composite's time
    axis [t]. *)
Definition systematic_fluxes (t : vec) (cs : list model) : list vec :=
  omap (λ c, if is_systematic c
             then match (eval_in sigma channel kw_time (IfUnset t) c).1 with
                  | Ret x => Some x
                  | _ => None
                  end
             else None) cs.

(** X10.  On a composite whose time axis is set, [syseval] is the elementwise
    product of the fluxes of the systematic components, and it leaves
    every other component exactly as it was, its unset time axis
    included. *)
Theorem syseval_only_systematic (a : attrs) (s : bool) (pm : gmap string rv)
    (cs : list model) (t : vec) :
  a_time a = Some t →
  Forall (λ c, is_systematic c = true →
            ∃ x, (eval_in sigma channel kw_time (IfUnset t) c).1 = Ret x
                 ∧ length x = (length t * a_nchan a)%nat) cs →
  (syseval (Composite a s pm cs)).1
  = Ret (product_flux (length t * a_nchan a) (systematic_fluxes t cs))
  ∧ Forall2 (λ c c', is_systematic c = false → c' = c)
      cs (components_of (syseval (Composite a s pm cs)).2).
Proof.
  intros Ht Hcs. unfold product_flux. simpl. rewrite Ht.
  set (n := (length t * a_nchan a)%nat) in *.
  set (ev1 := λ c : model,
         if is_systematic c
         then let '(r, c') := eval_in sigma channel kw_time (IfUnset t) c in
              (match r with
               | Ret x => Ret (Some x)
               | Raise e msg => Raise e msg
               | OutOfFuel => OutOfFuel
               end, c')
         else (Ret None, c)).
  assert (∀ flux, length flux = n →
            ∃ cs', eval_components ev1 cs flux
                   = (Ret (foldl (zip_with PrimFloat.mul) flux (systematic_fluxes t cs)),
                      cs')
              ∧ Forall2 (λ c c', is_systematic c = false → c' = c) cs cs') as Hloop.
  { clearbody n. induction cs as [|c cs IH]; intros flux Hlen; simpl.
    { exists []. split; [done|constructor]. }
    apply Forall_cons in Hcs as [Hc Hcs]. unfold ev1 at 1.
    destruct (is_systematic c) eqn:Hsys.
    - destruct (Hc eq_refl) as (x & Hx & Hlx).
      destruct (eval_in sigma channel kw_time (IfUnset t) c) as [r c']. simpl in *.
      subst r. rewrite imul_same_length by lia.
      assert (length (zip_with PrimFloat.mul flux x) = n) as Hlen'
        by (rewrite length_zip_with; lia).
      destruct (IH Hcs _ Hlen') as (cs' & -> & Hall).
      exists (c' :: cs'). split; [done|]. constructor; [|done].
      intros Hfalse. congruence.
    - destruct (IH Hcs flux Hlen) as (cs' & -> & Hall).
      exists (c :: cs'). split; [done|]. by constructor. }
  destruct (Hloop (replicate n 1) (length_replicate n 1)) as (cs' & Hr & Hall).
  fold ev1. by rewrite Hr.
Qed.

End Systematics.

(** *** Worked composites *)

(** The attributes of a physical component. *)
Definition star (t : option vec) : attrs :=
  {| a_name := "New PyMC3Model"; a_time := t; a_freenames := None;
     a_parameters := None; a_paramtitles := None; a_modeltype := Some "physical";
     a_nchan := 1; a_fit := ∅ |}.

(** A systematic and a physical component that have no time axis yet,
    and a composite on the time axis [0, 1] that owns them. *)
Definition two_kinds : list model :=
  [Component (bare None) flat_flux; Component (star None) flat_flux].

Definition axis : vec := [0; 1].

Definition two_kinds_composite : model :=
  Composite (bare (Some axis)) false ∅ two_kinds.

Lemma composite_eval_is_product_witness :
  (eval ∅ None None two_kinds_composite).1
  = Ret (product_flux (length axis * a_nchan (bare (Some axis)))
           (component_fluxes ∅ None None axis two_kinds))
  ∧ length (product_flux (length axis * a_nchan (bare (Some axis)))
              (component_fluxes ∅ None None axis two_kinds))
    = (length axis * a_nchan (bare (Some axis)))%nat.
Proof.
  apply (composite_eval_is_product ∅ None None (bare (Some axis)) false ∅ two_kinds
           axis).
  - reflexivity.
  - repeat constructor; intros _; eexists; split; reflexivity.
Defined.

Lemma syseval_only_systematic_witness :
  (syseval ∅ None None two_kinds_composite).1
  = Ret (product_flux (length axis * a_nchan (bare (Some axis)))
           (systematic_fluxes ∅ None None axis two_kinds))
  ∧ Forall2 (λ c c', is_systematic c = false → c' = c) two_kinds
      (components_of (syseval ∅ None None two_kinds_composite).2).
Proof.
  apply (syseval_only_systematic ∅ None None (bare (Some axis)) false ∅ two_kinds
           axis).
  - reflexivity.
  - repeat constructor; intros _; eexists; split; reflexivity.
Defined.

(** A shared and a free parameter with a uniform prior, and one whose
    prior family is not known. *)
Definition shared_param (name : string) (v lo hi : float) : Param :=
  {| p_name := name; p_value := v; p_ptype := "shared"; p_priorpar1 := lo;
     p_priorpar2 := hi; p_prior := "U" |}.

Definition strange_prior (name : string) : Param :=
  {| p_name := name; p_value := 1; p_ptype := "shared"; p_priorpar1 := 0;
     p_priorpar2 := 1; p_prior := "X" |}.

Lemma shared_channels_share_variable_witness :
  ∃ pm', bind_channels "rp" (shared_param "rp" 0.1 0 1) (seq 0 3) ∅ = Ret pm'
    ∧ (∀ c, c ≤ 2 → pm' !! channel_name "rp" c = Some (Uniform "rp" 0 1 0.1))
    ∧ (∀ k, (∀ c, c ≤ 2 → k ≠ channel_name "rp" c) → pm' !! k = (∅ : gmap string rv) !! k).
Proof.
  apply (shared_channels_share_variable "rp" (shared_param "rp" 0.1 0 1) 2 ∅
           (Uniform "rp" 0 1 0.1)); reflexivity.
Defined.

Lemma free_channels_own_variables_witness :
  ∃ pm', bind_channels "rp" (free_param "rp" 0.1 0 1) (seq 0 3) ∅ = Ret pm'
    ∧ (∀ c, c < 3 →
         pm' !! channel_name "rp" c
         = prior_variable "rp" (channel_name "rp" c) (free_param "rp" 0.1 0 1))
    ∧ (∀ k, (∀ c, c < 3 → k ≠ channel_name "rp" c) → pm' !! k = (∅ : gmap string rv) !! k).
Proof.
  apply (free_channels_own_variables "rp" (free_param "rp" 0.1 0 1) 3 ∅).
  - reflexivity.
  - by eexists.
Defined.

Lemma unknown_prior_shared_raises_witness :
  bind_channels "rp" (strange_prior "rp") (seq 0 2) ∅
  = Raise AttributeError (no_attribute "rp").
Proof.
  apply (unknown_prior_shared_raises "rp" (strange_prior "rp") 0 ∅); reflexivity.
Defined.

Lemma update_rebinds_values_only_witness :
  store_keeps (mjoin (map (paired_names [0.2]) (leaves light_curve)))
    (system 10) (update [0.2] light_curve (system 10)).2
  ∧ Forall2 (fit_kept [0.2]) (leaves light_curve)
      (leaves (update [0.2] light_curve (system 10)).1.2).
Proof.
  apply (update_rebinds_values_only [0.2] light_curve
           (update [0.2] light_curve (system 10)).1.2 (system 10)
           (update [0.2] light_curve (system 10)).2).
  vm_compute. reflexivity.
Defined.

End PyMC3Models.

(** ** lib/astropytable.py *)

Module AstropyTable.
Import NumPy.

(** [np.repeat(v, k)]: every entry [k] times in a row. *)
Definition np_repeat (v : vec) (k : nat) : vec := mjoin (map (replicate k) v).

(** [np.tile(v, k)]: the whole array [k] times. *)
Definition np_tile (v : vec) (k : nat) : vec := mjoin (replicate k v).

(** [a.flatten()] of a 2-D array. *)
Definition flatten (a : image) : vec := mjoin a.

(** The table that [savetable_S3] hands to [ascii.write], as its six
    columns in order ([bjdtdb], [wave_1d], [stdspec], [stdvar],
    [optspec], [opterr]); [QTable] refuses columns of different
    lengths. *)
Definition savetable_S3 (bjdtdb wave_1d : vec) (stdspec stdvar optspec opterr : image)
    : result (list vec) :=
  let dims := (length stdspec, ncols stdspec) in
  let bjdtdb := np_repeat bjdtdb dims.2 in
  let wave_1d := np_tile wave_1d dims.1 in
  let arr := [bjdtdb; wave_1d; flatten stdspec; flatten stdvar; flatten optspec;
              flatten opterr] in
  if forallb (λ a : vec, (length a =? length bjdtdb)%nat) arr then Ok arr
  else Err ValueError "Inconsistent data column lengths".

Lemma length_join_uniform {A : Type} (n : nat) (rows : list (list A)) :
  Forall (λ r, length r = n) rows → length (mjoin rows) = (length rows * n)%nat.
Proof.
  intros Hrows. induction Hrows as [|r rows Hr Hrows IH]; simpl; [done|].
  rewrite length_app, IH, Hr. lia.
Qed.

Lemma lookup_join_uniform {A : Type} (n : nat) (rows : list (list A)) (t w : nat)
    (r : list A) :
  Forall (λ r, length r = n) rows → rows !! t = Some r → w < n →
  mjoin rows !! (t * n + w)%nat = r !! w.
Proof.
  revert t. induction rows as [|r0 rows IH]; intros t Hall Ht Hw; [done|].
  apply Forall_cons in Hall as [Hr0 Hall]. destruct t as [|t]; simpl in *.
  - injection Ht as ->. by rewrite lookup_app_l by lia.
  - rewrite lookup_app_r by lia. rewrite <- (IH t Hall Ht Hw). f_equal. lia.
Qed.

Lemma length_flatten (T W : nat) (a : image) :
  rect T W a → length (flatten a) = (T * W)%nat.
Proof. intros [<- Hrows]. by apply length_join_uniform. Qed.

Lemma lookup_flatten (T W : nat) (a : image) (t w : nat) :
  rect T W a → t < T → w < W → flatten a !! (t * W + w)%nat = Some (get2 a t w).
Proof.
  intros [Hlen Hrows] Ht Hw.
  destruct (lookup_lt_is_Some_2 a t) as [r Hr]; [lia|].
  unfold flatten. rewrite (lookup_join_uniform W a t w r Hrows Hr Hw).
  assert (length r = W) as Hlr by exact (Forall_lookup_1 _ _ _ _ Hrows Hr).
  destruct (lookup_lt_is_Some_2 r w) as [v Hv]; [lia|].
  unfold get2, pixel. rewrite Hr. simpl. by rewrite Hv.
Qed.

(** X15.  One row of the written table per integration and wavelength.  With
    [T] times, [W] wavelengths and four [T] x [W] arrays, the table has
    [T * W] rows, and row [t * W + w] holds the time of integration [t],
    the wavelength of column [w] and the four values at [(t, w)]. *)
Theorem table_row_per_sample (T W : nat) (bjdtdb wave_1d : vec)
    (stdspec stdvar optspec opterr : image) (t w : nat) :
  0 < T → length bjdtdb = T → length wave_1d = W →
  rect T W stdspec → rect T W stdvar → rect T W optspec → rect T W opterr →
  t < T → w < W →
  ∃ c_time c_wave c_spec c_var c_opt c_err,
    savetable_S3 bjdtdb wave_1d stdspec stdvar optspec opterr
    = Ok [c_time; c_wave; c_spec; c_var; c_opt; c_err]
    ∧ Forall (λ c : vec, length c = (T * W)%nat)
        [c_time; c_wave; c_spec; c_var; c_opt; c_err]
    ∧ c_time !! (t * W + w)%nat = bjdtdb !! t
    ∧ c_wave !! (t * W + w)%nat = wave_1d !! w
    ∧ c_spec !! (t * W + w)%nat = Some (get2 stdspec t w)
    ∧ c_var !! (t * W + w)%nat = Some (get2 stdvar t w)
    ∧ c_opt !! (t * W + w)%nat = Some (get2 optspec t w)
    ∧ c_err !! (t * W + w)%nat = Some (get2 opterr t w).
Proof.
  intros HT Hb Hw Hs Hv Ho He Ht Hwl. unfold savetable_S3.
  assert (length stdspec = T) as HlenT by (by destruct Hs).
  rewrite HlenT, (Extraction.ncols_rect T W) by done. simpl.
  assert (Forall (λ r : vec, length r = W) (map (replicate W) bjdtdb)) as Hrep.
  { apply Forall_fmap, Forall_forall. intros v _. apply length_replicate. }
  assert (Forall (λ r : vec, length r = W) (replicate T wave_1d)) as Htile
    by by apply Forall_replicate.
  assert (length (np_repeat bjdtdb W) = (T * W)%nat) as Hl1.
  { unfold np_repeat. by rewrite (length_join_uniform W), length_map, Hb. }
  assert (length (np_tile wave_1d T) = (T * W)%nat) as Hl2.
  { unfold np_tile. by rewrite (length_join_uniform W), length_replicate. }
  rewrite Hl1, Hl2, !(length_flatten T W), Nat.eqb_refl by done. simpl.
  eexists _, _, _, _, _, _. split; [reflexivity|]. split.
  { repeat constructor; try done; by apply length_flatten. }
  split; [|split; [|by rewrite !(lookup_flatten T W) by done]].
  - destruct (lookup_lt_is_Some_2 bjdtdb t) as [v Hvt]; [lia|].
    unfold np_repeat.
    rewrite (lookup_join_uniform W _ t w (replicate W v) Hrep); [|  |done].
    + rewrite Hvt. by apply lookup_replicate_2.
    + by rewrite list_lookup_fmap, Hvt.
  - unfold np_tile.
    rewrite (lookup_join_uniform W _ t w wave_1d Htile); [done| |done].
    by apply lookup_replicate_2.
Qed.

(** X16.  The times are matched to the rows of [stdspec] by count only: when
    [bjdtdb] has another length than [stdspec] has rows (and there is a
    wavelength column), no table is written and [ValueError] is
    raised. *)
Theorem time_count_mismatch_raises (T W : nat) (bjdtdb wave_1d : vec)
    (stdspec stdvar optspec opterr : image) :
  0 < T → 0 < W → length bjdtdb ≠ T → rect T W stdspec →
  savetable_S3 bjdtdb wave_1d stdspec stdvar optspec opterr
  = Err ValueError "Inconsistent data column lengths".
Proof.
  intros HT HW Hb Hs. unfold savetable_S3.
  assert (length stdspec = T) as HlenT by (by destruct Hs).
  rewrite HlenT, (Extraction.ncols_rect T W) by done.
  assert (length (np_repeat bjdtdb W) = (length bjdtdb * W)%nat) as Hl1.
  { unfold np_repeat. rewrite (length_join_uniform W), length_map; [done|].
    apply Forall_fmap, Forall_forall. intros v _. apply length_replicate. }
  cbn [forallb fst snd]. rewrite Hl1, (length_flatten T W) by done.
  rewrite Nat.eqb_refl. cbn [andb].
  assert ((T * W =? length bjdtdb * W)%nat = false) as Hne.
  { apply Nat.eqb_neq. nia. }
  destruct (length (np_tile wave_1d T) =? length bjdtdb * W)%nat; [|done].
  cbn [andb]. by rewrite Hne.
Qed.

Lemma table_row_per_sample_witness :
  ∃ c_time c_wave c_spec c_var c_opt c_err,
    savetable_S3 [10; 20] [1; 2; 3] [[1; 2; 3]; [4; 5; 6]] [[0; 0; 0]; [0; 0; 0]]
                 [[7; 8; 9]; [10; 11; 12]] [[1; 1; 1]; [1; 1; 1]]
    = Ok [c_time; c_wave; c_spec; c_var; c_opt; c_err]
    ∧ Forall (λ c : vec, length c = (2 * 3)%nat)
        [c_time; c_wave; c_spec; c_var; c_opt; c_err]
    ∧ c_time !! (1 * 3 + 2)%nat = [10; 20] !! 1%nat
    ∧ c_wave !! (1 * 3 + 2)%nat = [1; 2; 3] !! 2%nat
    ∧ c_spec !! (1 * 3 + 2)%nat = Some (get2 [[1; 2; 3]; [4; 5; 6]] 1 2)
    ∧ c_var !! (1 * 3 + 2)%nat = Some (get2 [[0; 0; 0]; [0; 0; 0]] 1 2)
    ∧ c_opt !! (1 * 3 + 2)%nat = Some (get2 [[7; 8; 9]; [10; 11; 12]] 1 2)
    ∧ c_err !! (1 * 3 + 2)%nat = Some (get2 [[1; 1; 1]; [1; 1; 1]] 1 2).
Proof.
  apply (table_row_per_sample 2 3 [10; 20] [1; 2; 3] [[1; 2; 3]; [4; 5; 6]]
           [[0; 0; 0]; [0; 0; 0]] [[7; 8; 9]; [10; 11; 12]] [[1; 1; 1]; [1; 1; 1]] 1 2);
    try lia; try reflexivity; (split; [reflexivity|repeat constructor]).
Defined.

Lemma time_count_mismatch_raises_witness :
  savetable_S3 [10] [1; 2; 3] [[1; 2; 3]; [4; 5; 6]] [[0; 0; 0]; [0; 0; 0]]
               [[7; 8; 9]; [10; 11; 12]] [[1; 1; 1]; [1; 1; 1]]
  = Err ValueError "Inconsistent data column lengths".
Proof.
  apply (time_count_mismatch_raises 2 3); try lia.
  - simpl. lia.
  - split; [reflexivity|repeat constructor].
Defined.

End AstropyTable.

(** ** S3_data_reduction/niriss.py *)

Module Niriss.
Import NumPy.

(** What a call raises: one of the exceptions above, or the
    [OverflowError] of [int] on an infinite float. *)
Inductive raised : Type :=
| Builtin (e : exn)
| OverflowError.

Inductive answer (A : Type) : Type :=
| Value (a : A)
| Raised (e : raised) (msg : string).

Arguments Value {A} a.
Arguments Raised {A} e msg.

Definition abind {A B : Type} (f : A → answer B) (r : answer A) : answer B :=
  match r with
  | Value a => f a
  | Raised e msg => Raised e msg
  end.

#[global] Instance answer_bind : MBind answer := @abind.

(** [int(x)] on a float: truncation toward zero. *)
Definition py_int (x : float) : answer Z :=
  match Prim2SF x with
  | S754_zero _ => Value 0%Z
  | S754_infinity _ => Raised OverflowError "cannot convert float infinity to integer"
  | S754_nan => Raised (Builtin ValueError) "cannot convert float NaN to integer"
  | S754_finite sgn m e =>
      let mag := Z.shiftl (Z.pos m) e in
      Value (if sgn then (- mag)%Z else mag)
  end.

(** [boxsize/2], for a box size below 2^53, as every array dimension
    is. *)
Definition half (boxsize : nat) : float :=
  PrimFloat.of_uint63 (Uint63.of_Z (Z.of_nat boxsize)) / 2.

(** Where a slice bound lands on an axis of length [n]: a negative bound
    counts from the end, and every bound is clipped to the axis. *)
Definition slice_bound (n : nat) (z : Z) : nat :=
  if (z <? 0)%Z then Z.to_nat (Z.max 0 (z + Z.of_nat n))
  else Z.to_nat (Z.min z (Z.of_nat n)).

(** Whether row [y] is in [a[s:e]]. *)
Definition in_slice (n : nat) (s e : Z) (y : nat) : bool :=
  (slice_bound n s <=? y)%nat && (y <? slice_bound n e)%nat.

(** [len(a[s:e])] *)
Definition slice_length (n : nat) (s e : Z) : nat :=
  (slice_bound n e - slice_bound n s)%nat.

(** [pos[i]] *)
Definition getpos (pos : option vec) (i : nat) : answer float :=
  match pos with
  | None => Raised (Builtin TypeError) "'NoneType' object is not subscriptable"
  | Some p =>
      match p !! i with
      | Some v => Value v
      | None => Raised (Builtin IndexError) "index is out of bounds for axis 0"
      end
  end.

(** [s,e = int(pos[i]-boxsize/2), int(pos[i]+boxsize/2)] *)
Definition box_bounds (pos : option vec) (boxsize : nat) (i : nat) : answer (Z * Z) :=
  p ← getpos pos i;
  s ← py_int (p - half boxsize);
  p' ← getpos pos i;
  e ← py_int (p' + half boxsize);
  Value (s, e).

(** Whether [order[:,i] = img[s:e,i]] is accepted: the slice must have
    [boxsize] rows, or one row, which numpy repeats. *)
Definition fits (n boxsize : nat) (s e : Z) : bool :=
  bool_decide (slice_length n s e = boxsize ∨ slice_length n s e = 1%nat).

Definition store_box (n boxsize : nat) (s e : Z) : answer unit :=
  if fits n boxsize s e then Value ()
  else Raised (Builtin ValueError) "could not broadcast input array".

(** [mask[s:e,i] += m] *)
Definition add_to_column (mask : image) (s e : Z) (i : nat) (m : float) : image :=
  imap (λ y (row : vec),
          if in_slice (length mask) s e y then alter (λ v, v + m) i row else row)
       mask.

(** The body of the loop over the columns.  A box of the second order
    that cannot be stored is passed over in silence; one of the first
    order is not. *)
Definition mask_column (boxsize1 boxsize2 : nat) (pos1 pos2 : option vec)
    (m1 m2 : float) (mask : image) (i : nat) : answer image :=
  b1 ← box_bounds pos1 boxsize1 i;
  _ ← store_box (length mask) boxsize1 b1.1 b1.2;
  let mask := add_to_column mask b1.1 b1.2 i m1 in
  b2 ← box_bounds pos2 boxsize2 i;
  match store_box (length mask) boxsize2 b2.1 b2.2 with
  | Value _ => Value (add_to_column mask b2.1 b2.2 i m2)
  | Raised _ _ => Value mask
  end.

Fixpoint for_columns (body : image → nat → answer image) (mask : image)
    (cols : list nat) : answer image :=
  match cols with
  | [] => Value mask
  | i :: cols' =>
      match body mask i with
      | Value mask' => for_columns body mask' cols'
      | Raised e msg => Raised e msg
      end
  end.

(** What [dirty_mask] returns: the message, the boolean mask, the mask
    of sums, or one mask per order. *)
Inductive mask_result : Type :=
| Message (msg : string)
| BoolMask (m : list (list bool))
| SumMask (m : image)
| OrderMasks (m1 m2 : image).

(** The traces in use: those of [meta.tab2] when [meta] is given, the
    arguments otherwise. *)
Definition traces (meta : option (vec * vec)) (pos1 pos2 : option vec)
    : option vec * option vec :=
  match meta with
  | Some tab2 => (Some (map (λ v, v + 0) tab2.1), Some (map (λ v, v + 0) tab2.2))
  | None => (pos1, pos2)
  end.

Definition nonzero (v : float) : bool := negb (v =? 0).

(** [dirty_mask(img, meta, boxsize1, boxsize2, booltype, return_together,
    pos1, pos2)]; [meta] stands for the two columns of [meta.tab2]. *)
Definition dirty_mask (img : image) (meta : option (vec * vec))
    (boxsize1 boxsize2 : nat) (booltype return_together : bool)
    (pos1 pos2 : option vec) : answer mask_result :=
  match img with
  | [] => Raised (Builtin IndexError) "index 0 is out of bounds for axis 0 with size 0"
  | row0 :: _ =>
      let mask := amap (λ _, 0) img in
      let tr := traces meta pos1 pos2 in
      match meta, tr.1 with
      | None, None => Value (Message "Cannot create box mask without trace.")
      | _, _ =>
          let '(m1, m2) := if booltype then (-1, -1) else (1, 2) in
          mask ← for_columns (mask_column boxsize1 boxsize2 tr.1 tr.2 m1 m2) mask
                   (seq 0 (length row0));
          if booltype then
            let mask := map (map (λ v, negb (nonzero v))) mask in
            if return_together then Value (BoolMask mask)
            else Value (OrderMasks (map (map (λ b : bool, if b then 1 else 0)) mask)
                                   (map (map (λ _ : bool, 0)) mask))
          else
            if return_together then Value (SumMask mask)
            else Value (OrderMasks
                          (amap (λ v, if (v =? 1) || (v =? 3) then 1 else 0) mask)
                          (amap (λ v, if 2 <=? v then 1 else 0) mask))
      end
  end.

(** *** The mask, pixel by pixel *)

Lemma pixel_in_range (ny nx : nat) (a : image) (y x : nat) :
  rect ny nx a → y < ny → x < nx → pixel a y x = Some (get2 a y x).
Proof.
  intros [Hlen Hrows] Hy Hx. unfold get2, pixel.
  destruct (lookup_lt_is_Some_2 a y) as [r Hr]; [lia|]. rewrite Hr. simpl.
  assert (length r = nx) as Hlr by exact (Forall_lookup_1 _ _ _ _ Hrows Hr).
  destruct (lookup_lt_is_Some_2 r x) as [v Hv]; [lia|]. by rewrite Hv.
Qed.

Lemma lookup_map_map {A B : Type} (f : A → B) (a : list (list A)) (y x : nat) :
  (map (map f) a !! y) ≫= (λ r, r !! x) = f <$> ((a !! y) ≫= (λ r, r !! x)).
Proof.
  rewrite list_lookup_fmap. destruct (a !! y) as [r|]; simpl; [|done].
  by rewrite list_lookup_fmap.
Qed.

Lemma get2_amap (ny nx : nat) (f : float → float) (a : image) (y x : nat) :
  rect ny nx a → y < ny → x < nx → get2 (amap f a) y x = f (get2 a y x).
Proof.
  intros Ha Hy Hx. unfold get2 at 1. unfold pixel, amap. rewrite lookup_map_map.
  fold (pixel a y x). by rewrite (pixel_in_range ny nx).
Qed.

Lemma getb_map (ny nx : nat) (f : float → bool) (a : image) (y x : nat) :
  rect ny nx a → y < ny → x < nx →
  Extraction.getb (map (map f) a) y x = f (get2 a y x).
Proof.
  intros Ha Hy Hx. unfold Extraction.getb. rewrite lookup_map_map.
  fold (pixel a y x). by rewrite (pixel_in_range ny nx).
Qed.

Lemma rect_add_to_column (ny nx : nat) (mask : image) (s e : Z) (i : nat) (m : float) :
  rect ny nx mask → rect ny nx (add_to_column mask s e i m).
Proof.
  intros [Hlen Hrows]. unfold add_to_column. split; [by rewrite length_imap|].
  apply Forall_lookup_2. intros y r Hr. rewrite list_lookup_imap in Hr.
  destruct (mask !! y) as [row|] eqn:Hrow; [|done]. injection Hr as <-.
  pose proof (Forall_lookup_1 _ _ _ _ Hrows Hrow) as Hlr. simpl in Hlr.
  destruct (in_slice _ _ _ _); [by rewrite length_alter|done].
Qed.

Lemma get2_add_to_column (ny nx : nat) (mask : image) (s e : Z) (i : nat) (m : float)
    (y x : nat) :
  rect ny nx mask → y < ny → x < nx →
  get2 (add_to_column mask s e i m) y x
  = if bool_decide (x = i) && in_slice ny s e y then get2 mask y x + m
    else get2 mask y x.
Proof.
  intros Hmask Hy Hx. pose proof Hmask as [Hlen Hrows].
  unfold get2 at 1. unfold pixel, add_to_column. rewrite list_lookup_imap, Hlen.
  destruct (lookup_lt_is_Some_2 mask y) as [r Hr]; [lia|]. rewrite Hr. simpl.
  assert (length r = nx) as Hlr by exact (Forall_lookup_1 _ _ _ _ Hrows Hr).
  destruct (lookup_lt_is_Some_2 r x) as [v Hv]; [lia|].
  assert (get2 mask y x = v) as -> by (unfold get2, pixel; by rewrite Hr; simpl; rewrite Hv).
  destruct (in_slice ny s e y); [|by rewrite andb_false_r, Hv].
  rewrite andb_true_r, list_lookup_alter.
  destruct (decide (i = x)) as [->|Hne].
  - by rewrite bool_decide_eq_true_2, Hv.
  - by rewrite bool_decide_eq_false_2, Hv by congruence.
Qed.

Section Boxes.

Variables (ny nx boxsize1 boxsize2 : nat) (pos1 pos2 : option vec) (m1 m2 : float).

(** Pixel [(y, x)] is in the box of the first order: the bounds of
    column [x] can be computed and row [y] is in the slice. *)
Definition covered1 (y x : nat) : bool :=
  match box_bounds pos1 boxsize1 x with
  | Value b => in_slice ny b.1 b.2 y
  | Raised _ _ => false
  end.

(** The same for the second order, whose box must also fit. *)
Definition covered2 (y x : nat) : bool :=
  match box_bounds pos2 boxsize2 x with
  | Value b => fits ny boxsize2 b.1 b.2 && in_slice ny b.1 b.2 y
  | Raised _ _ => false
  end.

(** What the loop makes of the value [v] of a pixel. *)
Definition cell (v : float) (y x : nat) : float :=
  let v1 := if covered1 y x then v + m1 else v in
  if covered2 y x then v1 + m2 else v1.

Lemma mask_column_spec (mask mask' : image) (i : nat) :
  rect ny nx mask →
  mask_column boxsize1 boxsize2 pos1 pos2 m1 m2 mask i = Value mask' →
  rect ny nx mask'
  ∧ ∀ y x, y < ny → x < nx →
      get2 mask' y x = if decide (x = i) then cell (get2 mask y x) y x
                       else get2 mask y x.
Proof.
  intros Hmask. pose proof Hmask as [Hlen _]. unfold mask_column.
  destruct (box_bounds pos1 boxsize1 i) as [b1|] eqn:Hb1; [|done]. simpl.
  rewrite Hlen. destruct (store_box ny boxsize1 b1.1 b1.2) as [[]|]; [|done]. simpl.
  destruct (box_bounds pos2 boxsize2 i) as [b2|] eqn:Hb2; [|done]. simpl.
  assert (rect ny nx (add_to_column mask b1.1 b1.2 i m1)) as Hmask1
    by by apply rect_add_to_column.
  assert (length (add_to_column mask b1.1 b1.2 i m1) = ny) as -> by by destruct Hmask1.
  unfold store_box. destruct (fits ny boxsize2 b2.1 b2.2) eqn:Hfits; intros [= <-].
  - split; [by apply rect_add_to_column|]. intros y x Hy Hx.
    rewrite !(get2_add_to_column ny nx) by done.
    destruct (decide (x = i)) as [->|Hne].
    + rewrite bool_decide_eq_true_2 by done. unfold cell, covered1, covered2.
      rewrite Hb1, Hb2, Hfits. simpl. done.
    + by rewrite bool_decide_eq_false_2 by done.
  - split; [done|]. intros y x Hy Hx.
    rewrite !(get2_add_to_column ny nx) by done.
    destruct (decide (x = i)) as [->|Hne].
    + rewrite bool_decide_eq_true_2 by done. unfold cell, covered1, covered2.
      rewrite Hb1, Hb2, Hfits. simpl. done.
    + by rewrite bool_decide_eq_false_2 by done.
Qed.

Lemma for_columns_spec (cols : list nat) (mask mask' : image) :
  rect ny nx mask → NoDup cols →
  for_columns (mask_column boxsize1 boxsize2 pos1 pos2 m1 m2) mask cols = Value mask' →
  rect ny nx mask'
  ∧ ∀ y x, y < ny → x < nx →
      get2 mask' y x = if decide (x ∈ cols) then cell (get2 mask y x) y x
                       else get2 mask y x.
Proof.
  intros Hmask Hnodup. revert mask Hmask.
  induction Hnodup as [|i cols Hi Hnodup IH]; intros mask Hmask; cbn [for_columns].
  - intros [= <-]. split; [done|]. intros y x _ _.
    rewrite decide_False; [done|]. by intros ?%elem_of_nil.
  - destruct (mask_column boxsize1 boxsize2 pos1 pos2 m1 m2 mask i) as [mask1|] eqn:H1;
      [|done].
    destruct (mask_column_spec mask mask1 i Hmask H1) as [Hmask1 Hget1].
    intros Hrest. destruct (IH mask1 Hmask1 Hrest) as [Hmask' Hget].
    split; [done|]. intros y x Hy Hx. rewrite (Hget y x Hy Hx), (Hget1 y x Hy Hx).
    destruct (decide (x = i)) as [->|Hne].
    + rewrite decide_False by done. rewrite decide_True; [done|apply list_elem_of_here].
    + destruct (decide (x ∈ cols)) as [Hin|Hnin].
      * rewrite decide_True; [done|by apply list_elem_of_further].
      * rewrite decide_False; [done|]. intros [?|?]%elem_of_cons; done.
Qed.

End Boxes.

Lemma rect_zeros (ny nx : nat) (img : image) :
  rect ny nx img → rect ny nx (amap (λ _, 0) img).
Proof.
  intros [Hlen Hrows]. unfold amap. split; [by rewrite length_map|].
  apply Forall_fmap. eapply Forall_impl; [exact Hrows|]. intros r Hr. simpl.
  by rewrite length_map.
Qed.

(** The loop of [dirty_mask], from the array of zeros. *)
Lemma dirty_loop (ny nx boxsize1 boxsize2 : nat) (p1 p2 : option vec) (m1 m2 : float)
    (img mask : image) :
  rect ny nx img →
  for_columns (mask_column boxsize1 boxsize2 p1 p2 m1 m2) (amap (λ _, 0) img) (seq 0 nx)
  = Value mask →
  rect ny nx mask
  ∧ ∀ y x, y < ny → x < nx →
      get2 mask y x = cell ny boxsize1 boxsize2 p1 p2 m1 m2 0 y x.
Proof.
  intros Himg Hloop.
  destruct (for_columns_spec ny nx boxsize1 boxsize2 p1 p2 m1 m2 (seq 0 nx) _ mask
              (rect_zeros ny nx img Himg) (NoDup_seq 0 nx) Hloop) as [Hmask Hget].
  split; [done|]. intros y x Hy Hx. rewrite (Hget y x Hy Hx).
  rewrite decide_True by (apply elem_of_seq; lia).
  by rewrite (get2_amap ny nx) by done.
Qed.

Lemma order_masks_spec (ny nx boxsize1 boxsize2 : nat) (img : image)
    (meta : option (vec * vec)) (pos1 pos2 : option vec) (M1 M2 : image) :
  0 < ny → rect ny nx img →
  dirty_mask img meta boxsize1 boxsize2 false false pos1 pos2
  = Value (OrderMasks M1 M2) →
  rect ny nx M1 ∧ rect ny nx M2
  ∧ ∀ y x, y < ny → x < nx →
      get2 M1 y x
      = (if covered1 ny boxsize1 (traces meta pos1 pos2).1 y x then 1 else 0)
      ∧ get2 M2 y x
        = (if covered2 ny boxsize2 (traces meta pos1 pos2).2 y x then 1 else 0).
Proof.
  intros Hny Himg Hcall. unfold dirty_mask in Hcall.
  destruct img as [|row0 rest] eqn:Himg0; [done|]. rewrite <- Himg0 in *.
  assert (length row0 = nx) as Hrow0.
  { destruct Himg as [_ Hrows]. rewrite Himg0 in Hrows.
    by apply Forall_cons in Hrows as [? _]. }
  rewrite Hrow0 in Hcall.
  set (tr := traces meta pos1 pos2) in *.
  assert (∃ mask,
            for_columns (mask_column boxsize1 boxsize2 tr.1 tr.2 1 2)
              (amap (λ _, 0) img) (seq 0 nx) = Value mask
            ∧ M1 = amap (λ v, if (v =? 1) || (v =? 3) then 1 else 0) mask
            ∧ M2 = amap (λ v, if 2 <=? v then 1 else 0) mask) as (mask & Hloop & -> & ->).
  { destruct meta as [tab2|]; [|destruct (tr.1)]; try done;
      destruct (for_columns _ _ _) as [mask|]; try done;
      injection Hcall as <- <-; by exists mask. }
  destruct (dirty_loop ny nx boxsize1 boxsize2 tr.1 tr.2 1 2 img mask Himg Hloop)
    as [Hmask Hget].
  split; [by apply Extraction.rect_amap|]. split; [by apply Extraction.rect_amap|].
  intros y x Hy Hx.
  rewrite !(get2_amap ny nx) by done. rewrite (Hget y x Hy Hx). unfold cell.
  destruct (covered1 ny boxsize1 tr.1 y x), (covered2 ny boxsize2 tr.2 y x);
    split; reflexivity.
Qed.

(** X17.  With [booltype=False] and [return_together=False], the two masks
    that come back separate the orders: the first is 1.0 exactly on the
    box of the first order and the second exactly on the box of the
    second order (where it could be stored), also where the two boxes
    overlap; elsewhere they are 0.0. *)
Theorem order_masks_separate (ny nx boxsize1 boxsize2 : nat) (img : image)
    (meta : option (vec * vec)) (pos1 pos2 : option vec) (M1 M2 : image) :
  0 < ny → rect ny nx img →
  dirty_mask img meta boxsize1 boxsize2 false false pos1 pos2
  = Value (OrderMasks M1 M2) →
  ∀ y x, y < ny → x < nx →
    get2 M1 y x
    = (if covered1 ny boxsize1 (traces meta pos1 pos2).1 y x then 1 else 0)
    ∧ get2 M2 y x
      = (if covered2 ny boxsize2 (traces meta pos1 pos2).2 y x then 1 else 0).
Proof.
  intros Hny Himg Hcall.
  by destruct (order_masks_spec ny nx boxsize1 boxsize2 img meta pos1 pos2 M1 M2
                 Hny Himg Hcall) as (_ & _ & Hget).
Qed.

Lemma bool_mask_spec (ny nx boxsize1 boxsize2 : nat) (img : image)
    (meta : option (vec * vec)) (pos1 pos2 : option vec) (B : list (list bool)) :
  0 < ny → rect ny nx img →
  dirty_mask img meta boxsize1 boxsize2 true true pos1 pos2 = Value (BoolMask B) →
  ∀ y x, y < ny → x < nx →
    (B !! y) ≫= (λ r : list bool, r !! x)
    = Some (negb (covered1 ny boxsize1 (traces meta pos1 pos2).1 y x
                  || covered2 ny boxsize2 (traces meta pos1 pos2).2 y x)).
Proof.
  intros Hny Himg Hcall y x Hy Hx. unfold dirty_mask in Hcall.
  destruct img as [|row0 rest] eqn:Himg0; [done|]. rewrite <- Himg0 in *.
  assert (length row0 = nx) as Hrow0.
  { destruct Himg as [_ Hrows]. rewrite Himg0 in Hrows.
    by apply Forall_cons in Hrows as [? _]. }
  rewrite Hrow0 in Hcall.
  set (tr := traces meta pos1 pos2) in *.
  assert (∃ mask,
            for_columns (mask_column boxsize1 boxsize2 tr.1 tr.2 (-1) (-1))
              (amap (λ _, 0) img) (seq 0 nx) = Value mask
            ∧ B = map (map (λ v, negb (nonzero v))) mask) as (mask & Hloop & ->).
  { destruct meta as [tab2|]; [|destruct (tr.1)]; try done;
      destruct (for_columns _ _ _) as [mask|]; try done;
      injection Hcall as <-; by exists mask. }
  destruct (dirty_loop ny nx boxsize1 boxsize2 tr.1 tr.2 (-1) (-1) img mask Himg Hloop)
    as [Hmask Hget].
  rewrite lookup_map_map. fold (pixel mask y x).
  rewrite (pixel_in_range ny nx) by done. rewrite (Hget y x Hy Hx). unfold cell.
  destruct (covered1 ny boxsize1 tr.1 y x), (covered2 ny boxsize2 tr.2 y x);
    reflexivity.
Qed.

(** X18.  With [booltype=True] and [return_together=True], the boolean mask
    is False exactly on the two boxes and True elsewhere. *)
Theorem bool_mask_is_outside_boxes (ny nx boxsize1 boxsize2 : nat) (img : image)
    (meta : option (vec * vec)) (pos1 pos2 : option vec) (B : list (list bool)) :
  0 < ny → rect ny nx img →
  dirty_mask img meta boxsize1 boxsize2 true true pos1 pos2 = Value (BoolMask B) →
  ∀ y x, y < ny → x < nx →
    Extraction.getb B y x
    = negb (covered1 ny boxsize1 (traces meta pos1 pos2).1 y x
            || covered2 ny boxsize2 (traces meta pos1 pos2).2 y x).
Proof.
  intros Hny Himg Hcall y x Hy Hx. unfold Extraction.getb.
  by rewrite (bool_mask_spec ny nx boxsize1 boxsize2 img meta pos1 pos2 B).
Qed.


(** *** The mask for the background fit *)

Section FitBackground.

(** The result type of [background.fitbg3], and the call with
    everything but the mask fixed. *)
Variable R : Type.
Variable fitbg3 : list (list bool) → R.

(** [fit_bg]: the box mask of [dirty_mask] with its defaults, minus one
    and read as booleans, goes to [fitbg3]. *)
Definition fit_bg (median : image) (meta : option (vec * vec)) : answer R :=
  box_mask ← dirty_mask median meta 70 60 true true None None;
  match box_mask with
  | BoolMask b =>
      Value (fitbg3 (map (map (λ v : bool, negb ((if v then 1 else 0) - 1 =? 0)%Z)) b))
  | SumMask m => Value (fitbg3 (map (map (λ v, nonzero (v - 1))) m))
  | Message _ =>
      Raised (Builtin TypeError) "unsupported operand type(s) for -: 'str' and 'int'"
  | OrderMasks _ _ =>
      Raised (Builtin TypeError) "unsupported operand type(s) for -: 'tuple' and 'int'"
  end.

(** X20.  What [fitbg3] receives from [fit_bg] is True exactly on the boxes of
    the two orders, 70 and 60 rows high: the negation of what
    [dirty_mask] returned. *)
Theorem fit_bg_passes_the_boxes (ny nx : nat) (median : image)
    (meta : option (vec * vec)) (r : R) :
  0 < ny → rect ny nx median →
  fit_bg median meta = Value r →
  ∃ mask, r = fitbg3 mask
    ∧ ∀ y x, y < ny → x < nx →
        Extraction.getb mask y x
        = covered1 ny 70 (traces meta None None).1 y x
          || covered2 ny 60 (traces meta None None).2 y x.
Proof.
  intros Hny Hmed. unfold fit_bg.
  destruct (dirty_mask median meta 70 60 true true None None) as [res|] eqn:Hcall;
    [|done]. cbn [mbind answer_bind abind].
  destruct res as [msg|b|m|a1 a2]; [done| | |done].
  2:{ exfalso. unfold dirty_mask in Hcall. destruct median as [|row0 rest]; [done|].
      destruct (traces meta None None) as [t1 t2]. cbn [fst snd] in Hcall.
      cbv beta iota zeta in Hcall.
      destruct meta as [tab2|]; [|destruct t1; [|done]];
        destruct (for_columns _ _ _) as [mask|]; done. }
  intros [= <-]. eexists. split; [reflexivity|]. intros y x Hy Hx.
  pose proof (bool_mask_spec ny nx 70 60 median meta None None b Hny Hmed Hcall y x
                Hy Hx) as Hb.
  unfold Extraction.getb. rewrite lookup_map_map, Hb. simpl.
  by destruct (covered1 _ _ _ _ _ || covered2 _ _ _ _ _).
Qed.

End FitBackground.

(** *** The box extraction *)

(** The fields of the data object that [box_extract] reads. *)
Record dataobj : Type := {
  d_data : cube;
  d_var : cube;
  d_median : image;
  d_bkg_removed : option cube
}.

(** The four arrays it returns. *)
Record spectra : Type := {
  spec1 : image;
  spec2 : image;
  var1 : image;
  var2 : image
}.

(** An array operation inside a call of this module; such an operation
    returns or raises, the third case does not arise. *)
Definition lift_outcome {A : Type} (o : outcome A) : answer A :=
  match o with
  | Ret a => Value a
  | Raise e msg => Raised (Builtin e) msg
  | OutOfFuel => Raised (Builtin ValueError) EmptyString
  end.

(** The body of the loop over the integrations.  The products of the
    flux with [m1] and [m2] are commented out in the source: both
    spectra are sums over the whole column. *)
Definition extract_one (d var : cube) (m1 m2 : image) (st : spectra) (i : nat)
    : answer spectra :=
  d_i ← lift_outcome (Extraction.getitem d i);
  s1 ← lift_outcome (Extraction.setrow (spec1 st) i (nansum_axis0 d_i));
  s2 ← lift_outcome (Extraction.setrow (spec2 st) i (nansum_axis0 d_i));
  var_i ← lift_outcome (Extraction.getitem var i);
  w1 ← lift_outcome (bop2 PrimFloat.mul var_i m1);
  v1 ← lift_outcome (Extraction.setrow (var1 st) i (nansum_axis0 w1));
  w2 ← lift_outcome (bop2 PrimFloat.mul var_i m2);
  v2 ← lift_outcome (Extraction.setrow (var2 st) i (nansum_axis0 w2));
  Value {| spec1 := s1; spec2 := s2; var1 := v1; var2 := v2 |}.

Fixpoint for_each (body : spectra → nat → answer spectra) (st : spectra)
    (todo : list nat) : answer spectra :=
  match todo with
  | [] => Value st
  | i :: todo' =>
      match body st i with
      | Value st' => for_each body st' todo'
      | Raised e msg => Raised e msg
      end
  end.

(** [box_extract(data, meta, boxsize1, boxsize2, bkgsub)] *)
Definition box_extract (data : dataobj) (meta : option (vec * vec))
    (boxsize1 boxsize2 : nat) (bkgsub : bool) : answer spectra :=
  let zeros :=
    replicate (length (d_data data))
      (replicate (match d_data data with [] => 0%nat | im :: _ => ncols im end) 0) in
  masks ← dirty_mask (d_median data) meta boxsize1 boxsize2 false false None None;
  ms ← match masks with
       | OrderMasks m1 m2 => Value (m1, m2)
       | _ => Raised (Builtin ValueError) "too many values to unpack (expected 2)"
       end;
  d ← (if bkgsub
       then match d_bkg_removed data with
            | Some b => Value (map (amap (λ v, v + 0)) b)
            | None => Raised (Builtin AttributeError)
                        "object has no attribute 'bkg_removed'"
            end
       else Value (map (amap (λ v, v + 0)) (d_data data)));
  for_each (extract_one d (d_var data) ms.1 ms.2)
    {| spec1 := zeros; spec2 := zeros; var1 := zeros; var2 := zeros |}
    (seq 0 (length d)).

(** A stack of [T] images of [X] rows and [Y] columns. *)
Definition stack (T X Y : nat) (c : cube) : Prop :=
  length c = T ∧ Forall (rect X Y) c.

(** An array of [T] rows of [Y] values. *)
Definition table (T Y : nat) (a : image) : Prop :=
  length a = T ∧ Forall (λ r : vec, length r = Y) a.

Lemma table_insert (T Y : nat) (a : image) (i : nat) (r : vec) :
  table T Y a → length r = Y → table T Y (<[i := r]> a).
Proof.
  intros [Hlen Hrows] Hr. split; [by rewrite length_insert|]. by apply Forall_insert.
Qed.

Section BoxExtract.

Variables (T X Y : nat) (d var : cube) (m1 m2 : image).

Hypothesis HX : 0 < X.
Hypothesis Hd : stack T X Y d.
Hypothesis Hvar : stack T X Y var.
Hypothesis Hm1 : rect X Y m1.
Hypothesis Hm2 : rect X Y m2.

(** The rows that integration [i] contributes. *)
Definition flux_row (i : nat) : vec := nansum_axis0 (default [] (d !! i)).

Definition var_row (m : image) (i : nat) : vec :=
  nansum_axis0 (tabulate2 X Y (λ y x, get2 (default [] (var !! i)) y x * get2 m y x)).

Definition put_rows (st : spectra) (i : nat) : spectra :=
  {| spec1 := <[i := flux_row i]> (spec1 st); spec2 := <[i := flux_row i]> (spec2 st);
     var1 := <[i := var_row m1 i]> (var1 st); var2 := <[i := var_row m2 i]> (var2 st) |}.

Definition tables (st : spectra) : Prop :=
  table T Y (spec1 st) ∧ table T Y (spec2 st) ∧ table T Y (var1 st)
  ∧ table T Y (var2 st).

Lemma length_flux_row (i : nat) : i < T → length (flux_row i) = Y.
Proof using HX Hd.
  intros Hi. destruct Hd as [Hlen Hall]. unfold flux_row.
  destruct (lookup_lt_is_Some_2 d i) as [im Him]; [lia|]. rewrite Him. simpl.
  apply (length_nansum_axis0 X Y); [done|].
  exact (Forall_lookup_1 _ _ _ _ Hall Him).
Qed.

Lemma length_var_row (m : image) (i : nat) : length (var_row m i) = Y.
Proof using HX.
  unfold var_row. apply (length_nansum_axis0 X Y); [done|]. apply rect_tabulate2.
Qed.

Lemma weighted_variance (m : image) (i : nat) (v : image) :
  rect X Y m → var !! i = Some v →
  bop2 PrimFloat.mul v m
  = Ret (tabulate2 X Y (λ y x, get2 (default [] (var !! i)) y x * get2 m y x)).
Proof using Hvar.
  intros Hm Hv. destruct Hvar as [_ Hall].
  pose proof (Forall_lookup_1 _ _ _ _ Hall Hv) as Hrv. simpl in Hrv.
  rewrite Hv. simpl.
  rewrite (image_tabulate X Y v Hrv) at 1. rewrite (image_tabulate X Y m Hm) at 1.
  apply bop2_tabulate.
Qed.

Lemma extract_one_spec (st : spectra) (i : nat) :
  tables st → i < T → extract_one d var m1 m2 st i = Value (put_rows st i).
Proof using All.
  intros (Hs1 & Hs2 & Hv1 & Hv2) Hi. unfold extract_one.
  destruct Hd as [Hlend _]. destruct Hvar as [Hlenv _].
  destruct (lookup_lt_is_Some_2 d i) as [im Him]; [lia|].
  destruct (lookup_lt_is_Some_2 var i) as [v Hv]; [lia|].
  pose proof (length_flux_row i Hi) as Hfr. unfold flux_row in Hfr.
  pose proof (length_var_row m1 i) as Hvr1. pose proof (length_var_row m2 i) as Hvr2.
  unfold var_row in Hvr1, Hvr2. rewrite Him in Hfr. simpl in Hfr.
  rewrite (Extraction.getitem_Some _ _ _ Him). cbn [lift_outcome mbind answer_bind abind].
  destruct Hs1 as [Hl1 Hr1], Hs2 as [Hl2 Hr2], Hv1 as [Hl3 Hr3], Hv2 as [Hl4 Hr4].
  rewrite (Extraction.setrow_spec (spec1 st) i _ Y) by (try done; lia).
  cbn [lift_outcome mbind answer_bind abind].
  rewrite (Extraction.setrow_spec (spec2 st) i _ Y) by (try done; lia).
  cbn [lift_outcome mbind answer_bind abind].
  rewrite (Extraction.getitem_Some _ _ _ Hv). cbn [lift_outcome mbind answer_bind abind].
  rewrite (weighted_variance m1 i v Hm1 Hv). cbn [lift_outcome mbind answer_bind abind].
  rewrite (Extraction.setrow_spec (var1 st) i _ Y) by (try done; lia).
  cbn [lift_outcome mbind answer_bind abind].
  rewrite (weighted_variance m2 i v Hm2 Hv). cbn [lift_outcome mbind answer_bind abind].
  rewrite (Extraction.setrow_spec (var2 st) i _ Y) by (try done; lia).
  cbn [lift_outcome mbind answer_bind abind].
  unfold put_rows, flux_row, var_row. by rewrite Him.
Qed.

Lemma tables_put_rows (st : spectra) (i : nat) :
  tables st → i < T → tables (put_rows st i).
Proof using HX Hd.
  intros (Hs1 & Hs2 & Hv1 & Hv2) Hi. unfold tables, put_rows. simpl.
  split_and!; apply table_insert; try done;
    first [by apply length_flux_row | apply length_var_row].
Qed.

Lemma for_each_spec (todo : list nat) (st : spectra) :
  tables st → Forall (λ i, i < T) todo →
  ∃ st', for_each (extract_one d var m1 m2) st todo = Value st'
    ∧ tables st'
    ∧ (spec2 st = spec1 st → spec2 st' = spec1 st')
    ∧ ∀ i, i < T →
        (i ∈ todo →
         spec1 st' !! i = Some (flux_row i) ∧ var1 st' !! i = Some (var_row m1 i)
         ∧ var2 st' !! i = Some (var_row m2 i)).
Proof using All.
  intros Hst Htodo. revert st Hst.
  induction Htodo as [|i todo Hi Htodo IH]; intros st Hst; cbn [for_each].
  { exists st. split; [done|]. split; [done|]. split; [done|].
    intros i _ Hin. by apply elem_of_nil in Hin. }
  rewrite (extract_one_spec st i Hst Hi).
  destruct (IH (put_rows st i) (tables_put_rows st i Hst Hi))
    as (st' & Hrun & Hst' & Heq & Hrows).
  exists st'. split; [exact Hrun|]. split; [done|]. split.
  { intros Hsame. apply Heq. simpl. by rewrite Hsame. }
  intros j Hj Hin. destruct (decide (j ∈ todo)) as [Hjt|Hjt]; [by apply Hrows|].
  apply elem_of_cons in Hin as [->|Hin]; [|done].
  clear IH Hrows Heq. destruct Hst as (Hs1 & Hs2 & Hv1 & Hv2).
  assert (∀ todo' st0, i ∉ todo' → Forall (λ i, i < T) todo' → tables st0 →
            ∀ st1, for_each (extract_one d var m1 m2) st0 todo' = Value st1 →
            spec1 st1 !! i = spec1 st0 !! i ∧ var1 st1 !! i = var1 st0 !! i
            ∧ var2 st1 !! i = var2 st0 !! i) as Hkeep.
  { induction todo' as [|k todo' IHk]; intros st0 Hnot Hall Hst0 st1; cbn [for_each].
    - by intros [= <-].
    - apply Forall_cons in Hall as [Hk Hall]. apply not_elem_of_cons in Hnot as [Hne Hnot].
      rewrite (extract_one_spec st0 k Hst0 Hk). intros Hrun1.
      destruct (IHk (put_rows st0 k) Hnot Hall (tables_put_rows st0 k Hst0 Hk) st1 Hrun1)
        as (-> & -> & ->).
      simpl. by rewrite !list_lookup_insert_ne by done. }
  destruct (Hkeep todo (put_rows st i) Hjt Htodo
              (tables_put_rows st i (conj Hs1 (conj Hs2 (conj Hv1 Hv2))) Hi) st' Hrun)
    as (-> & -> & ->).
  simpl. destruct Hs1 as [Hl1 _], Hv1 as [Hl3 _], Hv2 as [Hl4 _].
  by rewrite !list_lookup_insert_eq by lia.
Qed.

End BoxExtract.

(** X21.  [box_extract] on well-shaped data, without background removal.  The
    two flux arrays that it returns are the same array: row [i] of
    each is the NaN-ignoring sum of the whole columns of frame [i], the
    boxes not being applied.  The boxes are applied to the variances
    only: row [i] of [var1] (of [var2]) sums, down each column, the
    variance times the mask of the first (second) order, which is 1.0
    on the box and 0.0 off it. *)
Theorem box_extract_sums_whole_columns (T X Y boxsize1 boxsize2 : nat)
    (data : dataobj) (meta : option (vec * vec)) (st : spectra) :
  0 < T → 0 < X →
  stack T X Y (d_data data) → stack T X Y (d_var data) → rect X Y (d_median data) →
  box_extract data meta boxsize1 boxsize2 false = Value st →
  spec2 st = spec1 st
  ∧ ∀ i im v, d_data data !! i = Some im → d_var data !! i = Some v →
      spec1 st !! i = Some (nansum_axis0 (amap (λ a, a + 0) im))
      ∧ var1 st !! i
        = Some (nansum_axis0 (tabulate2 X Y (λ y x,
                  get2 v y x
                  * (if covered1 X boxsize1 (traces meta None None).1 y x
                     then 1 else 0))))
      ∧ var2 st !! i
        = Some (nansum_axis0 (tabulate2 X Y (λ y x,
                  get2 v y x
                  * (if covered2 X boxsize2 (traces meta None None).2 y x
                     then 1 else 0)))).
Proof.
  intros HT HX Hdata Hvar Hmed. unfold box_extract.
  destruct (dirty_mask (d_median data) meta boxsize1 boxsize2 false false None None)
    as [masks|] eqn:Hmask; [|done]. cbn [mbind answer_bind abind].
  destruct masks as [msg|b|m|m1 m2]; try done. cbn [mbind answer_bind abind fst snd].
  destruct (order_masks_spec X Y boxsize1 boxsize2 (d_median data) meta None None m1 m2
              HX Hmed Hmask) as (Hm1 & Hm2 & Hget).
  set (d := map (amap (λ v, v + 0)) (d_data data)).
  assert (stack T X Y d) as Hd.
  { destruct Hdata as [Hlen Hall]. split; [unfold d; by rewrite length_map|].
    apply Forall_fmap. eapply Forall_impl; [exact Hall|]. intros im Him.
    by apply Extraction.rect_amap. }
  assert (match d_data data with [] => 0%nat | im :: _ => ncols im end = Y) as ->.
  { destruct Hdata as [Hlen Hall]. destruct (d_data data) as [|im rest];
      [simpl in Hlen; lia|].
    apply Forall_cons in Hall as [Him _]. by apply (Extraction.ncols_rect X Y). }
  assert (length (d_data data) = T) as -> by (by destruct Hdata).
  assert (length d = T) as -> by (by destruct Hd).
  assert (table T Y (replicate T (replicate Y 0))) as Hzeros.
  { split; [apply length_replicate|]. apply Forall_replicate, length_replicate. }
  destruct (for_each_spec T X Y d (d_var data) m1 m2 HX Hd Hvar Hm1 Hm2 (seq 0 T)
              {| spec1 := replicate T (replicate Y 0);
                 spec2 := replicate T (replicate Y 0);
                 var1 := replicate T (replicate Y 0);
                 var2 := replicate T (replicate Y 0) |})
    as (st' & Hrun & _ & Heq & Hrows).
  { unfold tables; simpl. by split_and!. }
  { apply Forall_forall. intros i Hi%elem_of_seq. lia. }
  rewrite Hrun. intros [= <-]. split; [by apply Heq|]. intros i im v Him Hv.
  assert (i < T) as Hi.
  { destruct Hdata as [<- _]. by eapply lookup_lt_Some. }
  destruct (Hrows i Hi) as (-> & -> & ->); [apply elem_of_seq; lia|].
  unfold flux_row, var_row, d. rewrite list_lookup_fmap, Him, Hv. simpl.
  split; [done|]. split; do 2 f_equal; apply tabulate2_ext; intros y x Hy Hx;
    destruct (Hget y x Hy Hx) as [Hg1 Hg2]; by rewrite ?Hg1, ?Hg2.
Qed.

(** X22.  [box_extract] without a table of traces.  [dirty_mask] then returns
    its message, a string, where two arrays are expected, and unpacking
    it raises; no spectrum is extracted, with or without background
    removal. *)
Theorem box_extract_without_traces_raises (data : dataobj)
    (boxsize1 boxsize2 : nat) (bkgsub : bool) :
  d_median data ≠ [] →
  box_extract data None boxsize1 boxsize2 bkgsub
  = Raised (Builtin ValueError) "too many values to unpack (expected 2)".
Proof.
  intros Hmed. unfold box_extract, dirty_mask.
  by destruct (d_median data) as [|row0 rest].
Qed.

(** *** Worked traces *)

(** A 4 x 2 frame with boxes two rows high.  The first order is at rows
    1 and 2; the second at row 3 in the first column, and far past the
    frame in the second. *)
Definition small : image := [[1; 2]; [3; 4]; [5; 6]; [7; 8]].

Lemma rect_small : rect 4 2 small.
Proof. split; [reflexivity|repeat constructor]. Qed.

Lemma order_masks_separate_witness :
  get2 [[1; 0]; [1; 1]; [0; 1]; [0; 0]] 1 0
  = (if covered1 4 2 (traces None (Some [1; 2]) (Some [3; 10])).1 1 0 then 1 else 0)
  ∧ get2 [[0; 0]; [0; 0]; [1; 0]; [1; 0]] 1 0
    = (if covered2 4 2 (traces None (Some [1; 2]) (Some [3; 10])).2 1 0 then 1 else 0).
Proof.
  refine (order_masks_separate 4 2 2 2 small None (Some [1; 2]) (Some [3; 10])
            [[1; 0]; [1; 1]; [0; 1]; [0; 0]] [[0; 0]; [0; 0]; [1; 0]; [1; 0]]
            _ _ _ 1%nat 0%nat _ _).
  - lia.
  - apply rect_small.
  - vm_compute. reflexivity.
  - lia.
  - lia.
Defined.

Lemma bool_mask_is_outside_boxes_witness :
  Extraction.getb [[false; true]; [false; false]; [false; false]; [false; true]] 3 1
  = negb (covered1 4 2 (traces None (Some [1; 2]) (Some [3; 10])).1 3 1
          || covered2 4 2 (traces None (Some [1; 2]) (Some [3; 10])).2 3 1).
Proof.
  refine (bool_mask_is_outside_boxes 4 2 2 2 small None (Some [1; 2]) (Some [3; 10])
            [[false; true]; [false; false]; [false; false]; [false; true]]
            _ _ _ 3%nat 1%nat _ _).
  - lia.
  - apply rect_small.
  - vm_compute. reflexivity.
  - lia.
  - lia.
Defined.


(** A frame 100 rows high and one column wide, with the traces of the
    two orders at rows 40 and 65. *)
Definition tall : image := replicate 100 [1].

Lemma fit_bg_passes_the_boxes_witness :
  ∃ mask, fit_bg (list (list bool)) id tall (Some ([40], [65])) = Value (id mask)
    ∧ ∀ y x, y < 100 → x < 1 →
        Extraction.getb mask y x
        = covered1 100 70 (traces (Some ([40], [65])) None None).1 y x
          || covered2 100 60 (traces (Some ([40], [65])) None None).2 y x.
Proof.
  destruct (fit_bg (list (list bool)) id tall (Some ([40], [65]))) as [r|] eqn:Hcall;
    [|by vm_compute in Hcall].
  destruct (fit_bg_passes_the_boxes (list (list bool)) id 100 1 tall
              (Some ([40], [65])) r) as (mask & Hr & Hmask).
  - lia.
  - split; [reflexivity|]. apply Forall_replicate. reflexivity.
  - exact Hcall.
  - exists mask. split; [by rewrite Hr|exact Hmask].
Defined.

(** One frame, which is also its own variance and median. *)
Definition one_frame : dataobj :=
  {| d_data := [small]; d_var := [small]; d_median := small; d_bkg_removed := None |}.

Definition one_frame_spectra : spectra :=
  {| spec1 := [[16; 20]]; spec2 := [[16; 20]]; var1 := [[4; 10]]; var2 := [[12; 0]] |}.

Lemma box_extract_sums_whole_columns_witness :
  spec2 one_frame_spectra = spec1 one_frame_spectra
  ∧ spec1 one_frame_spectra !! 0%nat
    = Some (nansum_axis0 (amap (λ a, a + 0) small))
  ∧ var1 one_frame_spectra !! 0%nat
    = Some (nansum_axis0 (tabulate2 4 2 (λ y x,
              get2 small y x
              * (if covered1 4 2 (traces (Some ([1; 2], [3; 10])) None None).1 y x
                 then 1 else 0))))
  ∧ var2 one_frame_spectra !! 0%nat
    = Some (nansum_axis0 (tabulate2 4 2 (λ y x,
              get2 small y x
              * (if covered2 4 2 (traces (Some ([1; 2], [3; 10])) None None).2 y x
                 then 1 else 0)))).
Proof.
  destruct (box_extract_sums_whole_columns 1 4 2 2 2 one_frame
              (Some ([1; 2], [3; 10])) one_frame_spectra) as [Hsame Hrows].
  - lia.
  - lia.
  - split; [reflexivity|]. repeat constructor.
  - split; [reflexivity|]. repeat constructor.
  - apply rect_small.
  - vm_compute. reflexivity.
  - split; [exact Hsame|]. exact (Hrows 0%nat small small eq_refl eq_refl).
Defined.

Lemma box_extract_without_traces_raises_witness :
  box_extract one_frame None 2 2 false
  = Raised (Builtin ValueError) "too many values to unpack (expected 2)".
Proof.
  apply (box_extract_without_traces_raises one_frame 2 2 false). discriminate.
Defined.

End Niriss.

(** ** lib/clipping.py *)

Module Clipping.
Import NumPy.

(** A loop that carries a state and may raise. *)
Fixpoint foldM {A S : Type} (body : S → A → outcome S) (s : S) (l : list A)
    : outcome S :=
  match l with
  | [] => Ret s
  | a :: l' => s' ← body s a; foldM body s' l'
  end.

(** [c[i, x, y]] as a total function. *)
Definition get3 (c : cube) (i x y : nat) : float := get2 (default [] (c !! i)) x y.

(** A stack of [T] images of [X] rows and [Y] columns. *)
Definition box (T X Y : nat) (c : cube) : Prop :=
  length c = T ∧ Forall (rect X Y) c.

(** *** NaN in comparisons and differences *)

Lemma is_nan_spec (x : float) : is_nan x = true → Prim2SF x = S754_nan.
Proof.
  unfold is_nan. rewrite FloatAxioms.eqb_spec. unfold SFeqb, SFcompare.
  destruct (Prim2SF x) as [s|s| |s m e]; try done.
  - by destruct s.
  - rewrite Z.compare_refl.
    change (PosDef.Pos.compare_cont Eq m m) with (Pos.compare m m).
    rewrite Pos.compare_refl. by destruct s.
Qed.

Lemma nan_add_zero (x : float) : Prim2SF x = S754_nan → Prim2SF (x + 0) = S754_nan.
Proof. intros Hx. rewrite add_spec. unfold SF64add, SFadd. by rewrite Hx. Qed.

Lemma nan_sub_l (x y : float) : Prim2SF x = S754_nan → Prim2SF (x - y) = S754_nan.
Proof. intros Hx. rewrite sub_spec. unfold SF64sub, SFsub. by rewrite Hx. Qed.

Lemma nan_sub_r (x y : float) : Prim2SF y = S754_nan → Prim2SF (x - y) = S754_nan.
Proof.
  intros Hy. rewrite sub_spec. unfold SF64sub, SFsub. rewrite Hy.
  by destruct (Prim2SF x) as [[]|[]| |].
Qed.

Lemma nan_abs (x : float) : Prim2SF x = S754_nan → Prim2SF (abs x) = S754_nan.
Proof. intros Hx. by rewrite abs_spec, Hx. Qed.

Lemma nan_leb_r (x y : float) : Prim2SF y = S754_nan → (x <=? y) = false.
Proof.
  intros Hy. rewrite leb_spec. unfold SFleb, SFcompare. rewrite Hy.
  by destruct (Prim2SF x).
Qed.

Lemma nan_leb_l (x y : float) : Prim2SF x = S754_nan → (x <=? y) = false.
Proof. intros Hx. rewrite leb_spec. unfold SFleb, SFcompare. by rewrite Hx. Qed.

Lemma nan_ltb_r (x y : float) : Prim2SF y = S754_nan → (x <? y) = false.
Proof.
  intros Hy. rewrite ltb_spec. unfold SFltb, SFcompare. rewrite Hy.
  by destruct (Prim2SF x).
Qed.

Section TimeRemoval.

(** [np.nanstd] on a 1-D array, and the threshold [sigma] of the call. *)
Variable nanstd : vec → float.
Variable sigma : float.

(** [dat = img[:, x, y] + 0.0] *)
Definition series (img : cube) (x y : nat) : outcome vec :=
  forM (λ im : image,
          match pixel im x y with
          | Some v => Ret (v + 0)
          | None => Raise IndexError "index is out of bounds"
          end) img.

(** The samples that are [sigma] standard deviations or more away from
    the median. *)
Definition sigma_outliers (dat : vec) : list bool :=
  map (λ d, (nanmedian1 dat + sigma * nanstd dat <=? d)
            || (d <=? nanmedian1 dat - sigma * nanstd dat)) dat.

(** [np.abs(np.diff(dat)) > 5] *)
Definition jumps (dat : vec) : list bool :=
  map (λ d, 5 <? abs d) (zip_with PrimFloat.sub (tail dat) dat).

(** [cr_mask[ind, x, y] = 1.0] *)
Definition flag_samples (cr_mask : cube) (ind : list nat) (x y : nat) : cube :=
  foldl (λ m i, alter (λ im : image, put_pixel 1 im (x, y)) i m) cr_mask ind.

(** The body of the two loops, for the pixel [(x, y)]. *)
Definition pixel_pass (img cr_mask : cube) (x y : nat) : outcome cube :=
  dat ← series img x y;
  let cr_mask := flag_samples cr_mask (where1 0 (sigma_outliers dat)) x y in
  Ret (flag_samples cr_mask (where1 0 (jumps dat)) x y).

(** [time_removal(img, sigma, testing)] on a stack of at least one
    image. *)
Definition time_removal (img : cube) (testing : bool) : outcome cube :=
  let cr_mask := map (amap (λ _, 0)) img in
  let shape1 := match img with [] => 0%nat | im :: _ => length im end in
  let shape2 := match img with [] => 0%nat | im :: _ => ncols im end in
  let y := if negb testing then shape1 else 10%nat in
  foldM (λ m x, foldM (λ m y, pixel_pass img m x y) m (seq 0 shape2))
        cr_mask (seq 0 y).

(** *** The mask, sample by sample *)

(** The series of the pixel [(x, y)] of a well-shaped stack. *)
Definition series_of (img : cube) (x y : nat) : vec :=
  map (λ im : image, get2 im x y + 0) img.

(** Sample [i] of the pixel [(x, y)] is an outlier in time, or the next
    sample differs from it by more than 5. *)
Definition flagged (img : cube) (x y i : nat) : bool :=
  default false (sigma_outliers (series_of img x y) !! i)
  || default false (jumps (series_of img x y) !! i).

Lemma series_in_range (X Y : nat) (img : cube) (x y : nat) :
  Forall (rect X Y) img → x < X → y < Y → series img x y = Ret (series_of img x y).
Proof.
  intros Himg Hx Hy. unfold series, series_of. apply forM_ret. intros im Him.
  eapply Forall_forall in Himg; [|exact Him].
  by rewrite (Niriss.pixel_in_range X Y).
Qed.

Lemma lookup_where1 (l : list bool) (i : nat) :
  i ∈ where1 0 l ↔ l !! i = Some true.
Proof.
  rewrite where1_spec. split.
  - by intros (k & -> & Hk).
  - intros Hi. by exists i.
Qed.

Lemma flag_samples_spec (T X Y : nat) (m : cube) (ind : list nat) (x y : nat) :
  box T X Y m →
  box T X Y (flag_samples m ind x y)
  ∧ ∀ i x' y', i < T → x' < X → y' < Y →
      get3 (flag_samples m ind x y) i x' y'
      = if bool_decide (i ∈ ind) && bool_decide ((x', y') = (x, y)) then 1
        else get3 m i x' y'.
Proof.
  revert m. induction ind as [|i0 ind IH]; intros m Hm.
  { split; [done|]. intros i x' y' _ _ _.
    rewrite (bool_decide_eq_false_2 (i ∈ [])); [done|]. by intros ?%elem_of_nil. }
  change (flag_samples m (i0 :: ind) x y)
    with (flag_samples (alter (λ im : image, put_pixel 1 im (x, y)) i0 m) ind x y).
  assert (box T X Y (alter (λ im : image, put_pixel 1 im (x, y)) i0 m)) as Hm1.
  { destruct Hm as [Hlen Hall]. split; [by rewrite length_alter|].
    apply Forall_alter; [done|]. intros im _ Him. by apply rect_put_pixel. }
  destruct (IH _ Hm1) as [Hbox Hget]. split; [done|].
  intros i x' y' Hi Hx' Hy'. rewrite (Hget i x' y' Hi Hx' Hy').
  destruct Hm as [Hlen Hall].
  destruct (lookup_lt_is_Some_2 m i) as [im Him]; [lia|].
  assert (rect X Y im) as Hrim by exact (Forall_lookup_1 _ _ _ _ Hall Him).
  assert (get3 (alter (λ im : image, put_pixel 1 im (x, y)) i0 m) i x' y'
          = if bool_decide (i = i0) && bool_decide ((x', y') = (x, y)) then 1
            else get3 m i x' y') as ->.
  { unfold get3. rewrite list_lookup_alter. destruct (decide (i0 = i)) as [->|Hne].
    - rewrite Him. simpl. rewrite (get2_put_pixel X Y) by done.
      rewrite bool_decide_eq_true_2 by done. simpl.
      destruct (decide ((x', y') = (x, y))) as [Heq|Hneq].
      + by rewrite bool_decide_eq_true_2.
      + by rewrite bool_decide_eq_false_2.
    - by rewrite (bool_decide_eq_false_2 (i = i0)) by congruence. }
  destruct (decide ((x', y') = (x, y))) as [Heq|Hneq].
  - rewrite !(bool_decide_eq_true_2 _ Heq), !andb_true_r.
    destruct (decide (i ∈ ind)) as [Hin|Hnin].
    + rewrite (bool_decide_eq_true_2 _ Hin).
      rewrite bool_decide_eq_true_2; [done|by apply list_elem_of_further].
    + rewrite (bool_decide_eq_false_2 _ Hnin).
      destruct (decide (i = i0)) as [->|Hne].
      * rewrite bool_decide_eq_true_2 by done.
        rewrite bool_decide_eq_true_2; [done|apply list_elem_of_here].
      * rewrite (bool_decide_eq_false_2 (i = i0)) by done.
        rewrite bool_decide_eq_false_2; [done|].
        intros [?|?]%elem_of_cons; done.
  - by rewrite !(bool_decide_eq_false_2 _ Hneq), !andb_false_r.
Qed.

Lemma pixel_pass_spec (T X Y : nat) (img m : cube) (x y : nat) :
  Forall (rect X Y) img → length img = T → box T X Y m → x < X → y < Y →
  ∃ m', pixel_pass img m x y = Ret m'
    ∧ box T X Y m'
    ∧ ∀ i x' y', i < T → x' < X → y' < Y →
        get3 m' i x' y'
        = if bool_decide ((x', y') = (x, y)) && flagged img x y i then 1
          else get3 m i x' y'.
Proof.
  intros Himg Hlen Hm Hx Hy. unfold pixel_pass.
  rewrite (series_in_range X Y) by done. simpl.
  set (dat := series_of img x y).
  destruct (flag_samples_spec T X Y m (where1 0 (sigma_outliers dat)) x y Hm)
    as [Hm1 Hget1].
  destruct (flag_samples_spec T X Y _ (where1 0 (jumps dat)) x y Hm1) as [Hm2 Hget2].
  eexists. split; [done|]. split; [done|]. intros i x' y' Hi Hx' Hy'.
  rewrite (Hget2 i x' y' Hi Hx' Hy'), (Hget1 i x' y' Hi Hx' Hy').
  unfold flagged. fold dat.
  assert (∀ l : list bool, bool_decide (i ∈ where1 0 l) = default false (l !! i)) as Hw.
  { intros l. destruct (l !! i) as [[]|] eqn:Hl; simpl.
    - apply bool_decide_eq_true_2. by apply lookup_where1.
    - apply bool_decide_eq_false_2. rewrite lookup_where1. congruence.
    - apply bool_decide_eq_false_2. rewrite lookup_where1. congruence. }
  rewrite !Hw.
  destruct (bool_decide ((x', y') = (x, y))); simpl; [|by rewrite !andb_false_r].
  rewrite !andb_true_r.
  by destruct (default false (jumps dat !! i)),
              (default false (sigma_outliers dat !! i)).
Qed.

(** The loop over the columns of one row. *)
Lemma row_loop_spec (T X Y : nat) (img : cube) (x : nat) (ys : list nat) (m : cube) :
  Forall (rect X Y) img → length img = T → box T X Y m → x < X →
  NoDup ys → Forall (λ y, y < Y) ys →
  ∃ m', foldM (λ m y, pixel_pass img m x y) m ys = Ret m'
    ∧ box T X Y m'
    ∧ ∀ i x' y', i < T → x' < X → y' < Y →
        get3 m' i x' y'
        = if bool_decide (x' = x) && bool_decide (y' ∈ ys) && flagged img x y' i then 1
          else get3 m i x' y'.
Proof.
  intros Himg Hlen Hm Hx Hnodup. revert m Hm.
  induction Hnodup as [|y ys Hy Hnodup IH]; intros m Hm Hys; cbn [foldM].
  { exists m. split; [done|]. split; [done|]. intros i x' y' _ _ _.
    rewrite (bool_decide_eq_false_2 (y' ∈ [])); [|by intros ?%elem_of_nil].
    by rewrite andb_false_r. }
  apply Forall_cons in Hys as [HyY Hys].
  destruct (pixel_pass_spec T X Y img m x y Himg Hlen Hm Hx HyY)
    as (m1 & -> & Hm1 & Hget1).
  destruct (IH m1 Hm1 Hys) as (m' & Hrun & Hm' & Hget). cbn [mbind outcome_bind obind].
  exists m'. split; [exact Hrun|]. split; [done|]. intros i x' y' Hi Hx' Hy'.
  rewrite (Hget i x' y' Hi Hx' Hy'), (Hget1 i x' y' Hi Hx' Hy').
  destruct (decide (x' = x)) as [->|Hnx].
  2:{ rewrite !(bool_decide_eq_false_2 (x' = x)) by done. simpl.
      rewrite bool_decide_eq_false_2; [done|congruence]. }
  rewrite !(bool_decide_eq_true_2 (x = x)) by done. simpl.
  destruct (decide (y' = y)) as [->|Hny].
  - rewrite (bool_decide_eq_false_2 (y ∈ ys)) by done. simpl.
    rewrite bool_decide_eq_true_2 by done.
    rewrite bool_decide_eq_true_2; [done|apply list_elem_of_here].
  - rewrite (bool_decide_eq_false_2 ((x, y') = (x, y))) by congruence. simpl.
    destruct (decide (y' ∈ ys)) as [Hin|Hnin].
    + rewrite (bool_decide_eq_true_2 _ Hin).
      rewrite bool_decide_eq_true_2; [done|by apply list_elem_of_further].
    + rewrite (bool_decide_eq_false_2 _ Hnin).
      rewrite bool_decide_eq_false_2; [done|]. intros [?|?]%elem_of_cons; done.
Qed.

(** The loop over the rows. *)
Lemma rows_loop_spec (T X Y : nat) (img : cube) (xs : list nat) (m : cube) :
  Forall (rect X Y) img → length img = T → box T X Y m →
  NoDup xs → Forall (λ x, x < X) xs →
  ∃ m', foldM (λ m x, foldM (λ m y, pixel_pass img m x y) m (seq 0 Y)) m xs = Ret m'
    ∧ box T X Y m'
    ∧ ∀ i x' y', i < T → x' < X → y' < Y →
        get3 m' i x' y'
        = if bool_decide (x' ∈ xs) && flagged img x' y' i then 1 else get3 m i x' y'.
Proof.
  intros Himg Hlen Hm Hnodup. revert m Hm.
  induction Hnodup as [|x xs Hx Hnodup IH]; intros m Hm Hxs; cbn [foldM].
  { exists m. split; [done|]. split; [done|]. intros i x' y' _ _ _.
    by rewrite (bool_decide_eq_false_2 (x' ∈ [])); [|by intros ?%elem_of_nil]. }
  apply Forall_cons in Hxs as [HxX Hxs].
  destruct (row_loop_spec T X Y img x (seq 0 Y) m Himg Hlen Hm HxX (NoDup_seq 0 Y))
    as (m1 & -> & Hm1 & Hget1).
  { apply Forall_forall. intros y Hy%elem_of_seq. lia. }
  destruct (IH m1 Hm1 Hxs) as (m' & Hrun & Hm' & Hget). cbn [mbind outcome_bind obind].
  exists m'. split; [exact Hrun|]. split; [done|]. intros i x' y' Hi Hx' Hy'.
  rewrite (Hget i x' y' Hi Hx' Hy'), (Hget1 i x' y' Hi Hx' Hy').
  rewrite (bool_decide_eq_true_2 (y' ∈ seq 0 Y)) by (apply elem_of_seq; lia).
  rewrite andb_true_r.
  destruct (decide (x' = x)) as [->|Hnx].
  - rewrite (bool_decide_eq_false_2 (x ∈ xs)) by done. simpl.
    rewrite bool_decide_eq_true_2 by done.
    rewrite bool_decide_eq_true_2; [done|apply list_elem_of_here].
  - rewrite (bool_decide_eq_false_2 (x' = x)) by done. simpl.
    destruct (decide (x' ∈ xs)) as [Hin|Hnin].
    + rewrite (bool_decide_eq_true_2 _ Hin).
      rewrite bool_decide_eq_true_2; [done|by apply list_elem_of_further].
    + rewrite (bool_decide_eq_false_2 _ Hnin).
      rewrite bool_decide_eq_false_2; [done|]. intros [?|?]%elem_of_cons; done.
Qed.

Lemma box_zeros (T X Y : nat) (img : cube) :
  box T X Y img → box T X Y (map (amap (λ _, 0)) img).
Proof.
  intros [Hlen Hall]. split; [by rewrite length_map|].
  apply Forall_fmap. eapply Forall_impl; [exact Hall|]. intros im Him.
  by apply Niriss.rect_zeros.
Qed.

Lemma get3_zeros (T X Y : nat) (img : cube) (i x y : nat) :
  box T X Y img → i < T → x < X → y < Y → get3 (map (amap (λ _, 0)) img) i x y = 0.
Proof.
  intros [Hlen Hall] Hi Hx Hy. unfold get3. rewrite list_lookup_fmap.
  destruct (lookup_lt_is_Some_2 img i) as [im Him]; [lia|]. rewrite Him. simpl.
  rewrite (Niriss.get2_amap X Y); [done| |done|done].
  exact (Forall_lookup_1 _ _ _ _ Hall Him).
Qed.

Lemma shape_of_box (T X Y : nat) (img : cube) :
  0 < T → 0 < X → box T X Y img →
  match img with [] => 0%nat | im :: _ => length im end = X
  ∧ match img with [] => 0%nat | im :: _ => ncols im end = Y.
Proof.
  intros HT HX [Hlen Hall]. destruct img as [|im rest]; [simpl in Hlen; lia|].
  apply Forall_cons in Hall as [Him _]. split; [by destruct Him|].
  by apply (Extraction.ncols_rect X Y).
Qed.

Lemma time_removal_spec (T X Y : nat) (img : cube) :
  0 < T → 0 < X → box T X Y img →
  ∃ cr_mask, time_removal img false = Ret cr_mask
    ∧ box T X Y cr_mask
    ∧ ∀ i x y, i < T → x < X → y < Y →
        get3 cr_mask i x y = if flagged img x y i then 1 else 0.
Proof.
  intros HT HX Himg. unfold time_removal.
  destruct (shape_of_box T X Y img HT HX Himg) as [-> ->]. simpl.
  pose proof Himg as [Hlen Hall].
  destruct (rows_loop_spec T X Y img (seq 0 X) _ Hall Hlen (box_zeros T X Y img Himg)
              (NoDup_seq 0 X)) as (m' & Hrun & Hm' & Hget).
  { apply Forall_forall. intros x Hx%elem_of_seq. lia. }
  exists m'. split; [exact Hrun|]. split; [done|]. intros i x y Hi Hx Hy.
  rewrite (Hget i x y Hi Hx Hy), (get3_zeros T X Y) by done.
  by rewrite (bool_decide_eq_true_2 (x ∈ seq 0 X)) by (apply elem_of_seq; lia).
Qed.

(** X23.  [time_removal] on a stack of [T] images of [X] x [Y] pixels returns
    a mask of the same shape that holds 1.0 where the sample is
    [sigma] standard deviations or more from the median of its pixel's
    series, or where the next sample of the series differs from it by
    more than 5, and 0.0 everywhere else. *)
Theorem time_removal_flags_outliers_and_jumps (T X Y : nat) (img : cube) :
  0 < T → 0 < X → box T X Y img →
  ∃ cr_mask, time_removal img false = Ret cr_mask
    ∧ box T X Y cr_mask
    ∧ ∀ i x y, i < T → x < X → y < Y →
        get3 cr_mask i x y = if flagged img x y i then 1 else 0.
Proof. apply time_removal_spec. Qed.

Lemma lookup_series_of (T X Y : nat) (img : cube) (x y i : nat) :
  box T X Y img → i < T →
  series_of img x y !! i = Some (get3 img i x y + 0).
Proof.
  intros [Hlen Hall] Hi. unfold series_of, get3. rewrite list_lookup_fmap.
  destruct (lookup_lt_is_Some_2 img i) as [im Him]; [lia|]. by rewrite Him.
Qed.

Lemma lookup_jumps (dat : vec) (i : nat) (a b : float) :
  dat !! i = Some a → dat !! S i = Some b → jumps dat !! i = Some (5 <? abs (b - a)).
Proof.
  intros Ha Hb. unfold jumps. rewrite list_lookup_fmap, lookup_zip_with.
  rewrite lookup_tail, Hb, Ha. done.
Qed.

(** X24.  A sample that is NaN is never flagged: no comparison with it
    holds. *)
Theorem nan_samples_are_never_flagged (T X Y : nat) (img : cube) (i x y : nat) :
  0 < T → 0 < X → box T X Y img → i < T → x < X → y < Y →
  is_nan (get3 img i x y) = true →
  ∃ cr_mask, time_removal img false = Ret cr_mask ∧ get3 cr_mask i x y = 0.
Proof.
  intros HT HX Himg Hi Hx Hy Hnan.
  destruct (time_removal_spec T X Y img HT HX Himg) as (m & Hrun & _ & Hget).
  exists m. split; [done|]. rewrite (Hget i x y Hi Hx Hy).
  apply is_nan_spec, nan_add_zero in Hnan.
  assert (flagged img x y i = false) as ->; [|done].
  unfold flagged. apply orb_false_iff. split.
  - unfold sigma_outliers. rewrite list_lookup_fmap.
    rewrite (lookup_series_of T X Y) by done. simpl.
    by rewrite (nan_leb_r _ _ Hnan), (nan_leb_l _ _ Hnan).
  - destruct (series_of img x y !! S i) as [b|] eqn:Hb.
    + rewrite (lookup_jumps _ i _ b (lookup_series_of T X Y img x y i Himg Hi) Hb).
      simpl. apply nan_ltb_r, nan_abs, nan_sub_r, Hnan.
    + unfold jumps. rewrite list_lookup_fmap, lookup_zip_with, lookup_tail, Hb. done.
Qed.

(** X25.  A jump of more than 5 from one sample of a pixel to the next flags
    the earlier of the two samples. *)
Theorem jump_flags_the_earlier_sample (T X Y : nat) (img : cube) (i x y : nat) :
  0 < X → box T X Y img → S i < T → x < X → y < Y →
  (5 <? abs ((get3 img (S i) x y + 0) - (get3 img i x y + 0))) = true →
  ∃ cr_mask, time_removal img false = Ret cr_mask ∧ get3 cr_mask i x y = 1.
Proof.
  intros HX Himg Hi Hx Hy Hjump.
  destruct (time_removal_spec T X Y img ltac:(lia) HX Himg) as (m & Hrun & _ & Hget).
  exists m. split; [done|]. rewrite (Hget i x y ltac:(lia) Hx Hy).
  assert (flagged img x y i = true) as ->; [|done].
  unfold flagged. apply orb_true_iff. right.
  rewrite (lookup_jumps _ i (get3 img i x y + 0) (get3 img (S i) x y + 0)).
  - exact Hjump.
  - apply (lookup_series_of T X Y); [done|lia].
  - by apply (lookup_series_of T X Y).
Qed.

Lemma foldM_app {A S : Type} (body : S → A → outcome S) (s : S) (l1 l2 : list A) :
  foldM body s (l1 ++ l2) = foldM body s l1 ≫= λ s', foldM body s' l2.
Proof.
  revert s. induction l1 as [|a l1 IH]; intros s; simpl; [done|].
  destruct (body s a) as [s'| |]; simpl; [apply IH|done|done].
Qed.

(** X26.  With [testing=True] the rows 0 to 9 are visited whatever the height
    of the frames: on frames of fewer than ten rows the call raises
    [IndexError]. *)
Theorem testing_needs_ten_rows (T X Y : nat) (img : cube) :
  0 < T → 0 < X → 0 < Y → X < 10 → box T X Y img →
  time_removal img true = Raise IndexError "index is out of bounds".
Proof.
  intros HT HX HY HX10 Himg. unfold time_removal.
  destruct (shape_of_box T X Y img HT HX Himg) as [_ ->]. cbn [negb].
  pose proof Himg as [Hlen Hall].
  replace 10%nat with (X + (10 - X))%nat at 1 by lia.
  rewrite seq_app, foldM_app.
  destruct (rows_loop_spec T X Y img (seq 0 X) _ Hall Hlen (box_zeros T X Y img Himg)
              (NoDup_seq 0 X)) as (m' & -> & _ & _).
  { apply Forall_forall. intros x Hx%elem_of_seq. lia. }
  cbn [mbind outcome_bind obind].
  destruct (10 - X)%nat as [|k] eqn:Hk; [lia|]. destruct Y as [|Y']; [lia|].
  cbn [seq foldM].
  assert (pixel_pass img m' (0 + X) 0 = Raise IndexError "index is out of bounds")
    as ->; [|done].
  destruct img as [|im rest]; [simpl in Hlen; lia|].
  apply Forall_cons in Hall as [[Him _] _]. unfold pixel_pass, series. cbn [forM].
  unfold pixel. rewrite lookup_ge_None_2 by (simpl; lia). done.
Qed.

End TimeRemoval.

(** *** A worked series *)

(** A stand-in for the standard deviation, and three 1 x 1 frames. *)
Definition unit_std : vec → float := λ _, 1.

Definition spike : cube := [[[1]]; [[2]]; [[10]]].

Lemma box_spike : box 3 1 1 spike.
Proof. split; [reflexivity|]. repeat constructor. Qed.

Lemma time_removal_flags_outliers_and_jumps_witness :
  ∃ cr_mask, time_removal unit_std 5 spike false = Ret cr_mask
    ∧ box 3 1 1 cr_mask
    ∧ ∀ i x y, i < 3 → x < 1 → y < 1 →
        get3 cr_mask i x y = if flagged unit_std 5 spike x y i then 1 else 0.
Proof.
  apply (time_removal_flags_outliers_and_jumps unit_std 5 3 1 1 spike).
  - lia.
  - lia.
  - apply box_spike.
Defined.

Lemma nan_samples_are_never_flagged_witness :
  ∃ cr_mask, time_removal unit_std 5 [[[1]]; [[nan]]; [[10]]] false = Ret cr_mask
    ∧ get3 cr_mask 1 0 0 = 0.
Proof.
  apply (nan_samples_are_never_flagged unit_std 5 3 1 1 [[[1]]; [[nan]]; [[10]]] 1 0 0);
    try lia; try reflexivity.
  split; [reflexivity|]. repeat constructor.
Defined.

Lemma jump_flags_the_earlier_sample_witness :
  ∃ cr_mask, time_removal unit_std 5 spike false = Ret cr_mask
    ∧ get3 cr_mask 1 0 0 = 1.
Proof.
  apply (jump_flags_the_earlier_sample unit_std 5 3 1 1 spike 1 0 0);
    try lia; try reflexivity.
  apply box_spike.
Defined.

Lemma testing_needs_ten_rows_witness :
  time_removal unit_std 5 spike true = Raise IndexError "index is out of bounds".
Proof.
  apply (testing_needs_ten_rows unit_std 5 3 1 1 spike); try lia.
  apply box_spike.
Defined.

End Clipping.

